(** * DeskBot: a shallow embedding of the coordination core

    The Python sources embedded here are
    - [src/motor_control.py]   (module [MotorControl]),
    - [src/shared_state.py]    (module [SharedState]),
    - [src/vision_tracker.py]  (module [VisionTracker]),
    - [src/voice_commands.py]  (module [VoiceCommands]),
    - [src/music_player.py]    (module [MusicPlayer]).

    Conventions.  Python [int] is [Z].  The product of 32-bit integers that
    the vision loop forms wraps around as in numpy.  A [float] is the
    rational number it denotes, and the arithmetic on floats rounds to the
    nearest float (module [Binary64]).  A [str] is the sequence of its code
    points; the embedding covers the code points below 256, one [ascii] each.
    A [dict] with string keys is a [gmap string _].  Mutable objects that are
    shared by reference (video frames) live in an explicit heap.  A Python
    exception is the [Raise] branch of [result]; [DanglingReference] is not
    a Python exception: it marks a heap in which a reference names no
    object, which no Python run reaches. *)

From Stdlib Require Import ZArith QArith Qround Qpower Qabs String Ascii List Bool Lia Lqa.
From stdpp Require Import gmap strings list fin_maps pretty.

Local Open Scope string_scope.
Local Open Scope Z_scope.

(** ** Exceptions *)

Inductive exn : Type :=
| AttributeError
| ZeroDivisionError
| OverflowError
| DanglingReference.

Inductive result (A : Type) : Type :=
| Ok (a : A)
| Raise (e : exn).

Arguments Ok {A} a.
Arguments Raise {A} e.

Definition bind {A B : Type} (m : result A) (k : A -> result B) : result B :=
  match m with
  | Ok a => k a
  | Raise e => Raise e
  end.

Declare Scope py_scope.
Delimit Scope py_scope with py.
Notation "x <- m ;; k" := (bind m (fun x => k))
  (at level 100, m at next level, right associativity) : py_scope.

(** ** Python strings *)

Module PyStr.

(** [str.isspace] on one code point below 256: TAB..CR, FS..US, SPACE,
    NEL (0x85) and NBSP (0xA0). *)
Definition isspace (c : ascii) : bool :=
  let n := N_of_ascii c in
  ((9 <=? n) && (n <=? 13) || (28 <=? n) && (n <=? 32)
   || (n =? 133) || (n =? 160))%N.

(** [str.lower] on one code point below 256: [A-Z] and the Latin-1 capitals
    0xC0..0xDE (0xD7, the multiplication sign, apart) move up by 32. *)
Definition lower_char (c : ascii) : ascii :=
  let n := N_of_ascii c in
  if ((65 <=? n) && (n <=? 90)
      || (192 <=? n) && (n <=? 222) && negb (n =? 215))%N
  then ascii_of_N (n + 32) else c.

Fixpoint lower (s : string) : string :=
  match s with
  | EmptyString => EmptyString
  | String c s' => String (lower_char c) (lower s')
  end.

Fixpoint lstrip (s : string) : string :=
  match s with
  | EmptyString => EmptyString
  | String c s' => if isspace c then lstrip s' else s
  end.

Fixpoint rstrip (s : string) : string :=
  match s with
  | EmptyString => EmptyString
  | String c s' =>
      match rstrip s' with
      | EmptyString => if isspace c then EmptyString else String c EmptyString
      | r => String c r
      end
  end.

Definition strip (s : string) : string := rstrip (lstrip s).

(** [s.startswith(p)] *)
Definition startswith (s p : string) : bool := String.prefix p s.

(** [s[n:]] *)
Fixpoint slice_from (n : nat) (s : string) : string :=
  match n, s with
  | O, _ => s
  | S _, EmptyString => EmptyString
  | S n', String _ s' => slice_from n' s'
  end.

(** [needle in hay] *)
Fixpoint contains (hay needle : string) : bool :=
  String.prefix needle hay
  || match hay with
     | EmptyString => false
     | String _ hay' => contains hay' needle
     end.

(** [s in [l0, l1, ...]] *)
Definition in_list (s : string) (l : list string) : bool :=
  existsb (String.eqb s) l.

(** truthiness of a [str] *)
Definition truthy (s : string) : bool :=
  match s with EmptyString => false | _ => true end.

Definition len (s : string) : Z := Z.of_nat (String.length s).

(** [re.match(r'a0|a1|...', s)] for literal alternatives: the match is
    anchored at the start of [s], so it succeeds exactly when [s] begins
    with one of them. *)
Definition re_match_alt (alts : list string) (s : string) : bool :=
  existsb (startswith s) alts.

End PyStr.

(** ** Python values held in the command dictionaries *)

Inductive pyval : Type :=
| PyNone
| PyS (s : string).

Abbreviation command := (gmap string pyval).

(** ** src/voice_commands.py *)

Module VoiceCommands.
Import PyStr.

Definition parse_command (text : string) : option command :=
  let text := strip (lower text) in
  if negb (truthy text) then None
  else if in_list text ["hello"; "hi"; "hey"; "hello debo"] then
    Some {[ "type" := PyS "greeting"; "action" := PyS "hello" ]}
  else if startswith text "play" then
    let query := strip (slice_from 4 text) in
    Some {[ "type" := PyS "music";
            "action" := PyS "play";
            "query" := if truthy query then PyS query else PyNone ]}
  else if in_list text ["pause"; "pause music"; "pause it"] then
    Some {[ "type" := PyS "music"; "action" := PyS "pause" ]}
  else if in_list text ["stop"; "stop music"; "stop it"; "stop playing"] then
    Some {[ "type" := PyS "music"; "action" := PyS "stop" ]}
  else if re_match_alt
            ["volume up"; "louder"; "turn it up"; "increase volume"] text then
    Some {[ "type" := PyS "volume"; "action" := PyS "up" ]}
  else if re_match_alt
            ["volume down"; "quieter"; "turn it down"; "decrease volume"] text then
    Some {[ "type" := PyS "volume"; "action" := PyS "down" ]}
  else if re_match_alt
            ["tracking on"; "enable tracking"; "start tracking"; "track me"] text then
    Some {[ "type" := PyS "tracking"; "action" := PyS "on" ]}
  else if re_match_alt
            ["tracking off"; "disable tracking"; "stop tracking"; "don't track"] text then
    Some {[ "type" := PyS "tracking"; "action" := PyS "off" ]}
  else None.

End VoiceCommands.

(** ** src/motor_control.py *)

Module MotorControl.

Definition DEAD_ZONE : Z := 50.
Definition MOTOR_SPEED : Q := 1.

(** A motor object of the MotorKit; [throttle] is the attribute the module
    writes. *)
Record DCMotor : Type := { throttle : Q }.

(** The module globals, and what the module has printed. *)
Record state : Type := {
  MOTOR_AVAILABLE : bool;
  motor1 : option DCMotor;
  motor2 : option DCMotor;
  stdout : list string
}.

(** The [try: ... except Exception as e: ...] at import time.  [kit] is what
    [MotorKit()] gives: the two motors, or the message of the exception. *)
Definition module_init (kit : string + DCMotor * DCMotor) : state :=
  match kit with
  | inr (m1, m2) =>
      {| MOTOR_AVAILABLE := true; motor1 := Some m1; motor2 := Some m2;
         stdout := ["Motors initialized on M1 and M2"] |}
  | inl e =>
      {| MOTOR_AVAILABLE := false; motor1 := None; motor2 := None;
         stdout := ["Motors not available: " +:+ e] |}
  end.

(** [m.throttle = v], where [m] may be [None]. *)
Definition set_throttle (m : option DCMotor) (v : Q) : result (option DCMotor) :=
  match m with
  | Some _ => Ok (Some {| throttle := v |})
  | None => Raise AttributeError
  end.

Definition is_not_None {A : Type} (o : option A) : bool :=
  match o with Some _ => true | None => false end.

Definition control_motors (offset_x offset_y : Z) (s : state) : result state :=
  if negb (MOTOR_AVAILABLE s) then Ok s
  else
    (m1 <- (if is_not_None (motor1 s) then
              if offset_x >? DEAD_ZONE then set_throttle (motor1 s) (- MOTOR_SPEED)
              else if offset_x <? - DEAD_ZONE then set_throttle (motor1 s) MOTOR_SPEED
              else set_throttle (motor1 s) 0
            else Ok (motor1 s)) ;;
     m2 <- (if is_not_None (motor2 s) then
              if offset_y >? DEAD_ZONE then set_throttle (motor2 s) MOTOR_SPEED
              else if offset_y <? - DEAD_ZONE then set_throttle (motor2 s) (- MOTOR_SPEED)
              else set_throttle (motor2 s) 0
            else Ok (motor2 s)) ;;
     Ok {| MOTOR_AVAILABLE := MOTOR_AVAILABLE s; motor1 := m1; motor2 := m2;
           stdout := stdout s |})%py.

Definition stop_motors (s : state) : result state :=
  if MOTOR_AVAILABLE s then
    (m1 <- (if is_not_None (motor1 s) then set_throttle (motor1 s) 0
            else Ok (motor1 s)) ;;
     m2 <- (if is_not_None (motor2 s) then set_throttle (motor2 s) 0
            else Ok (motor2 s)) ;;
     Ok {| MOTOR_AVAILABLE := MOTOR_AVAILABLE s; motor1 := m1; motor2 := m2;
           stdout := stdout s ++ ["Motors stopped"] |})%py
  else Ok s.

(** A motor handle after [stop_motors] has gone over it. *)
Definition stopped (m : option DCMotor) : option DCMotor :=
  match m with
  | Some _ => Some {| throttle := 0 |}
  | None => None
  end.

(** [n] calls of [stop_motors] in a row. *)
Fixpoint stop_motors_times (n : nat) (s : state) : result state :=
  match n with
  | O => Ok s
  | S n' => (s' <- stop_motors s ;; stop_motors_times n' s')%py
  end.

(** The drive value of an axis, read off the throttle. *)
Inductive drive : Type := reverse | stop | forward.

Definition drive_of_throttle (t : Q) : drive :=
  match (t ?= 0)%Q with
  | Lt => reverse
  | Eq => stop
  | Gt => forward
  end.

Definition axis (m : option DCMotor) : option drive :=
  match m with
  | Some d => Some (drive_of_throttle (throttle d))
  | None => None
  end.

Definition horizontal (s : state) : option drive := axis (motor1 s).
Definition vertical (s : state) : option drive := axis (motor2 s).

End MotorControl.

(** ** Frames and the heap

    A frame is a numpy array: a mutable object handled by reference.  [shape]
    is [(height, width)], what [frame.shape[:2]] gives. *)

Record ndarray : Type := { shape : Z * Z; data : list Z }.

Abbreviation loc := positive.
Abbreviation heap := (gmap loc ndarray).

(** [a.copy()]: a new object with the contents of the object at [a]. *)
Definition ndarray_copy (a : loc) (h : heap) : result (loc * heap) :=
  match h !! a with
  | Some d => let a' := fresh (dom h) in Ok (a', <[a' := d]> h)
  | None => Raise DanglingReference
  end.

(** ** src/shared_state.py *)

Module SharedState.

(** The attributes of a [SharedState] object.  The lock only serialises
    the threads and has no sequential content; the [Queue] is unbounded
    and is modelled by the list of its items, head first. *)
Record t : Type := {
  _frame : option loc;
  _command_queue : list command;
  _running : bool;
  _tracking_enabled : bool
}.

Definition new : t :=
  {| _frame := None; _command_queue := []; _running := true;
     _tracking_enabled := true |}.

Definition with_frame (f : option loc) (self : t) : t :=
  {| _frame := f; _command_queue := _command_queue self;
     _running := _running self; _tracking_enabled := _tracking_enabled self |}.

Definition with_queue (q : list command) (self : t) : t :=
  {| _frame := _frame self; _command_queue := q;
     _running := _running self; _tracking_enabled := _tracking_enabled self |}.

Definition set_frame (frame : option loc) (h : heap) (self : t)
  : result (heap * t) :=
  match frame with
  | Some a => (r <- ndarray_copy a h ;; Ok (r.2, with_frame (Some r.1) self))%py
  | None => Ok (h, with_frame None self)
  end.

Definition get_frame (h : heap) (self : t) : result (option loc * heap) :=
  match _frame self with
  | Some a => (r <- ndarray_copy a h ;; Ok (Some r.1, r.2))%py
  | None => Ok (None, h)
  end.

Definition put_command (c : command) (self : t) : t :=
  with_queue (_command_queue self ++ [c]) self.

(** What a call that may wait does in a run with no other thread. *)
Inductive outcome (A : Type) : Type :=
| Returns (a : A)
| Blocks.
Arguments Returns {A} a.
Arguments Blocks {A}.

(** [Queue.get(timeout=timeout)] inside [try: ... except: return None].
    With no timeout the call waits for an item.  A negative timeout makes
    [Queue.get] raise [ValueError] before it looks at the queue; a
    non-negative one makes it raise [Empty] once it has elapsed on an empty
    queue.  The bare [except] turns both into [None]. *)
Definition get_command (timeout : option Q) (self : t)
  : outcome (option command * t) :=
  match timeout with
  | None =>
      match _command_queue self with
      | c :: q => Returns (Some c, with_queue q self)
      | [] => Blocks
      end
  | Some secs =>
      match (secs ?= 0)%Q with
      | Lt => Returns (None, self)
      | _ =>
          match _command_queue self with
          | c :: q => Returns (Some c, with_queue q self)
          | [] => Returns (None, self)
          end
      end
  end.

(** The timeouts [Queue.get] accepts: none, or a non-negative number. *)
Definition valid_timeout (timeout : option Q) : Prop :=
  match timeout with
  | None => True
  | Some secs => (0 <= secs)%Q
  end.

(** [put_command] on each item of [cs] in turn. *)
Definition put_commands (cs : list command) (self : t) : t :=
  fold_left (fun s c => put_command c s) cs self.

(** [n] calls of [get_command] in a row, with what each returned. *)
Fixpoint get_commands (timeout : option Q) (n : nat) (self : t)
  : outcome (list (option command) * t) :=
  match n with
  | O => Returns ([], self)
  | S n' =>
      match get_command timeout self with
      | Returns (c, self') =>
          match get_commands timeout n' self' with
          | Returns (cs, self'') => Returns (c :: cs, self'')
          | Blocks => Blocks
          end
      | Blocks => Blocks
      end
  end.

Definition has_command (self : t) : bool :=
  negb (match _command_queue self with [] => true | _ => false end).

Definition running (self : t) : bool := _running self.

Definition set_running (value : bool) (self : t) : t :=
  {| _frame := _frame self; _command_queue := _command_queue self;
     _running := value; _tracking_enabled := _tracking_enabled self |}.

Definition tracking_enabled (self : t) : bool := _tracking_enabled self.

Definition set_tracking_enabled (value : bool) (self : t) : t :=
  {| _frame := _frame self; _command_queue := _command_queue self;
     _running := _running self; _tracking_enabled := value |}.

End SharedState.

(** ** src/vision_tracker.py *)

Module VisionTracker.

Definition FRAME_WIDTH : Z := 640.
Definition FRAME_HEIGHT : Z := 480.

(** A face box [(x, y, w, h)], in pixels, as the detector gives it: a row
    of four 32-bit integers ([numpy.int32]). *)
Definition box : Type := Z * Z * Z * Z.

(** The value of an operation on 32-bit integers whose exact result is
    [z]: numpy wraps around. *)
Definition int32 (z : Z) : Z := (z + 2 ^ 31) mod 2 ^ 32 - 2 ^ 31.

(** The key of [max(faces, key=lambda f: f[2] * f[3])]: a product of two
    32-bit integers. *)
Definition area (f : box) : Z :=
  let '(_, _, w, h) := f in int32 (w * h).

(** A box that lies in a frame of the given shape, as the boxes of the
    detector do. *)
Definition inside (frame_shape : Z * Z) (f : box) : Prop :=
  let '(frame_height, frame_width) := frame_shape in
  let '(x, y, w, h) := f in
  0 <= x /\ 0 <= y /\ 0 <= w /\ 0 <= h
  /\ x + w <= frame_width /\ y + h <= frame_height.

(** Python's [max(iterable, key=...)]: the running maximum is replaced only
    by an item whose key is strictly greater. *)
Fixpoint max_from {A : Type} (key : A -> Z) (best : A) (l : list A) : A :=
  match l with
  | [] => best
  | item :: l' => max_from key (if key item >? key best then item else best) l'
  end.

(** The calls into motor_control, in the order they are made. *)
Inductive call : Type :=
| Call_control_motors (offset_x offset_y : Z)
| Call_stop_motors.

(** What the loop acts on: the globals of motor_control, the heap, the
    [shared] object, and the calls made so far.  [calls] is the one field
    with no counterpart in the program: it records which function of
    motor_control each iteration invokes. *)
Record world : Type := {
  motors : MotorControl.state;
  store : heap;
  shared : SharedState.t;
  calls : list call
}.

(** The offset of a face from the centre of a frame of the given shape.
    For a box that lies in the frame the sums and differences are within
    the width and the height of the frame, and are taken in [Z]. *)
Definition offset (frame_shape : Z * Z) (largest_face : box) : Z * Z :=
  let '(frame_height, frame_width) := frame_shape in
  let frame_center_x := frame_width / 2 in
  let frame_center_y := frame_height / 2 in
  let '(x, y, w, h) := largest_face in
  let face_center_x := x + w / 2 in
  let face_center_y := y + h / 2 in
  (face_center_x - frame_center_x, face_center_y - frame_center_y).

Section Loop.

(** The OpenCV calls, with the constant arguments the loop gives them:
    [cv2.cvtColor(frame, cv2.COLOR_BGR2GRAY)], the detector
    [face_cascade.detectMultiScale(gray, scaleFactor=1.1, minNeighbors=5,
    minSize=(30, 30))], and what [cv2.rectangle(frame, pt1, pt2,
    (255, 255, 255), 2)] leaves in the frame it draws on. *)
Variable cvtColor : ndarray -> ndarray.
Variable detectMultiScale : ndarray -> list box.
Variable rectangle : ndarray -> Z * Z -> Z * Z -> ndarray.

(** One turn of [while shared.running:].  [read] is what [cap.read()]
    gives: [None] for [ret] false, else the contents of the new frame. *)
Definition loop_body (read : option ndarray) (w : world) : result world :=
  match read with
  | None => Ok w
  | Some img =>
      let frame := fresh (dom (store w)) in
      let h0 := <[frame := img]> (store w) in
      let gray := cvtColor img in
      let faces := detectMultiScale gray in
      (r <- match faces with
            | first :: rest =>
                let largest_face := max_from area first rest in
                let '(x, y, w_, h_) := largest_face in
                let h1 := <[frame := rectangle img (x, y) (x + w_, y + h_)]> h0 in
                let '(offset_x, offset_y) := offset (shape img) largest_face in
                if SharedState.tracking_enabled (shared w) then
                  m <- MotorControl.control_motors offset_x offset_y (motors w) ;;
                  Ok (h1, m, (calls w ++ [Call_control_motors offset_x offset_y])%list)
                else
                  m <- MotorControl.stop_motors (motors w) ;;
                  Ok (h1, m, (calls w ++ [Call_stop_motors])%list)
            | [] =>
                m <- MotorControl.stop_motors (motors w) ;;
                Ok (h0, m, (calls w ++ [Call_stop_motors])%list)
            end ;;
       let '(h1, m, cs) := r in
       p <- SharedState.set_frame (Some frame) h1 (shared w) ;;
       Ok {| motors := m; store := p.1; shared := p.2; calls := cs |})%py
  end.

End Loop.

End VisionTracker.

(** ** binary64

    A Python float that is finite is a rational number, and an operation on
    floats returns the float nearest to the exact result, the one with the
    even last digit when two floats are as near.  [round64] is this
    rounding for 53 binary digits and the least exponent -1074, the
    subnormal numbers included; a result of magnitude [2 ^ 1024] or more is
    not a float. *)

Module Binary64.

(** The integer nearest to [x], the even one of two. *)
Definition rint (x : Q) : Z :=
  let n := Qfloor x in
  match (x - inject_Z n ?= 1 # 2)%Q with
  | Lt => n
  | Gt => n + 1
  | Eq => if Z.even n then n else n + 1
  end.

(** The exponent [e] of a positive [x]: [2 ^ e <= x < 2 ^ (e + 1)]. *)
Definition exponent (x : Q) : Z :=
  let k := Z.log2 (Qnum x) - Z.log2 (Zpos (Qden x)) in
  if Qle_bool (2 ^ k) x then k else k - 1.

(** The multiple of [2 ^ q] nearest to [x]. *)
Definition round_to (q : Z) (x : Q) : Q :=
  (inject_Z (rint (x / 2 ^ q)) * 2 ^ q)%Q.

(** The floats around a positive [x] of exponent [e] are the multiples of
    [2 ^ (e - 52)], and of [2 ^ -1074] when that is larger. *)
Definition round_pos (x : Q) : Q :=
  round_to (Z.max (exponent x - 52) (-1074)) x.

Definition round64 (x : Q) : Q :=
  let r := Qred x in
  match Qnum r with
  | Z0 => 0%Q
  | Zpos _ => round_pos r
  | Zneg _ => (- round_pos (- r))%Q
  end.

Definition finite (x : Q) : bool := negb (Qle_bool (2 ^ 1024) (Qabs x)).

End Binary64.

(** ** src/music_player.py *)

Module MusicPlayer.
Import PyStr.

(** An entry of the index: the dictionary with the keys ['name'],
    ['filename'] and ['path'] that [index_music_folder] builds. *)
Record song : Type := { name : string; filename : string; path : string }.

(** [a / b] on integers: the float nearest to the exact quotient,
    [ZeroDivisionError] for a zero divisor, and [OverflowError] when the
    quotient is too large for a float. *)
Definition truediv (a b : Z) : result Q :=
  if b =? 0 then Raise ZeroDivisionError
  else
    let q := Binary64.round64 (inject_Z a / inject_Z b) in
    if Binary64.finite q then Ok q else Raise OverflowError.

Definition Qgtb (a b : Q) : bool :=
  match (a ?= b)%Q with Gt => true | _ => false end.

Section Matching.

(** [SequenceMatcher(None, a, b).ratio()] of difflib: the value of the
    float it returns. *)
Variable ratio : string -> string -> Q.

(** The score of one song.  The sum of a float and [0.5] is rounded as
    well; it is never too large for a float. *)
Definition score (query_lower name_lower : string) : result Q :=
  if contains name_lower query_lower then
    (q <- truediv (len query_lower) (len name_lower) ;;
     Ok (Binary64.round64 (q + (1 # 2))))%py
  else Ok (ratio query_lower name_lower).

(** The [for song in music_files:] loop on [(best_match, best_score)]. *)
Fixpoint scan (query_lower : string) (music_files : list song)
         (best : option song * Q) : result (option song * Q) :=
  match music_files with
  | [] => Ok best
  | song :: rest =>
      let name_lower := lower (name song) in
      (sc <- score query_lower name_lower ;;
       if Qgtb sc best.2 then scan query_lower rest (Some song, sc)
       else scan query_lower rest best)%py
  end.

(** [query] is [None] where the caller has no query.  The literal [0.3]
    is the float next below 3/10, and no float lies between the two: for
    the value [x] of a float, [x > 0.3] is [x > 3 / 10]. *)
Definition find_best_match (query : option string) (music_files : list song)
  : result (option song) :=
  match music_files with
  | [] => Ok None
  | first :: _ =>
      match query with
      | None | Some EmptyString => Ok (Some first)
      | Some query =>
          let query_lower := lower query in
          (best <- scan query_lower music_files (None, 0%Q) ;;
           if Qgtb best.2 (3 # 10) then Ok best.1 else Ok None)%py
      end
  end.

End Matching.

(** The media player of VLC, as far as the volume goes. *)
Record MediaPlayer : Type := { audio_volume : Z }.

Definition audio_set_volume (p : MediaPlayer) (v : Z) : MediaPlayer :=
  {| audio_volume := v |}.

(** The attributes of a [MusicPlayerThread]. *)
Record t : Type := {
  command_queue : list command;
  _running : bool;
  player : option MediaPlayer;
  current_volume : Z;
  music_files : list song;
  current_song : option song;
  stdout : list string
}.

Definition new (command_queue : list command) : t :=
  {| command_queue := command_queue; _running := true; player := None;
     current_volume := 70; music_files := []; current_song := None;
     stdout := [] |}.

Definition with_volume (p : option MediaPlayer) (v : Z) (out : list string)
           (self : t) : t :=
  {| command_queue := command_queue self; _running := _running self;
     player := p; current_volume := v; music_files := music_files self;
     current_song := current_song self; stdout := out |}.

(** [_init_vlc]: [VLC_AVAILABLE] is the module flag, [created] the player
    that [vlc.Instance(...).media_player_new()] gives, or the message of
    the exception raised on the way. *)
Definition _init_vlc (VLC_AVAILABLE : bool) (created : string + MediaPlayer)
           (self : t) : bool * t :=
  if negb VLC_AVAILABLE then
    (false, with_volume (player self) (current_volume self)
              ((stdout self) ++ ["[Music] VLC not available"]) self)
  else
    match created with
    | inr p =>
        (true,
         with_volume (Some (audio_set_volume p (current_volume self)))
           (current_volume self)
           ((stdout self) ++ ["[Music] VLC initialized, volume: "
                              +:+ pretty (current_volume self) +:+ "%"])
           self)
    | inl e =>
        (false, with_volume (player self) (current_volume self)
                  ((stdout self) ++ ["[Music] Failed to initialize VLC: " +:+ e])
                  self)
    end.

Definition volume_up (step : Z) (self : t) : t :=
  match player self with
  | Some p =>
      let v := Z.min 100 (current_volume self + step) in
      with_volume (Some (audio_set_volume p v)) v
        ((stdout self) ++ ["[Music] Volume: " +:+ pretty v +:+ "%"]) self
  | None => self
  end.

Definition volume_down (step : Z) (self : t) : t :=
  match player self with
  | Some p =>
      let v := Z.max 0 (current_volume self - step) in
      with_volume (Some (audio_set_volume p v)) v
        ((stdout self) ++ ["[Music] Volume: " +:+ pretty v +:+ "%"]) self
  | None => self
  end.

(** The volume actions of [_process_command], which calls both with the
    default [step=10]. *)
Inductive volume_action : Type := Volume_up | Volume_down.

Definition process_volume (a : volume_action) (self : t) : t :=
  match a with
  | Volume_up => volume_up 10 self
  | Volume_down => volume_down 10 self
  end.

Definition process_volumes (l : list volume_action) (self : t) : t :=
  fold_left (fun s a => process_volume a s) l self.

End MusicPlayer.

(** ** Sequences of calls into motor_control *)

Module MotorCalls.
Import MotorControl.

(** The availability flag and the handles agree: both motors are there when
    the flag is set, none when it is not. *)
Definition coherent (s : state) : bool :=
  if MOTOR_AVAILABLE s
  then is_not_None (motor1 s) && is_not_None (motor2 s)
  else negb (is_not_None (motor1 s)) && negb (is_not_None (motor2 s)).

(** The throttle [control_motors] chooses for an offset, per axis. *)
Definition horizontal_throttle (offset_x : Z) : Q :=
  if offset_x >? DEAD_ZONE then - MOTOR_SPEED
  else if offset_x <? - DEAD_ZONE then MOTOR_SPEED
  else 0.

Definition vertical_throttle (offset_y : Z) : Q :=
  if offset_y >? DEAD_ZONE then MOTOR_SPEED
  else if offset_y <? - DEAD_ZONE then - MOTOR_SPEED
  else 0.

(** A motor handle with its throttle written, when there is a motor. *)
Definition driven (m : option DCMotor) (v : Q) : option DCMotor :=
  match m with
  | Some _ => Some {| throttle := v |}
  | None => None
  end.

(** One call, and a list of calls in order. *)
Definition perform (c : VisionTracker.call) (s : state) : result state :=
  match c with
  | VisionTracker.Call_control_motors offset_x offset_y =>
      control_motors offset_x offset_y s
  | VisionTracker.Call_stop_motors => stop_motors s
  end.

Fixpoint perform_all (cs : list VisionTracker.call) (s : state) : result state :=
  match cs with
  | [] => Ok s
  | c :: cs' => (s' <- perform c s ;; perform_all cs' s')%py
  end.

End MotorCalls.

(** ** face_tracker.py: the motor functions of the stand-alone script

    The script has its own copy of the globals and of the two functions, with
    another speed and with no message in [stop_motors]. *)

Module FaceTracker.
Import MotorControl.

Definition DEAD_ZONE : Z := 50.
Definition MOTOR_SPEED : Q := 7 # 10.

Definition control_motors (offset_x offset_y : Z) (s : state) : result state :=
  if negb (MOTOR_AVAILABLE s) then Ok s
  else
    (m1 <- (if is_not_None (motor1 s) then
              if offset_x >? DEAD_ZONE then set_throttle (motor1 s) (- MOTOR_SPEED)
              else if offset_x <? - DEAD_ZONE then set_throttle (motor1 s) MOTOR_SPEED
              else set_throttle (motor1 s) 0
            else Ok (motor1 s)) ;;
     m2 <- (if is_not_None (motor2 s) then
              if offset_y >? DEAD_ZONE then set_throttle (motor2 s) MOTOR_SPEED
              else if offset_y <? - DEAD_ZONE then set_throttle (motor2 s) (- MOTOR_SPEED)
              else set_throttle (motor2 s) 0
            else Ok (motor2 s)) ;;
     Ok {| MOTOR_AVAILABLE := MOTOR_AVAILABLE s; motor1 := m1; motor2 := m2;
           stdout := stdout s |})%py.

Definition stop_motors (s : state) : result state :=
  if MOTOR_AVAILABLE s then
    (m1 <- (if is_not_None (motor1 s) then set_throttle (motor1 s) 0
            else Ok (motor1 s)) ;;
     m2 <- (if is_not_None (motor2 s) then set_throttle (motor2 s) 0
            else Ok (motor2 s)) ;;
     Ok {| MOTOR_AVAILABLE := MOTOR_AVAILABLE s; motor1 := m1; motor2 := m2;
           stdout := stdout s |})%py
  else Ok s.

End FaceTracker.

(** ** src/vision_tracker.py: the whole of [run_vision_tracker] *)

Module VisionRun.
Import VisionTracker.

Definition CAMERA_INDEX : Z := 0.

(** What happens while [run_vision_tracker] is in its loop, in the order
    in which it happens: a turn of the loop, with what [cap.read()] gives in
    it, or an assignment to a flag of [shared] by another thread or by the
    signal handler. *)
Inductive event : Type :=
| Turn (read : option ndarray)
| Set_running (value : bool)
| Set_tracking_enabled (value : bool).

(** Where the loop is at the end of a trace of events: left because the
    flag was found cleared, left by an exception, or still running. *)
Inductive loop_exit : Type :=
| Flag_cleared
| Exception (e : exn)
| Still_running.

(** Where a call of [run_vision_tracker] is at the end of a trace: it has
    ended by [sys.exit(code)], has returned, has raised, or is still in
    its loop.  [printed] is what the function itself has printed. *)
Inductive ending : Type :=
| SystemExit (code : Z) (printed : list string)
| Returned (w : world) (printed : list string)
| Raised (e : exn) (w : world) (printed : list string)
| Looping (w : world) (printed : list string).

Definition with_shared (bus : SharedState.t) (w : world) : world :=
  {| motors := motors w; store := store w; shared := bus; calls := calls w |}.

Section Run.

Variable cvtColor : ndarray -> ndarray.
Variable detectMultiScale : ndarray -> list box.
Variable rectangle : ndarray -> Z * Z -> Z * Z -> ndarray.

(** What a turn leaves in the frame it has read. *)
Definition annotate (img : ndarray) : ndarray :=
  match detectMultiScale (cvtColor img) with
  | first :: rest =>
      let '(x, y, w_, h_) := max_from area first rest in
      rectangle img (x, y) (x + w_, y + h_)
  | [] => img
  end.

(** [while shared.running: ...] along a trace.  The flag is tested at the
    start of every turn, and once more after the last event of the trace:
    the loop is left when the test finds the flag cleared, and is still
    running when the trace ends with the flag set.  A turn that raises leaves
    the loop; the world is then taken as it was at the start of the turn. *)
Fixpoint while_running (events : list event) (w : world) : world * loop_exit :=
  match events with
  | [] =>
      (w, if SharedState.running (shared w) then Still_running else Flag_cleared)
  | Turn read :: rest =>
      if SharedState.running (shared w) then
        match loop_body cvtColor detectMultiScale rectangle read w with
        | Ok w' => while_running rest w'
        | Raise e => (w, Exception e)
        end
      else (w, Flag_cleared)
  | Set_running value :: rest =>
      while_running rest (with_shared (SharedState.set_running value (shared w)) w)
  | Set_tracking_enabled value :: rest =>
      while_running rest
        (with_shared (SharedState.set_tracking_enabled value (shared w)) w)
  end.

(** The [finally] block: it prints, releases the camera and calls
    [stop_motors()]. *)
Definition finally (w : world) : result world :=
  (m <- MotorControl.stop_motors (motors w) ;;
   Ok {| motors := m; store := store w; shared := shared w;
         calls := (calls w ++ [Call_stop_motors])%list |})%py.

(** [cascade_empty] is [face_cascade.empty()], [cap_opened] is
    [cap.isOpened()].  The [finally] block runs when the loop is left,
    by the test or by an exception, which is raised again after it; an
    exception of the block itself takes its place. *)
Definition run_vision_tracker (cascade_empty cap_opened : bool)
           (events : list event) (w : world) : ending :=
  if cascade_empty then
    SystemExit 1 ["Error: Could not load face cascade classifier"]
  else if negb cap_opened then
    SystemExit 1 ["Error: Could not open camera at index " +:+ pretty CAMERA_INDEX]
  else
    match while_running events w with
    | (w1, Still_running) => Looping w1 ["Camera ready"]
    | (w1, Flag_cleared) =>
        match finally w1 with
        | Ok w2 => Returned w2 ["Camera ready"; "Closing camera..."]
        | Raise e => Raised e w1 ["Camera ready"; "Closing camera..."]
        end
    | (w1, Exception e) =>
        match finally w1 with
        | Ok w2 => Raised e w2 ["Camera ready"; "Closing camera..."]
        | Raise e' => Raised e' w1 ["Camera ready"; "Closing camera..."]
        end
    end.

End Run.

End VisionRun.

(** ** src/voice_commands.py: the rules of [parse_command] as a table *)

Module VoiceRules.
Import PyStr.

(** A string that does not begin with white space. *)
Definition starts_clean (s : string) : Prop :=
  match s with
  | EmptyString => True
  | String c _ => isspace c = false
  end.

(** The eight [if] statements of [parse_command] that return a command. *)
Inductive rule : Type :=
| Greeting | Play | Pause | Stop
| Volume_up | Volume_down | Tracking_on | Tracking_off.

Definition rules : list rule :=
  [Greeting; Play; Pause; Stop; Volume_up; Volume_down; Tracking_on; Tracking_off].

(** The test of a rule, on the lower-cased, trimmed text. *)
Definition applies (r : rule) (text : string) : bool :=
  match r with
  | Greeting => in_list text ["hello"; "hi"; "hey"; "hello debo"]
  | Play => startswith text "play"
  | Pause => in_list text ["pause"; "pause music"; "pause it"]
  | Stop => in_list text ["stop"; "stop music"; "stop it"; "stop playing"]
  | Volume_up =>
      re_match_alt ["volume up"; "louder"; "turn it up"; "increase volume"] text
  | Volume_down =>
      re_match_alt ["volume down"; "quieter"; "turn it down"; "decrease volume"] text
  | Tracking_on =>
      re_match_alt ["tracking on"; "enable tracking"; "start tracking"; "track me"] text
  | Tracking_off =>
      re_match_alt ["tracking off"; "disable tracking"; "stop tracking"; "don't track"]
        text
  end.

(** The phrases a rule looks for, and whether the text must equal one of
    them ([in]) or only begin with it ([startswith], [re.match]). *)
Definition phrases (r : rule) : list string :=
  match r with
  | Greeting => ["hello"; "hi"; "hey"; "hello debo"]
  | Play => ["play"]
  | Pause => ["pause"; "pause music"; "pause it"]
  | Stop => ["stop"; "stop music"; "stop it"; "stop playing"]
  | Volume_up => ["volume up"; "louder"; "turn it up"; "increase volume"]
  | Volume_down => ["volume down"; "quieter"; "turn it down"; "decrease volume"]
  | Tracking_on => ["tracking on"; "enable tracking"; "start tracking"; "track me"]
  | Tracking_off =>
      ["tracking off"; "disable tracking"; "stop tracking"; "don't track"]
  end.

Definition whole_text (r : rule) : bool :=
  match r with
  | Greeting | Pause | Stop => true
  | _ => false
  end.

(** The dictionary a rule returns. *)
Definition emits (r : rule) (text : string) : command :=
  match r with
  | Greeting => {[ "type" := PyS "greeting"; "action" := PyS "hello" ]}
  | Play =>
      let query := strip (slice_from 4 text) in
      {[ "type" := PyS "music"; "action" := PyS "play";
         "query" := if truthy query then PyS query else PyNone ]}
  | Pause => {[ "type" := PyS "music"; "action" := PyS "pause" ]}
  | Stop => {[ "type" := PyS "music"; "action" := PyS "stop" ]}
  | Volume_up => {[ "type" := PyS "volume"; "action" := PyS "up" ]}
  | Volume_down => {[ "type" := PyS "volume"; "action" := PyS "down" ]}
  | Tracking_on => {[ "type" := PyS "tracking"; "action" := PyS "on" ]}
  | Tracking_off => {[ "type" := PyS "tracking"; "action" := PyS "off" ]}
  end.

(** The shape of a command: the type and action pairs the router knows, a
    ['query'] key on play commands only, holding [None] or a string that is
    not empty and has no white space at either end. *)
Definition well_formed (c : command) : bool :=
  match c !! "type", c !! "action" with
  | Some (PyS type), Some (PyS action) =>
      if String.eqb type "music" && String.eqb action "play" then
        match c !! "query" with
        | Some PyNone => true
        | Some (PyS query) => truthy query && String.eqb (strip query) query
        | None => false
        end
      else
        match c !! "query" with
        | Some _ => false
        | None =>
            String.eqb type "greeting" && String.eqb action "hello"
            || String.eqb type "music"
               && (String.eqb action "pause" || String.eqb action "stop")
            || String.eqb type "volume"
               && (String.eqb action "up" || String.eqb action "down")
            || String.eqb type "tracking"
               && (String.eqb action "on" || String.eqb action "off")
        end
  | _, _ => false
  end.

End VoiceRules.

(** ** src/voice_commands.py: the microphone and the audio callback *)

Module VoiceThread.
Import PyStr.

(** An entry of [sd.query_devices()], with the two keys the search reads. *)
Record device : Type := { device_name : string; max_input_channels : Z }.

Definition keywords : list string :=
  ["usb"; "webcam"; "camera"; "c920"; "c270"; "logitech"].

(** The test of the two nested loops on one device. *)
Definition is_usb_microphone (d : device) : bool :=
  (max_input_channels d >? 0)
  && existsb (contains (lower (device_name d))) keywords.

(** [for i, device in enumerate(devices): ...], from index [i] on. *)
Fixpoint first_usb_microphone (i : Z) (devices : list device) : option (Z * device) :=
  match devices with
  | [] => None
  | d :: rest =>
      if is_usb_microphone d then Some (i, d)
      else first_usb_microphone (i + 1) rest
  end.

(** [default_input] is [sd.default.device[0]].  The result is the device
    index, or [None], with what was printed. *)
Definition find_usb_microphone (SOUNDDEVICE_AVAILABLE : bool)
           (devices : list device) (default_input : option Z)
  : option Z * list string :=
  if negb SOUNDDEVICE_AVAILABLE then (None, [])
  else
    match first_usb_microphone 0 devices with
    | Some (i, d) =>
        (Some i,
         ["Found USB microphone: [" +:+ pretty i +:+ "] " +:+ device_name d])
    | None =>
        match default_input with
        | Some i => (Some i, ["Using default input device: [" +:+ pretty i +:+ "]"])
        | None => (None, [])
        end
    end.

Section Callback.

(** [str] of a command dictionary, as the f-string prints it. *)
Variable repr : command -> string.

(** [_audio_callback].  [status] is the text of the status flags when they
    are set; [accepted] is the ['text'] of the recogniser's result (the empty
    string when the key is missing) when [AcceptWaveform] returns true. *)
Definition _audio_callback (status : option string) (accepted : option string)
           (st : SharedState.t * list string) : SharedState.t * list string :=
  let '(bus, out) := st in
  let out := match status with
             | Some flags => (out ++ ["Audio status: " +:+ flags])%list
             | None => out
             end in
  match accepted with
  | Some text =>
      if truthy text then
        let out := (out ++ ["Heard: '" +:+ text +:+ "'"])%list in
        match VoiceCommands.parse_command text with
        | Some command =>
            if bool_decide (command = ∅) then (bus, out)
            else (SharedState.put_command command bus,
                  (out ++ ["Command: " +:+ repr command])%list)
        | None => (bus, out)
        end
      else (bus, out)
  | None => (bus, out)
  end.

(** The callback on a sequence of blocks. *)
Definition hear (blocks : list (option string * option string))
           (st : SharedState.t * list string) : SharedState.t * list string :=
  fold_left (fun st b => _audio_callback b.1 b.2 st) blocks st.

End Callback.

End VoiceThread.

(** ** src/main.py: the command router *)

Module Router.

(** What [process_commands] acts on: the bus, the queue of the music player
    ([None] before the player is started), the greetings it has started to
    speak, and what it has printed. *)
Record t : Type := {
  shared : SharedState.t;
  music_cmd_queue : option (list command);
  greetings : nat;
  stdout : list string
}.

(** [d.get(key)] as a Python value: [None] for a missing key. *)
Definition get (d : command) (key : string) : pyval :=
  match d !! key with
  | Some v => v
  | None => PyNone
  end.

Definition is_str (v : pyval) (s : string) : bool :=
  match v with
  | PyS s' => String.eqb s' s
  | PyNone => false
  end.

(** [music_cmd_queue.put(message)] under [if music_cmd_queue:]. *)
Definition forward (message : command) (s : t) : t :=
  match music_cmd_queue s with
  | Some q =>
      {| shared := shared s; music_cmd_queue := Some (q ++ [message])%list;
         greetings := greetings s; stdout := stdout s |}
  | None => s
  end.

Definition set_tracking (value : bool) (line : string) (s : t) : t :=
  {| shared := SharedState.set_tracking_enabled value (shared s);
     music_cmd_queue := music_cmd_queue s; greetings := greetings s;
     stdout := (stdout s ++ [line])%list |}.

(** The body of [if command:]. *)
Definition dispatch (command : command) (s : t) : t :=
  let cmd_type := get command "type" in
  let action := get command "action" in
  if is_str cmd_type "greeting" then
    {| shared := shared s; music_cmd_queue := music_cmd_queue s;
       greetings := S (greetings s); stdout := stdout s |}
  else if is_str cmd_type "tracking" then
    if is_str action "off" then set_tracking false ">>> Tracking disabled" s
    else if is_str action "on" then set_tracking true ">>> Tracking enabled" s
    else s
  else if is_str cmd_type "music" then
    forward {[ "action" := action; "query" := get command "query" ]} s
  else if is_str cmd_type "volume" then
    if is_str action "up" then forward {[ "action" := PyS "volume_up" ]} s
    else if is_str action "down" then forward {[ "action" := PyS "volume_down" ]} s
    else s
  else s.

Definition with_shared (bus : SharedState.t) (s : t) : t :=
  {| shared := bus; music_cmd_queue := music_cmd_queue s;
     greetings := greetings s; stdout := stdout s |}.

(** One turn of [while shared.running:]: a [get_command(timeout=0.1)], and
    the dispatch of what it returns when that is a dictionary with a key. *)
Definition turn (s : t) : t :=
  match SharedState.get_command (Some (1 # 10)%Q) (shared s) with
  | SharedState.Returns (Some command, bus) =>
      if bool_decide (command = ∅) then with_shared bus s
      else dispatch command (with_shared bus s)
  | SharedState.Returns (None, bus) => with_shared bus s
  | SharedState.Blocks => s
  end.

(** [n] turns, as long as the running flag is set. *)
Fixpoint process_commands (n : nat) (s : t) : t :=
  match n with
  | O => s
  | S n' =>
      if SharedState.running (shared s) then process_commands n' (turn s) else s
  end.

End Router.

(** ** src/music_player.py: play, pause, stop and the command loop *)

Module Playback.
Import PyStr MusicPlayer.

(** The calls into VLC that have returned, in order. *)
Inductive vlc_call : Type :=
| Instance_media_new (path : string)
| Player_set_media (path : string)
| Player_play
| Player_pause
| Player_stop.

(** A thread together with the calls it has made. *)
Record session : Type := { thread : MusicPlayer.t; vlc : list vlc_call }.

(** Where the [try] block of [play] may raise. *)
Inductive failure_point : Type := In_media_new | In_set_media | In_play.

(** What VLC answers while one command is processed: whether
    [player.get_state()] is [vlc.State.Paused], and the call of the [try]
    block that raises, if one does, with the text of the exception. *)
Record vlc_answers : Type := {
  paused : bool;
  failure : option (failure_point * string)
}.

Definition print (line : string) (s : session) : session :=
  {| thread := with_volume (player (thread s)) (current_volume (thread s))
                 (stdout (thread s) ++ [line])%list (thread s);
     vlc := vlc s |}.

Definition call (c : vlc_call) (s : session) : session :=
  {| thread := thread s; vlc := (vlc s ++ [c])%list |}.

Definition set_current_song (song : option song) (s : session) : session :=
  {| thread :=
       {| command_queue := command_queue (thread s);
          _running := _running (thread s);
          player := player (thread s);
          current_volume := current_volume (thread s);
          music_files := music_files (thread s);
          current_song := song;
          stdout := stdout (thread s) |};
     vlc := vlc s |}.

Definition on_thread (f : MusicPlayer.t -> MusicPlayer.t) (s : session) : session :=
  {| thread := f (thread s); vlc := vlc s |}.

(** Truthiness of [query]: [None] and the empty string are false. *)
Definition has_query (query : option string) : bool :=
  match query with
  | Some q => truthy q
  | None => false
  end.

(** [str(x)] in an f-string, for a string or [None]. *)
Definition str_of (v : pyval) : string :=
  match v with
  | PyS s => s
  | PyNone => "None"
  end.

(** [str(e)] for the exceptions of the model. *)
Definition exn_message (e : exn) : string :=
  match e with
  | ZeroDivisionError => "division by zero"
  | OverflowError => "integer division result too large for a float"
  | AttributeError => "'NoneType' object has no attribute 'throttle'"
  | DanglingReference => "dangling reference"
  end.

Section Player.

Variable ratio : string -> string -> Q.
Variable VLC_AVAILABLE : bool.

(** The [try] block of [play] on [song]. *)
Definition start (answers : vlc_answers) (song : song) (s : session) : session :=
  match failure answers with
  | None =>
      print ("[Music] Playing: " +:+ name song)
        (set_current_song (Some song)
           (call Player_play
              (call (Player_set_media (path song))
                 (call (Instance_media_new (path song)) s))))
  | Some (In_media_new, e) => print ("[Music] Playback error: " +:+ e) s
  | Some (In_set_media, e) =>
      print ("[Music] Playback error: " +:+ e)
        (call (Instance_media_new (path song)) s)
  | Some (In_play, e) =>
      print ("[Music] Playback error: " +:+ e)
        (call (Player_set_media (path song))
           (call (Instance_media_new (path song)) s))
  end.

Definition play (answers : vlc_answers) (query : option string) (s : session)
  : result session :=
  if negb VLC_AVAILABLE || negb (MotorControl.is_not_None (player (thread s))) then
    Ok (print "[Music] Player not available" s)
  else
    match (if negb (has_query query) then current_song (thread s) else None) with
    | Some current =>
        if paused answers then
          Ok (print ("[Music] Resumed: " +:+ name current) (call Player_play s))
        else
          match music_files (thread s) with
          | first :: _ => Ok (start answers first s)
          | [] => Ok (print "[Music] No songs available" s)
          end
    | None =>
        if has_query query then
          (found <- find_best_match ratio query (music_files (thread s)) ;;
           match found with
           | Some song => Ok (start answers song s)
           | None =>
               Ok (print ("[Music] No match found for: "
                            +:+ match query with Some q => q | None => "None" end)
                     s)
           end)%py
        else
          match music_files (thread s) with
          | first :: _ => Ok (start answers first s)
          | [] => Ok (print "[Music] No songs available" s)
          end
    end.

Definition pause (s : session) : session :=
  if MotorControl.is_not_None (player (thread s))
  then print "[Music] Paused" (call Player_pause s)
  else s.

Definition stop (s : session) : session :=
  if MotorControl.is_not_None (player (thread s))
  then print "[Music] Stopped" (set_current_song None (call Player_stop s))
  else s.

(** [command.get('query')] as the argument of [play]. *)
Definition query_of (command : command) : option string :=
  match Router.get command "query" with
  | PyS q => Some q
  | PyNone => None
  end.

Definition _process_command (answers : vlc_answers) (command : command)
           (s : session) : result session :=
  let action := Router.get command "action" in
  if Router.is_str action "play" then play answers (query_of command) s
  else if Router.is_str action "pause" then Ok (pause s)
  else if Router.is_str action "stop" then Ok (stop s)
  else if Router.is_str action "volume_up" then Ok (on_thread (volume_up 10) s)
  else if Router.is_str action "volume_down" then Ok (on_thread (volume_down 10) s)
  else Ok (print ("[Music] Unknown action: " +:+ str_of action) s).

(** The body of the [while self._running:] loop of [run] on the commands
    taken from the queue, each with the answers of VLC while it is
    processed: an exception of [_process_command] is printed and the loop
    goes on. *)
Fixpoint serve (inputs : list (vlc_answers * command)) (s : session) : session :=
  match inputs with
  | [] => s
  | (answers, command) :: rest =>
      match _process_command answers command s with
      | Ok s' => serve rest s'
      | Raise e => serve rest (print ("[Music] Error: " +:+ exn_message e) s)
      end
  end.

End Player.

(** What every command leaves alone: the volume, the player, the library,
    the queue and the running flag; the calls and the output only grow; the
    current song stays or becomes a song of the library or [None]. *)
Definition extends (s s' : session) : Prop :=
  current_volume (thread s') = current_volume (thread s)
  /\ player (thread s') = player (thread s)
  /\ music_files (thread s') = music_files (thread s)
  /\ command_queue (thread s') = command_queue (thread s)
  /\ _running (thread s') = _running (thread s)
  /\ (exists calls, vlc s' = (vlc s ++ calls)%list)
  /\ (exists lines, stdout (thread s') = (stdout (thread s) ++ lines)%list)
  /\ (current_song (thread s') = current_song (thread s)
      \/ current_song (thread s') = None
      \/ exists song, In song (music_files (thread s))
                      /\ current_song (thread s') = Some song).

(** The current song is a song of the library, when there is one. *)
Definition song_in_library (s : session) : Prop :=
  match current_song (thread s) with
  | Some song => In song (music_files (thread s))
  | None => True
  end.

(** The actions [_process_command] knows. *)
Definition known_action (command : command) : bool :=
  existsb (Router.is_str (Router.get command "action"))
    ["play"; "pause"; "stop"; "volume_up"; "volume_down"].

End Playback.

(** ** src/music_player.py: the index of the music folder *)

Module OsPath.
Import PyStr.

(** [s.rfind(c)] for one character: the last index of [c], or -1. *)
Fixpoint rfind (c : ascii) (s : string) : Z :=
  match s with
  | EmptyString => -1
  | String a s' =>
      let r := rfind c s' in
      if r >=? 0 then r + 1 else if Ascii.eqb a c then 0 else -1
  end.

(** [s[:n]] and [s[i:j]] for indices that are not negative. *)
Fixpoint take (n : nat) (s : string) : string :=
  match n, s with
  | O, _ => EmptyString
  | S _, EmptyString => EmptyString
  | S n', String a s' => String a (take n' s')
  end.

Definition slice (i j : Z) (s : string) : string :=
  take (Z.to_nat (j - i)) (slice_from (Z.to_nat i) s).

(** [c in s] for one character. *)
Fixpoint has_char (c : ascii) (s : string) : bool :=
  match s with
  | EmptyString => false
  | String a s' => Ascii.eqb a c || has_char c s'
  end.

(** Whether some character differs from the dot. *)
Fixpoint has_non_dot (s : string) : bool :=
  match s with
  | EmptyString => false
  | String a s' => negb (Ascii.eqb a ".") || has_non_dot s'
  end.

(** [s.endswith(suffix)] *)
Definition endswith (s suffix : string) : bool :=
  (String.length suffix <=? String.length s)%nat
  && String.eqb (slice_from (String.length s - String.length suffix) s) suffix.

(** [os.path.splitext] of posixpath: the extension starts at the last dot,
    if that dot comes after the last slash and after a character of the
    file name that is not a dot. *)
Definition splitext (p : string) : string * string :=
  let sepIndex := rfind "/" p in
  let dotIndex := rfind "." p in
  if dotIndex >? sepIndex then
    if has_non_dot (slice (sepIndex + 1) dotIndex p)
    then (take (Z.to_nat dotIndex) p, slice_from (Z.to_nat dotIndex) p)
    else (p, EmptyString)
  else (p, EmptyString).

(** [os.path.join(a, b)] of posixpath. *)
Definition join (a b : string) : string :=
  if startswith b "/" then b
  else if negb (truthy a) || endswith a "/" then a +:+ b
  else a +:+ "/" +:+ b.

End OsPath.

Module MusicIndex.
Import PyStr OsPath MusicPlayer.

Definition AUDIO_EXTENSIONS : list string :=
  [".mp3"; ".wav"; ".m4a"; ".ogg"; ".flac"; ".aac"].

Definition MUSIC_FOLDER : string := "./music".

(** [file.lower().endswith(AUDIO_EXTENSIONS)] *)
Definition is_audio (file : string) : bool :=
  existsb (endswith (lower file)) AUDIO_EXTENSIONS.

(** The inner loop, on the files of one directory. *)
Fixpoint index_files (root : string) (files : list string) : list song :=
  match files with
  | [] => []
  | file :: rest =>
      if is_audio file then
        {| name := (splitext file).1; filename := file; path := join root file |}
        :: index_files root rest
      else index_files root rest
  end.

(** [index_music_folder]: [folder_exists] is [os.path.exists(folder)],
    [walk] what [os.walk(folder)] yields, as the root and the files of each
    directory.  The result is the list of songs and what was printed. *)
Definition index_music_folder (folder : string) (folder_exists : bool)
           (walk : list (string * list string)) : list song * list string :=
  if negb folder_exists then
    ([], ["Music folder not found: " +:+ folder;
          "Create it with: mkdir -p " +:+ folder])
  else (flat_map (fun d => index_files d.1 d.2) walk, []).

End MusicIndex.

(** ** Sample data

    Small inputs on which the statements below are instantiated. *)

Module Samples.

(** A 640 x 480 frame with no pixel data, and one with some. *)
Definition blank : ndarray := {| shape := (480, 640); data := [] |}.
Definition scene : ndarray := {| shape := (480, 640); data := [12; 200; 31] |}.

(** Four boxes; the second, the third and the fourth have the largest
    area, 400. *)
Definition four_faces : list VisionTracker.box :=
  [(0, 0, 10, 10); (100, 100, 20, 20); (5, 5, 40, 10); (300, 200, 20, 20)].

(** A detector that sees [four_faces] in every frame that has data. *)
Definition detector (gray : ndarray) : list VisionTracker.box :=
  match data gray with
  | [] => []
  | _ => four_faces
  end.

Definition gray_of (img : ndarray) : ndarray := img.

(** A drawing routine that records the two corners in the data. *)
Definition draw (img : ndarray) (pt1 pt2 : Z * Z) : ndarray :=
  {| shape := shape img;
     data := pt1.1 :: pt1.2 :: pt2.1 :: pt2.2 :: data img |}.

Definition at_rest : MotorControl.DCMotor := {| MotorControl.throttle := 0 |}.

(** The loop's world at start, with the hardware present. *)
Definition world0 : VisionTracker.world :=
  {| VisionTracker.motors := MotorControl.module_init (inr (at_rest, at_rest));
     VisionTracker.store := ∅;
     VisionTracker.shared := SharedState.new;
     VisionTracker.calls := [] |}.

(** The same after the command "tracking off". *)
Definition world_tracking_off : VisionTracker.world :=
  {| VisionTracker.motors := MotorControl.module_init (inr (at_rest, at_rest));
     VisionTracker.store := ∅;
     VisionTracker.shared :=
       SharedState.set_tracking_enabled false SharedState.new;
     VisionTracker.calls := [] |}.

Definition blue_train : MusicPlayer.song :=
  {| MusicPlayer.name := "Blue Train";
     MusicPlayer.filename := "Blue Train.mp3";
     MusicPlayer.path := "./music/Blue Train.mp3" |}.

Definition jazz : MusicPlayer.song :=
  {| MusicPlayer.name := "Jazz";
     MusicPlayer.filename := "Jazz.flac";
     MusicPlayer.path := "./music/Jazz.flac" |}.

(** The ratios of difflib on the pairs used below: "jazz" and
    "blue train" share the one letter [a] of their 14, which gives the
    float of [2.0 * 1 / 14]; the other pairs share nothing. *)
Definition ratios (a b : string) : Q :=
  if String.eqb a "jazz" && String.eqb b "blue train"
  then Binary64.round64 (2 * 1 # 14) else 0.

End Samples.

(** Inputs for the statements on the router, the player and the index. *)

Module MoreSamples.

Definition hello : command := {[ "type" := PyS "greeting"; "action" := PyS "hello" ]}.
Definition louder : command := {[ "type" := PyS "volume"; "action" := PyS "up" ]}.
Definition look_away : command := {[ "type" := PyS "tracking"; "action" := PyS "off" ]}.
Definition quiet_please : command := {[ "type" := PyS "music"; "action" := PyS "pause" ]}.

(** A heap with two frames. *)
Definition two_frames : heap :=
  {[ 1%positive := Samples.scene; 2%positive := Samples.blank ]}.

(** A router with a music queue, before any command. *)
Definition router0 : Router.t :=
  {| Router.shared := SharedState.new; Router.music_cmd_queue := Some [];
     Router.greetings := 0; Router.stdout := [] |}.

Definition library : list MusicPlayer.song := [Samples.blue_train; Samples.jazz].

Definition vlc_player : MusicPlayer.MediaPlayer := {| MusicPlayer.audio_volume := 70 |}.

(** A player thread with a library of two songs, the second one current. *)
Definition playing : Playback.session :=
  {| Playback.thread :=
       {| MusicPlayer.command_queue := []; MusicPlayer._running := true;
          MusicPlayer.player := Some vlc_player;
          MusicPlayer.current_volume := 70;
          MusicPlayer.music_files := library;
          MusicPlayer.current_song := Some Samples.jazz;
          MusicPlayer.stdout := [] |};
     Playback.vlc := [] |}.

(** Two songs that tie on the query "mellow" in exact arithmetic: the
    substring score 6/18 + 1/2 of the first and the ratio 2 * 5 / 12 of the
    second are both 5/6. *)
Definition mellow_yellow_song : MusicPlayer.song :=
  {| MusicPlayer.name := "Mellow Yellow Song";
     MusicPlayer.filename := "Mellow Yellow Song.mp3";
     MusicPlayer.path := "./music/Mellow Yellow Song.mp3" |}.

Definition mellon : MusicPlayer.song :=
  {| MusicPlayer.name := "Mellon";
     MusicPlayer.filename := "Mellon.mp3";
     MusicPlayer.path := "./music/Mellon.mp3" |}.

Definition mellow_ratios (a b : string) : Q :=
  if String.eqb a "mellow" && String.eqb b "mellon"
  then Binary64.round64 (2 * 5 # 12) else 0.

(** VLC plays, and nothing fails. *)
Definition no_trouble : Playback.vlc_answers :=
  {| Playback.paused := false; Playback.failure := None |}.

(** Commands for the player: three the router sends and one it never does. *)
Definition volume_up_cmd : command := {[ "action" := PyS "volume_up" ]}.
Definition play_jazz_cmd : command :=
  {[ "action" := PyS "play"; "query" := PyS "jazz" ]}.
Definition stop_cmd : command := {[ "action" := PyS "stop"; "query" := PyNone ]}.
Definition shuffle_cmd : command := {[ "action" := PyS "shuffle" ]}.

End MoreSamples.

(** * Properties *)

(** ** The model on sample inputs *)

Section Evaluations.

Example control_motors_just_outside_dead_zone :
  MotorControl.control_motors 51 (-51)
    (MotorControl.module_init (inr (Samples.at_rest, Samples.at_rest)))
  = Ok {| MotorControl.MOTOR_AVAILABLE := true;
          MotorControl.motor1 := Some {| MotorControl.throttle := - (1) |};
          MotorControl.motor2 := Some {| MotorControl.throttle := - (1) |};
          MotorControl.stdout := ["Motors initialized on M1 and M2"] |}.
Proof. reflexivity. Qed.

Example control_motors_on_dead_zone_edge :
  MotorControl.control_motors 50 (-50)
    (MotorControl.module_init (inr (Samples.at_rest, Samples.at_rest)))
  = Ok {| MotorControl.MOTOR_AVAILABLE := true;
          MotorControl.motor1 := Some {| MotorControl.throttle := 0 |};
          MotorControl.motor2 := Some {| MotorControl.throttle := 0 |};
          MotorControl.stdout := ["Motors initialized on M1 and M2"] |}.
Proof. reflexivity. Qed.

(** Of the three boxes of area 400 the loop follows the first, whose centre
    is 210 pixels left of and 130 pixels above the centre of the frame. *)
Example loop_body_on_tied_faces :
  match VisionTracker.loop_body Samples.gray_of Samples.detector Samples.draw
          (Some Samples.scene) Samples.world0 with
  | Ok w' => Some (VisionTracker.calls w')
  | Raise _ => None
  end
  = Some [VisionTracker.Call_control_motors (-210) (-130)].
Proof. vm_compute. reflexivity. Qed.

(** The key is a 32-bit product: [65536 * 65536] wraps to 0, and the
    small box is taken. *)
Example max_from_on_wrapped_key :
  VisionTracker.area (0, 0, 65536, 65536) = 0
  /\ VisionTracker.max_from VisionTracker.area (0, 0, 65536, 65536)
       [(10, 10, 20, 20)]
     = (10, 10, 20, 20).
Proof. split; reflexivity. Qed.

(** With the flag set the tracker is still in its loop after two turns; it
    returns when the flag is cleared, after a last [stop_motors()], and
    makes no turn after that. *)
Example run_vision_tracker_on_traces :
  match VisionRun.run_vision_tracker Samples.gray_of Samples.detector
          Samples.draw false true
          [VisionRun.Turn (Some Samples.scene); VisionRun.Turn None]
          Samples.world0 with
  | VisionRun.Looping w' _ => Some (VisionTracker.calls w')
  | _ => None
  end
  = Some [VisionTracker.Call_control_motors (-210) (-130)]
  /\ match VisionRun.run_vision_tracker Samples.gray_of Samples.detector
            Samples.draw false true
            [VisionRun.Turn (Some Samples.scene); VisionRun.Set_running false;
             VisionRun.Turn (Some Samples.scene)]
            Samples.world0 with
     | VisionRun.Returned w' _ => Some (VisionTracker.calls w')
     | _ => None
     end
     = Some [VisionTracker.Call_control_motors (-210) (-130);
             VisionTracker.Call_stop_motors].
Proof. split; vm_compute; reflexivity. Qed.

Example find_best_match_exact_name :
  MusicPlayer.find_best_match Samples.ratios (Some "JAZZ")
    [Samples.blue_train; Samples.jazz]
  = Ok (Some Samples.jazz).
Proof. vm_compute. reflexivity. Qed.

(** "a" occurs in both names; the shorter name scores 0.75, the longer
    the float of [0.1 + 0.5], which is just below 3/5. *)
Example find_best_match_one_letter :
  MusicPlayer.score Samples.ratios "a" "blue train"
  = Ok (5404319552844595 # 9007199254740992)%Q
  /\ MusicPlayer.score Samples.ratios "a" "jazz"
     = Ok (6755399441055744 # 9007199254740992)%Q
  /\ MusicPlayer.find_best_match Samples.ratios (Some "a")
       [Samples.blue_train; Samples.jazz]
     = Ok (Some Samples.jazz).
Proof. repeat split; vm_compute; reflexivity. Qed.

(** The two roundings of [6 / 18 + 0.5] leave it one digit below the float
    of [2.0 * 5 / 12]: the second song wins, although both scores are 5/6
    before rounding. *)
Example find_best_match_rounded_scores :
  MusicPlayer.score MoreSamples.mellow_ratios "mellow" "mellow yellow song"
  = Ok (7505999378950826 # 9007199254740992)%Q
  /\ MusicPlayer.score MoreSamples.mellow_ratios "mellow" "mellon"
     = Ok (7505999378950827 # 9007199254740992)%Q
  /\ MusicPlayer.find_best_match MoreSamples.mellow_ratios (Some "mellow")
       [MoreSamples.mellow_yellow_song; MoreSamples.mellon]
     = Ok (Some MoreSamples.mellon).
Proof. repeat split; vm_compute; reflexivity. Qed.

Example find_best_match_no_query :
  MusicPlayer.find_best_match Samples.ratios None
    [Samples.blue_train; Samples.jazz]
  = Ok (Some Samples.blue_train).
Proof. reflexivity. Qed.

Example parse_command_other_phrases :
  VoiceCommands.parse_command "hello world" = None
  /\ VoiceCommands.parse_command "Turn it up please"
     = Some {[ "type" := PyS "volume"; "action" := PyS "up" ]}
  /\ VoiceCommands.parse_command "stop tracking"
     = Some {[ "type" := PyS "tracking"; "action" := PyS "off" ]}
  /\ VoiceCommands.parse_command "stop"
     = Some {[ "type" := PyS "music"; "action" := PyS "stop" ]}.
Proof. repeat split; vm_compute; reflexivity. Qed.

(** A negative timeout returns [None] and leaves the queue as it is. *)
Example get_command_negative_timeout :
  SharedState.get_command (Some (- (1))%Q)
    (SharedState.put_command ∅ SharedState.new)
  = SharedState.Returns (None, SharedState.put_command ∅ SharedState.new).
Proof. reflexivity. Qed.

Example get_command_empty_queue :
  SharedState.get_command (Some (1 # 10)%Q) SharedState.new
  = SharedState.Returns (None, SharedState.new)
  /\ SharedState.get_command None SharedState.new = SharedState.Blocks.
Proof. split; reflexivity. Qed.

End Evaluations.

(** ** The actuator controller *)

Section Actuator.
Import MotorControl.

Lemma set_throttle_Some (m : DCMotor) (v : Q) :
  set_throttle (Some m) v = Ok (Some {| throttle := v |}).
Proof. reflexivity. Qed.

(** Neither function raises, whatever the globals hold: each attribute
    write sits behind its [is not None] test. *)
Lemma control_motors_returns (dx dy : Z) (s : state) :
  exists s', control_motors dx dy s = Ok s'.
Proof.
  unfold control_motors.
  destruct (MOTOR_AVAILABLE s); simpl; [| eauto].
  destruct (motor1 s), (motor2 s); simpl;
    repeat match goal with |- context [if ?b then _ else _] => destruct b end;
    simpl; eauto.
Qed.

Lemma stop_motors_returns (s : state) : exists s', stop_motors s = Ok s'.
Proof.
  unfold stop_motors.
  destruct (MOTOR_AVAILABLE s); [| eauto].
  destruct (motor1 s), (motor2 s); simpl; eauto.
Qed.

Lemma stop_motors_available (s : state) :
  MOTOR_AVAILABLE s = true ->
  stop_motors s =
    Ok {| MOTOR_AVAILABLE := true; motor1 := stopped (motor1 s);
          motor2 := stopped (motor2 s);
          stdout := (stdout s ++ ["Motors stopped"])%list |}.
Proof.
  intros Hav. unfold stop_motors. rewrite Hav.
  destruct (motor1 s), (motor2 s); reflexivity.
Qed.

Lemma stop_motors_unavailable (s : state) :
  MOTOR_AVAILABLE s = false -> stop_motors s = Ok s.
Proof. intros Hav. unfold stop_motors. now rewrite Hav. Qed.

Lemma stopped_stopped (m : option DCMotor) : stopped (stopped m) = stopped m.
Proof. now destruct m. Qed.

Lemma axis_stopped (m : option DCMotor) :
  axis (stopped m) = match m with Some _ => Some stop | None => None end.
Proof. now destruct m. Qed.

(** Any positive number of calls of [stop_motors] leaves the motors as the
    first call left them. *)
Lemma stop_motors_times_S (n : nat) (s : state) :
  exists sn, stop_motors_times (S n) s = Ok sn
             /\ MOTOR_AVAILABLE sn = MOTOR_AVAILABLE s
             /\ (MOTOR_AVAILABLE s = true ->
                 motor1 sn = stopped (motor1 s) /\ motor2 sn = stopped (motor2 s))
             /\ (MOTOR_AVAILABLE s = false -> sn = s).
Proof.
  revert s. induction n as [| n IH]; intros s.
  - simpl. destruct (MOTOR_AVAILABLE s) eqn:Hav.
    + rewrite (stop_motors_available s Hav). simpl.
      eexists; repeat split; simpl; congruence.
    + rewrite (stop_motors_unavailable s Hav). simpl.
      exists s. repeat split; congruence.
  - change (stop_motors_times (S (S n)) s)
      with (bind (stop_motors s) (stop_motors_times (S n))).
    destruct (MOTOR_AVAILABLE s) eqn:Hav.
    + rewrite (stop_motors_available s Hav). simpl bind.
      destruct (IH {| MOTOR_AVAILABLE := true; motor1 := stopped (motor1 s);
                      motor2 := stopped (motor2 s);
                      stdout := (stdout s ++ ["Motors stopped"])%list |})
        as (sn & Hsn & Hav' & Hm & _).
      exists sn. split; [exact Hsn |]. simpl in *.
      split; [exact Hav' |]. split; [| congruence].
      intros _. destruct (Hm eq_refl) as [H1 H2].
      now rewrite H1, H2, !stopped_stopped.
    + rewrite (stop_motors_unavailable s Hav). simpl bind.
      destruct (IH s) as (sn & Hsn & Hav' & _ & Hsame).
      exists sn. split; [exact Hsn |]. split; [congruence |].
      split; [congruence | intros _; exact (Hsame Hav)].
Qed.

(** C1. With the hardware available, [control_motors] sets each axis from its
    own offset alone, by a trichotomy around the dead zone of 50: the
    horizontal axis is at reverse (throttle [-MOTOR_SPEED]) when
    [dx > 50], at forward (throttle [MOTOR_SPEED]) when [dx < -50] and at
    stop (throttle 0) otherwise; the vertical axis, with the opposite sign
    convention, is at forward when [dy > 50], at reverse when [dy < -50]
    and at stop otherwise.  Both axes stop when [|dx| <= 50] and
    [|dy| <= 50], and the boundary is exclusive: [dx = 50] gives stop. *)
Theorem control_motors_dead_zone_trichotomy
        (s : state) (m1 m2 : DCMotor) (dx dy : Z) :
  MOTOR_AVAILABLE s = true ->
  motor1 s = Some m1 ->
  motor2 s = Some m2 ->
  exists s',
    control_motors dx dy s = Ok s'
    /\ (dx > 50 -> motor1 s' = Some {| throttle := - MOTOR_SPEED |}
                   /\ horizontal s' = Some reverse)
    /\ (dx < -50 -> motor1 s' = Some {| throttle := MOTOR_SPEED |}
                    /\ horizontal s' = Some forward)
    /\ (-50 <= dx <= 50 -> motor1 s' = Some {| throttle := 0 |}
                           /\ horizontal s' = Some stop)
    /\ (dy > 50 -> motor2 s' = Some {| throttle := MOTOR_SPEED |}
                   /\ vertical s' = Some forward)
    /\ (dy < -50 -> motor2 s' = Some {| throttle := - MOTOR_SPEED |}
                    /\ vertical s' = Some reverse)
    /\ (-50 <= dy <= 50 -> motor2 s' = Some {| throttle := 0 |}
                           /\ vertical s' = Some stop)
    /\ (Z.abs dx <= 50 /\ Z.abs dy <= 50 ->
        horizontal s' = Some stop /\ vertical s' = Some stop)
    /\ (dx = 50 -> horizontal s' = Some stop)
    /\ (forall dy', exists s'',
           control_motors dx dy' s = Ok s'' /\ motor1 s'' = motor1 s')
    /\ (forall dx', exists s'',
           control_motors dx' dy s = Ok s'' /\ motor2 s'' = motor2 s').
Proof.
  intros Hav H1 H2.
  assert (Hrun : forall x y,
             control_motors x y s =
               Ok {| MOTOR_AVAILABLE := true;
                     motor1 := Some {| throttle :=
                                 if x >? DEAD_ZONE then - MOTOR_SPEED
                                 else if x <? - DEAD_ZONE then MOTOR_SPEED
                                 else 0 |};
                     motor2 := Some {| throttle :=
                                 if y >? DEAD_ZONE then MOTOR_SPEED
                                 else if y <? - DEAD_ZONE then - MOTOR_SPEED
                                 else 0 |};
                     stdout := stdout s |}).
  { intros x y. unfold control_motors. rewrite Hav, H1, H2. simpl.
    destruct (x >? DEAD_ZONE), (x <? - DEAD_ZONE),
      (y >? DEAD_ZONE), (y <? - DEAD_ZONE); reflexivity. }
  eexists. split; [apply Hrun |].
  unfold horizontal, vertical, DEAD_ZONE. simpl.
  repeat split; intros;
    try (eexists; split; [apply Hrun | reflexivity]);
    repeat match goal with
      | |- context [?a >? ?b] => destruct (Z.gtb_spec a b); try lia
      | |- context [?a <? ?b] => destruct (Z.ltb_spec a b); try lia
      end; reflexivity.
Qed.

(** C8. With the availability flag false, [control_motors] (at any offset)
    and [stop_motors] return without raising and leave the globals and the
    output as they were.  In every state [stop_motors] returns, and any
    further calls leave the motors as the first call left them: with the
    hardware available, every motor present is at throttle 0, so both axes
    are at stop, also when they were at stop before. *)
Theorem unavailable_is_noop_and_stop_idempotent (s : state) :
  (MOTOR_AVAILABLE s = false ->
   (forall dx dy, control_motors dx dy s = Ok s) /\ stop_motors s = Ok s)
  /\ (exists s1,
         stop_motors s = Ok s1
         /\ (MOTOR_AVAILABLE s = true ->
             motor1 s1 = stopped (motor1 s) /\ motor2 s1 = stopped (motor2 s))
         /\ (forall m1 m2, MOTOR_AVAILABLE s = true ->
                           motor1 s = Some m1 -> motor2 s = Some m2 ->
                           horizontal s1 = Some stop /\ vertical s1 = Some stop)
         /\ (forall n, exists sn,
                stop_motors_times (S n) s1 = Ok sn
                /\ MOTOR_AVAILABLE sn = MOTOR_AVAILABLE s1
                /\ motor1 sn = motor1 s1 /\ motor2 sn = motor2 s1
                /\ horizontal sn = horizontal s1
                /\ vertical sn = vertical s1)).
Proof.
  split.
  - intros Hav. split; [| now apply stop_motors_unavailable].
    intros dx dy. unfold control_motors. now rewrite Hav.
  - destruct (stop_motors_times_S 0 s) as (s1 & Hs1 & Hav1 & Hm & Hsame).
    simpl in Hs1. destruct (stop_motors s) as [s1' | e] eqn:Hstop;
      simpl in Hs1; [| discriminate].
    injection Hs1 as ->.
    exists s1. split; [reflexivity |].
    split; [exact Hm |]. split.
    + intros m1 m2 Hav E1 E2. destruct (Hm Hav) as [Ha Hb].
      unfold horizontal, vertical. rewrite Ha, Hb, E1, E2. now split.
    + intros n.
      destruct (stop_motors_times_S n s1) as (sn & Hsn & Havn & Hmn & Hsn').
      exists sn. split; [exact Hsn |]. split; [exact Havn |].
      assert (motor1 sn = motor1 s1 /\ motor2 sn = motor2 s1) as [Ea Eb].
      { destruct (MOTOR_AVAILABLE s) eqn:Hav.
        - destruct (Hm eq_refl) as [Ha Hb].
          destruct (Hmn ltac:(congruence)) as [Hc Hd].
          rewrite Hc, Hd, Ha, Hb, !stopped_stopped. now split.
        - rewrite (Hsn' ltac:(congruence)). now split. }
      unfold horizontal, vertical. rewrite Ea, Eb. repeat split.
Qed.

End Actuator.

(** ** The state bus *)

Section StateBus.
Import SharedState.

Lemma ndarray_copy_spec (a : loc) (h : heap) (d : ndarray) :
  h !! a = Some d ->
  exists a', ndarray_copy a h = Ok (a', <[a' := d]> h)
             /\ (a' ∉ dom h) /\ a' <> a.
Proof.
  intros Ha. unfold ndarray_copy. rewrite Ha.
  exists (fresh (dom h)). split; [reflexivity |].
  pose proof (is_fresh (dom h)) as Hfresh.
  split; [exact Hfresh |].
  intros E. rewrite E in Hfresh. apply Hfresh. apply elem_of_dom. eauto.
Qed.

Lemma get_frame_spec (h : heap) (self : t) (a : loc) (d : ndarray) :
  _frame self = Some a ->
  h !! a = Some d ->
  exists r, get_frame h self = Ok (Some r, <[r := d]> h)
            /\ (r ∉ dom h) /\ r <> a.
Proof.
  intros Hf Ha. unfold get_frame. rewrite Hf.
  destruct (ndarray_copy_spec a h d Ha) as (r & -> & Hr & Hne).
  exists r. simpl. auto.
Qed.

Lemma get_command_head (timeout : option Q) (self : t) (c : command)
      (q : list command) :
  valid_timeout timeout ->
  _command_queue self = c :: q ->
  get_command timeout self = Returns (Some c, with_queue q self).
Proof.
  intros Hv Hq. unfold get_command. rewrite Hq.
  destruct timeout as [secs |]; [| reflexivity].
  simpl in Hv. destruct (secs ?= 0)%Q eqn:Hc; try reflexivity.
  apply Qlt_alt in Hc. exfalso. revert Hc. now apply Qle_not_lt.
Qed.

Lemma put_commands_queue (cs : list command) (self : t) :
  _command_queue (put_commands cs self) = (_command_queue self ++ cs)%list
  /\ put_commands cs self = with_queue (_command_queue self ++ cs)%list self.
Proof.
  revert self. induction cs as [| c cs IH]; intros self.
  - simpl. rewrite app_nil_r. now destruct self.
  - unfold put_commands in *. simpl fold_left.
    destruct (IH (put_command c self)) as [IH1 IH2].
    rewrite IH1, IH2. unfold put_command. simpl.
    now rewrite <- app_assoc.
Qed.

(** The queue hands out what it holds from the head on: after any list of
    commands was put, as many calls of [get_command] as the queue has
    items return them in the order they went in, and leave it empty. *)
Lemma get_commands_all (timeout : option Q) (q : list command) (self : t) :
  valid_timeout timeout ->
  _command_queue self = q ->
  get_commands timeout (length q) self
  = Returns (map Some q, with_queue [] self).
Proof.
  intros Hv. revert self. induction q as [| c q IH]; intros self Hq.
  - simpl. destruct self; simpl in *; now subst.
  - simpl. rewrite (get_command_head timeout self c q Hv Hq).
    now rewrite (IH (with_queue q self) eq_refl).
Qed.

Lemma put_then_get_commands (timeout : option Q) (cs : list command) (self : t) :
  valid_timeout timeout ->
  get_commands timeout (length (_command_queue self ++ cs)) (put_commands cs self)
  = Returns (map Some (_command_queue self ++ cs)%list, with_queue [] self).
Proof.
  intros Hv. destruct (put_commands_queue cs self) as [Hq Hs].
  rewrite (get_commands_all timeout _ _ Hv Hq). now rewrite Hs.
Qed.

(** C5. On a bus whose queue is empty, after [put_command] of [A], [B] and
    [C] in that order, three calls of [get_command] (each with no timeout
    or a non-negative one) return [A], then [B], then [C], and leave the
    queue empty. *)
Theorem command_queue_is_fifo
        (self : t) (A B C : command) (t1 t2 t3 : option Q) :
  _command_queue self = [] ->
  valid_timeout t1 -> valid_timeout t2 -> valid_timeout t3 ->
  exists s2 s1 s0,
    get_command t1 (put_command C (put_command B (put_command A self)))
    = Returns (Some A, s2)
    /\ get_command t2 s2 = Returns (Some B, s1)
    /\ get_command t3 s1 = Returns (Some C, s0)
    /\ _command_queue s0 = []
    /\ has_command s0 = false.
Proof.
  intros Hq H1 H2 H3.
  set (s3 := put_command C (put_command B (put_command A self))).
  assert (Hq3 : _command_queue s3 = [A; B; C]).
  { unfold s3, put_command. simpl. now rewrite Hq. }
  exists (with_queue [B; C] s3), (with_queue [C] (with_queue [B; C] s3)),
    (with_queue [] (with_queue [C] (with_queue [B; C] s3))).
  split; [now apply get_command_head |].
  split; [now apply get_command_head |].
  split; [now apply get_command_head |].
  split; reflexivity.
Qed.

(** C6. For a frame [F] that holds [d]: after [set_frame(F)], [get_frame()]
    returns a reference [r] to an object that holds [d] too and that is a
    new object, neither [F] nor the bus's own frame; writing anything into
    the object at [r] (or into [F]) leaves what a later [get_frame()]
    reads equal to [d].  On a bus on which no frame was set, [get_frame()]
    returns [None]. *)
Theorem frame_round_trip_is_a_copy
        (h : heap) (self : t) (F : loc) (d : ndarray) :
  h !! F = Some d ->
  exists h1 self1 r h2,
    set_frame (Some F) h self = Ok (h1, self1)
    /\ get_frame h1 self1 = Ok (Some r, h2)
    /\ h2 !! r = Some d
    /\ h2 !! F = Some d
    /\ r <> F
    /\ _frame self1 <> Some r
    /\ (r ∉ dom h1)
    /\ (forall d', exists r' h3,
           get_frame (<[r := d']> h2) self1 = Ok (Some r', h3)
           /\ h3 !! r' = Some d /\ r' <> r)
    /\ (forall d', exists r' h3,
           get_frame (<[F := d']> h2) self1 = Ok (Some r', h3)
           /\ h3 !! r' = Some d)
    /\ (forall h0, get_frame h0 new = Ok (None, h0)).
Proof.
  intros HF.
  destruct (ndarray_copy_spec F h d HF) as (a & Hcopy & Ha & HaF).
  set (h1 := <[a := d]> h).
  set (self1 := with_frame (Some a) self).
  assert (Hh1a : h1 !! a = Some d) by apply lookup_insert_eq.
  destruct (get_frame_spec h1 self1 a d eq_refl Hh1a) as (r & Hget & Hr & Hra).
  assert (HrF : r <> F).
  { intros ->. apply Hr. apply elem_of_dom. exists d.
    unfold h1. now rewrite lookup_insert_ne. }
  exists h1, self1, r, (<[r := d]> h1).
  split. { unfold set_frame. now rewrite Hcopy. }
  split; [exact Hget |].
  split; [apply lookup_insert_eq |].
  split. { rewrite lookup_insert_ne by exact HrF.
           unfold h1. now rewrite lookup_insert_ne. }
  split; [exact HrF |].
  split. { simpl. congruence. }
  split; [exact Hr |].
  split; [| split].
  - intros d'.
    assert (Hl : <[r := d']> (<[r := d]> h1) !! a = Some d).
    { rewrite lookup_insert_ne by exact Hra. now rewrite lookup_insert_ne. }
    destruct (get_frame_spec _ self1 a d eq_refl Hl) as (r' & Hget' & Hr' & _).
    exists r', (<[r' := d]> (<[r := d']> (<[r := d]> h1))).
    split; [exact Hget' |]. split; [apply lookup_insert_eq |].
    intros ->. apply Hr'. apply elem_of_dom. exists d'. apply lookup_insert_eq.
  - intros d'.
    assert (Hl : <[F := d']> (<[r := d]> h1) !! a = Some d).
    { rewrite lookup_insert_ne by (intros E; now apply HaF).
      now rewrite lookup_insert_ne. }
    destruct (get_frame_spec _ self1 a d eq_refl Hl) as (r' & Hget' & _).
    exists r', (<[r' := d]> (<[F := d']> (<[r := d]> h1))).
    split; [exact Hget' |]. apply lookup_insert_eq.
  - reflexivity.
Qed.

End StateBus.

(** ** The vision loop *)

Section Vision.
Import VisionTracker.

Variable cvtColor : ndarray -> ndarray.
Variable detectMultiScale : ndarray -> list box.
Variable rectangle : ndarray -> Z * Z -> Z * Z -> ndarray.

Local Abbreviation loop_body := (loop_body cvtColor detectMultiScale rectangle).

(** [max] with a key returns the first item of the largest key: the items
    before it have a strictly smaller key, the items after it none
    larger. *)
Lemma max_from_first_largest {A : Type} (key : A -> Z) (l : list A) (best : A) :
  exists pre post,
    best :: l = (pre ++ max_from key best l :: post)%list
    /\ Forall (fun f => key f < key (max_from key best l)) pre
    /\ Forall (fun f => key f <= key (max_from key best l)) post.
Proof.
  revert best. induction l as [| x l IH]; intros best.
  - exists [], []. simpl. repeat split; constructor.
  - simpl max_from.
    destruct (Z.gtb_spec (key x) (key best)) as [Hgt | Hle].
    + destruct (IH x) as (pre & post & Heq & Hpre & Hpost).
      remember (max_from key x l) as b eqn:Eb.
      assert (Hx : key x <= key b).
      { destruct pre as [| p pre]; simpl in Heq; injection Heq as Hb Hl.
        - rewrite Hb. lia.
        - inversion Hpre as [| ? ? Hp _]; subst p. lia. }
      exists (best :: pre), post. rewrite Heq. split; [reflexivity |].
      split; [constructor; [lia | exact Hpre] | exact Hpost].
    + destruct (IH best) as (pre & post & Heq & Hpre & Hpost).
      remember (max_from key best l) as b eqn:Eb.
      destruct pre as [| p pre]; simpl in Heq; injection Heq as Hb Hl.
      * exists [], (x :: post). rewrite Hb, Hl. split; [reflexivity |].
        split; [constructor |]. constructor; [| exact Hpost].
        rewrite <- Hb. exact Hle.
      * inversion Hpre as [| ? ? Hp Hpre']; subst p.
        exists (best :: x :: pre), post. rewrite Hl. split; [reflexivity |].
        split; [| exact Hpost].
        constructor; [exact Hp |]. constructor; [lia | exact Hpre'].
Qed.

(** Publishing a frame that is in the heap succeeds. *)
Lemma set_frame_live (h : heap) (self : SharedState.t) (a : loc) (d : ndarray) :
  h !! a = Some d ->
  exists a', SharedState.set_frame (Some a) h self
             = Ok (<[a' := d]> h, SharedState.with_frame (Some a') self)
             /\ (a' ∉ dom h).
Proof.
  intros Ha. destruct (ndarray_copy_spec a h d Ha) as (a' & Hc & Hf & _).
  exists a'. unfold SharedState.set_frame. rewrite Hc. now split.
Qed.

(** A turn in which the detector finds nothing. *)
Lemma loop_body_no_face (img : ndarray) (w : world) :
  detectMultiScale (cvtColor img) = [] ->
  exists m a,
    MotorControl.stop_motors (motors w) = Ok m
    /\ loop_body (Some img) w
       = Ok {| motors := m;
               store := <[a := img]> (<[fresh (dom (store w)) := img]> (store w));
               shared := SharedState.with_frame (Some a) (shared w);
               calls := (calls w ++ [Call_stop_motors])%list |}.
Proof.
  intros Hdet.
  destruct (stop_motors_returns (motors w)) as [m Hm].
  destruct (set_frame_live (<[fresh (dom (store w)) := img]> (store w))
              (shared w) (fresh (dom (store w))) img) as (a & Hset & _).
  { apply lookup_insert_eq. }
  exists m, a. split; [exact Hm |].
  unfold loop_body. rewrite Hdet, Hm. cbn [bind]. now rewrite Hset.
Qed.

(** A turn in which the detector finds at least one face. *)
Lemma loop_body_face (img : ndarray) (w : world) (first : box) (rest : list box)
      (x y bw bh : Z) :
  detectMultiScale (cvtColor img) = first :: rest ->
  max_from area first rest = (x, y, bw, bh) ->
  exists m a,
    (if SharedState.tracking_enabled (shared w)
     then MotorControl.control_motors
            (offset (shape img) (x, y, bw, bh)).1
            (offset (shape img) (x, y, bw, bh)).2 (motors w)
     else MotorControl.stop_motors (motors w)) = Ok m
    /\ loop_body (Some img) w
       = Ok {| motors := m;
               store := <[a := rectangle img (x, y) (x + bw, y + bh)]>
                          (<[fresh (dom (store w))
                             := rectangle img (x, y) (x + bw, y + bh)]>
                             (<[fresh (dom (store w)) := img]> (store w)));
               shared := SharedState.with_frame (Some a) (shared w);
               calls :=
                 (calls w
                    ++ [if SharedState.tracking_enabled (shared w)
                        then Call_control_motors
                               (offset (shape img) (x, y, bw, bh)).1
                               (offset (shape img) (x, y, bw, bh)).2
                        else Call_stop_motors])%list |}.
Proof.
  intros Hdet Hmax.
  set (frame := fresh (dom (store w))).
  set (drawn := rectangle img (x, y) (x + bw, y + bh)).
  destruct (set_frame_live (<[frame := drawn]> (<[frame := img]> (store w)))
              (shared w) frame drawn) as (a & Hset & _).
  { apply lookup_insert_eq. }
  unfold loop_body. rewrite Hdet, Hmax.
  fold frame. fold drawn.
  destruct (offset (shape img) (x, y, bw, bh)) as [dx dy] eqn:Hoff. simpl fst. simpl snd.
  destruct (SharedState.tracking_enabled (shared w)).
  - destruct (control_motors_returns dx dy (motors w)) as [m Hm].
    exists m, a. split; [exact Hm |].
    rewrite Hm. cbn [bind]. now rewrite Hset.
  - destruct (stop_motors_returns (motors w)) as [m Hm].
    exists m, a. split; [exact Hm |].
    rewrite Hm. cbn [bind]. now rewrite Hset.
Qed.

(** C2. In a turn of the loop in which the detector finds no face, the one
    call into motor_control is [stop_motors()], applied to the motors as
    they were, whatever they were.  In a turn in which it finds a face
    while tracking is disabled it is [stop_motors()] as well, and not
    [control_motors]; the detection has run all the same: the frame that is
    published carries the rectangle of the largest face. *)
Theorem no_face_or_tracking_disabled_stops (img : ndarray) (w : world) :
  (detectMultiScale (cvtColor img) = [] ->
   exists w' m,
     loop_body (Some img) w = Ok w'
     /\ MotorControl.stop_motors (motors w) = Ok m
     /\ motors w' = m
     /\ calls w' = (calls w ++ [Call_stop_motors])%list)
  /\ (forall first rest x y bw bh,
         detectMultiScale (cvtColor img) = first :: rest ->
         max_from area first rest = (x, y, bw, bh) ->
         SharedState.tracking_enabled (shared w) = false ->
         exists w' m a,
           loop_body (Some img) w = Ok w'
           /\ MotorControl.stop_motors (motors w) = Ok m
           /\ motors w' = m
           /\ calls w' = (calls w ++ [Call_stop_motors])%list
           /\ SharedState._frame (shared w') = Some a
           /\ store w' !! a = Some (rectangle img (x, y) (x + bw, y + bh))).
Proof.
  split.
  - intros Hdet.
    destruct (loop_body_no_face img w Hdet) as (m & a & Hm & Hrun).
    eexists; exists m. split; [exact Hrun |]. now repeat split.
  - intros first rest x y bw bh Hdet Hmax Hoff.
    destruct (loop_body_face img w first rest x y bw bh Hdet Hmax)
      as (m & a & Hm & Hrun).
    rewrite Hoff in Hm, Hrun.
    eexists; exists m, a. split; [exact Hrun |]. simpl.
    repeat split; try assumption. apply lookup_insert_eq.
Qed.

(** The key of a box in a frame of fewer than [2 ^ 31] pixels is its
    area. *)
Lemma area_inside (frame_shape : Z * Z) (f : box) :
  inside frame_shape f ->
  frame_shape.1 * frame_shape.2 < 2 ^ 31 ->
  area f = f.1.2 * f.2.
Proof.
  destruct frame_shape as [H W]. destruct f as [[[x y] bw] bh].
  simpl. intros (Hx & Hy & Hw & Hh & HW & HH) Hsize.
  unfold int32. assert (0 <= bw * bh <= H * W) by nia.
  rewrite Z.mod_small; lia.
Qed.

(** C9. When the detector returns a non-empty list of boxes the loop takes
    the first box of the largest key [w * h], a product of 32-bit integers:
    every box before it has a strictly smaller key and no box after it a
    larger one.  For boxes that lie in the frame, in a frame of fewer than
    [2 ^ 31] pixels, the key is the area: the loop takes the first box of
    the largest area.  The rectangle is drawn around that box, and the
    offset handed to [control_motors] (when tracking is enabled) is the
    centre of the box, [(x + w / 2, y + h / 2)], minus the centre of the
    frame, [(width / 2, height / 2)], with integer halves. *)
Theorem largest_face_first_wins_and_offset
        (img : ndarray) (w : world) (first : box) (rest : list box) :
  detectMultiScale (cvtColor img) = first :: rest ->
  Forall (inside (shape img)) (first :: rest) ->
  (shape img).1 * (shape img).2 < 2 ^ 31 ->
  exists pre post x y bw bh,
    first :: rest = (pre ++ (x, y, bw, bh) :: post)%list
    /\ Forall (fun f => area f < area (x, y, bw, bh)) pre
    /\ Forall (fun f => area f <= area (x, y, bw, bh)) post
    /\ Forall (fun f => f.1.2 * f.2 < bw * bh) pre
    /\ Forall (fun f => f.1.2 * f.2 <= bw * bh) post
    /\ offset (shape img) (x, y, bw, bh)
       = (x + bw / 2 - (shape img).2 / 2, y + bh / 2 - (shape img).1 / 2)
    /\ (exists w' a,
           loop_body (Some img) w = Ok w'
           /\ SharedState._frame (shared w') = Some a
           /\ store w' !! a = Some (rectangle img (x, y) (x + bw, y + bh))
           /\ (SharedState.tracking_enabled (shared w) = true ->
               calls w'
               = (calls w
                    ++ [Call_control_motors
                          (x + bw / 2 - (shape img).2 / 2)
                          (y + bh / 2 - (shape img).1 / 2)])%list
               /\ MotorControl.control_motors
                    (x + bw / 2 - (shape img).2 / 2)
                    (y + bh / 2 - (shape img).1 / 2) (motors w)
                  = Ok (motors w'))).
Proof.
  intros Hdet Hin Hsize.
  destruct (max_from_first_largest area rest first)
    as (pre & post & Heq & Hpre & Hpost).
  destruct (max_from area first rest) as [[[x y] bw] bh] eqn:Hmax.
  exists pre, post, x, y, bw, bh.
  split; [exact Heq |]. split; [exact Hpre |]. split; [exact Hpost |].
  rewrite Heq in Hin. apply Forall_app in Hin as [Hin_pre Hin_post].
  apply Forall_cons_iff in Hin_post as [Hin_sel Hin_post].
  pose proof (area_inside _ _ Hin_sel Hsize) as Hsel. cbn [fst snd] in Hsel.
  split.
  { rewrite Forall_forall in *. intros f Hf.
    rewrite <- (area_inside _ _ (Hin_pre f Hf) Hsize), <- Hsel.
    exact (Hpre f Hf). }
  split.
  { rewrite Forall_forall in *. intros f Hf.
    rewrite <- (area_inside _ _ (Hin_post f Hf) Hsize), <- Hsel.
    exact (Hpost f Hf). }
  assert (Hoff : offset (shape img) (x, y, bw, bh)
                 = (x + bw / 2 - (shape img).2 / 2,
                    y + bh / 2 - (shape img).1 / 2)).
  { unfold offset. now destruct (shape img). }
  split; [exact Hoff |].
  destruct (loop_body_face img w first rest x y bw bh Hdet Hmax)
    as (m & a & Hm & Hrun).
  eexists; exists a. split; [exact Hrun |]. simpl.
  split; [reflexivity |]. split; [apply lookup_insert_eq |].
  intros Hon. rewrite Hon in *. rewrite Hoff in *. now split.
Qed.

End Vision.

(** ** The command parser *)

Section Parser.
Import PyStr VoiceCommands.

(** C3. [parse_command] on the four inputs of the specification, and in
    general: the result depends on the input only through its lower-cased,
    trimmed form; when that form is empty there is no command; when it
    begins with [play] the command is music/play, and its query is the
    rest of the text, trimmed, or [None] when nothing is left. *)
Theorem parse_command_play_and_examples :
  parse_command "PLAY some jazz"
  = Some {[ "type" := PyS "music"; "action" := PyS "play";
            "query" := PyS "some jazz" ]}
  /\ parse_command "play"
     = Some {[ "type" := PyS "music"; "action" := PyS "play";
               "query" := PyNone ]}
  /\ parse_command "" = None
  /\ parse_command "hello"
     = Some {[ "type" := PyS "greeting"; "action" := PyS "hello" ]}
  /\ (forall text text',
         strip (lower text) = strip (lower text') ->
         parse_command text = parse_command text')
  /\ (forall text, strip (lower text) = "" -> parse_command text = None)
  /\ (forall text rest,
         strip (lower text) = "play" +:+ rest ->
         parse_command text
         = Some {[ "type" := PyS "music"; "action" := PyS "play";
                   "query" := match strip rest with
                              | "" => PyNone
                              | query => PyS query
                              end ]}).
Proof.
  split; [vm_compute; reflexivity |].
  split; [vm_compute; reflexivity |].
  split; [reflexivity |].
  split; [vm_compute; reflexivity |].
  split; [| split].
  - intros text text' H. unfold parse_command. now rewrite H.
  - intros text H. unfold parse_command. now rewrite H.
  - intros text rest H. unfold parse_command. rewrite H.
    change ("play" +:+ rest)
      with (String "p" (String "l" (String "a" (String "y" rest)))).
    cbn. replace (String.prefix "" rest) with true by now destruct rest.
    unfold strip. now destruct (rstrip (lstrip rest)).
Qed.

End Parser.

(** ** The playback engine: volume *)

Section Volume.
Import MusicPlayer.

Lemma process_volume_in_range (a : volume_action) (self : t) :
  0 <= current_volume self <= 100 ->
  0 <= current_volume (process_volume a self) <= 100.
Proof.
  intros Hr. destruct a; unfold process_volume, volume_up, volume_down;
    destruct (player self); simpl; lia.
Qed.

Lemma process_volumes_in_range (ops : list volume_action) (self : t) :
  0 <= current_volume self <= 100 ->
  0 <= current_volume (process_volumes ops self) <= 100.
Proof.
  revert self. induction ops as [| a ops IH]; intros self Hr.
  - exact Hr.
  - apply (IH (process_volume a self)). now apply process_volume_in_range.
Qed.

(** The player is told every volume the thread takes. *)
Lemma process_volumes_player_in_step (ops : list volume_action) (self : t) :
  (forall p, player self = Some p -> audio_volume p = current_volume self) ->
  forall p, player (process_volumes ops self) = Some p ->
            audio_volume p = current_volume (process_volumes ops self).
Proof.
  revert self. induction ops as [| a ops IH]; intros self Hs.
  - exact Hs.
  - apply (IH (process_volume a self)).
    destruct a; unfold process_volume, volume_up, volume_down;
      destruct (player self) eqn:Hp; simpl;
      intros p' Hp'; try (injection Hp' as <-; reflexivity);
      rewrite Hp in Hp'; discriminate.
Qed.

(** C7. A thread starts at volume 70, and [_init_vlc] keeps it.  From a
    state at volume 70, after any finite sequence of [volume_up] and
    [volume_down] with the step 10, the volume is within 0..100.  On a
    thread that has its player, [volume_up] gives [min(100, v + 10)] and
    [volume_down] gives [max(0, v - 10)], and the player is set to it. *)
Theorem volume_stays_within_0_100 (self : t) (ops : list volume_action) :
  current_volume self = 70 ->
  0 <= current_volume (process_volumes ops self) <= 100
  /\ (forall q avail created,
         current_volume (new q) = 70
         /\ current_volume (_init_vlc avail created (new q)).2 = 70)
  /\ (forall s p,
         player s = Some p ->
         current_volume (volume_up 10 s) = Z.min 100 (current_volume s + 10)
         /\ player (volume_up 10 s)
            = Some {| audio_volume := Z.min 100 (current_volume s + 10) |}
         /\ current_volume (volume_down 10 s) = Z.max 0 (current_volume s - 10)
         /\ player (volume_down 10 s)
            = Some {| audio_volume := Z.max 0 (current_volume s - 10) |}).
Proof.
  intros H70. split; [| split].
  - apply process_volumes_in_range. lia.
  - intros q avail created. split; [reflexivity |].
    unfold _init_vlc. destruct avail; [destruct created |]; reflexivity.
  - intros s p Hp. unfold volume_up, volume_down. rewrite Hp. simpl.
    repeat split.
Qed.

End Volume.

(** ** Rounding to the nearest float *)

Section Binary64Facts.
Import Binary64.
Local Open Scope Q_scope.

Lemma rint_spec (x : Q) :
  inject_Z (rint x) - (1 # 2) <= x <= inject_Z (rint x) + (1 # 2)
  /\ (x - inject_Z (rint x) == 1 # 2 -> Z.even (rint x) = true)
  /\ (inject_Z (rint x) - x == 1 # 2 -> Z.even (rint x) = true).
Proof.
  unfold rint. pose proof (Qfloor_le x) as Hlo. pose proof (Qlt_floor x) as Hhi.
  rewrite inject_Z_plus in Hhi.
  change (inject_Z 1) with 1 in Hhi. cbv zeta.
  destruct (Qcompare_spec (x - inject_Z (Qfloor x)) (1 # 2)) as [He | Hl | Hg].
  - destruct (Z.even (Qfloor x)) eqn:Hev.
    + split; [lra |]. split; [auto | intros; lra].
    + rewrite inject_Z_plus. change (inject_Z 1) with 1.
      split; [lra |]. split; [intros; lra |].
      intros _. rewrite Z.even_add, Hev. reflexivity.
  - split; [lra |]. split; intros; lra.
  - rewrite inject_Z_plus. change (inject_Z 1) with 1.
    split; [lra |]. split; intros; lra.
Qed.

Lemma rint_mono (x y : Q) : x <= y -> (rint x <= rint y)%Z.
Proof.
  intros Hxy.
  destruct (rint_spec x) as ([Hx1 Hx2] & _ & Hxe).
  destruct (rint_spec y) as ([Hy1 Hy2] & Hye & _).
  destruct (Z_le_gt_dec (rint x) (rint y)) as [| Hgt]; [assumption | exfalso].
  assert (H1 : (rint y + 1 <= rint x)%Z) by lia.
  rewrite Zle_Qle in H1. rewrite inject_Z_plus in H1.
  change (inject_Z 1) with 1 in H1.
  assert (Ex : inject_Z (rint x) - x == 1 # 2) by lra.
  assert (Ey : y - inject_Z (rint y) == 1 # 2) by lra.
  assert (Ez : inject_Z (rint x) == inject_Z (rint y) + 1) by lra.
  assert (Ez' : rint x = (rint y + 1)%Z).
  { apply inject_Z_injective. rewrite inject_Z_plus. exact Ez. }
  specialize (Hxe Ex). specialize (Hye Ey).
  rewrite Ez', Z.even_add, Hye in Hxe. discriminate.
Qed.

Lemma rint_comp (x y : Q) : x == y -> rint x = rint y.
Proof.
  intros E. apply Z.le_antisymm; apply rint_mono; rewrite E; apply Qle_refl.
Qed.

Lemma rint_Z (z : Z) : rint (inject_Z z) = z.
Proof.
  destruct (rint_spec (inject_Z z)) as ([H1 H2] & _ & _).
  destruct (Z_lt_le_dec (rint (inject_Z z)) z) as [Hlt | Hge].
  - assert (H : (rint (inject_Z z) + 1 <= z)%Z) by lia.
    rewrite Zle_Qle in H. rewrite inject_Z_plus in H.
    change (inject_Z 1) with 1 in H. lra.
  - destruct (Z_lt_le_dec z (rint (inject_Z z))) as [Hlt | Hle]; [| lia].
    assert (H : (z + 1 <= rint (inject_Z z))%Z) by lia.
    rewrite Zle_Qle in H. rewrite inject_Z_plus in H.
    change (inject_Z 1) with 1 in H. lra.
Qed.

Lemma pow2_pos (k : Z) : 0 < 2 ^ k.
Proof. apply Qpower_0_lt. reflexivity. Qed.

Lemma pow2_plus (a b : Z) : 2 ^ (a + b) == 2 ^ a * 2 ^ b.
Proof. apply Qpower_plus. discriminate. Qed.

Lemma pow2_le (a b : Z) : (a <= b)%Z -> 2 ^ a <= 2 ^ b.
Proof. intros H. apply Qpower_le_compat_l; [exact H | discriminate]. Qed.

Lemma pow2_lt_inv (a b : Z) : 2 ^ a < 2 ^ b -> (a < b)%Z.
Proof. intros H. apply (Qpower_lt_compat_l_inv 2); [exact H | reflexivity]. Qed.

Lemma pow2_Z (n : Z) : (0 <= n)%Z -> 2 ^ n == inject_Z (2 ^ n).
Proof. intros H. now rewrite (Zpower_Qpower 2 n H). Qed.

Lemma pow2_succ (a : Z) : 2 ^ (a + 1) == 2 * 2 ^ a.
Proof. rewrite pow2_plus. change (2 ^ 1) with 2. ring. Qed.

Lemma exponent_spec (x : Q) :
  0 < x -> 2 ^ exponent x <= x < 2 ^ (exponent x + 1).
Proof.
  intros Hx. unfold exponent.
  set (n := Qnum x). set (d := Zpos (Qden x)).
  assert (Hn : (0 < n)%Z).
  { unfold n. destruct x as [a b]. unfold Qlt in Hx. simpl in *. lia. }
  assert (Hd : (0 < d)%Z) by (unfold d; lia).
  destruct (Z.log2_spec n Hn) as [Hn1 Hn2].
  destruct (Z.log2_spec d Hd) as [Hd1 Hd2].
  pose proof (Z.log2_nonneg n) as Hln. pose proof (Z.log2_nonneg d) as Hld.
  set (ln := Z.log2 n) in *. set (ld := Z.log2 d) in *.
  assert (Ex : x * inject_Z d == inject_Z n).
  { unfold n, d. destruct x as [a b].
    unfold Qeq, Qmult, inject_Z. cbn [Qnum Qden].
    rewrite Pos.mul_1_r. ring. }
  rewrite Zle_Qle in Hn1, Hd1. rewrite Zlt_Qlt in Hn2, Hd2.
  rewrite <- pow2_Z in Hn1, Hd1, Hn2, Hd2 by lia.
  unfold Z.succ in Hn2, Hd2.
  rewrite pow2_succ in Hn2, Hd2.
  pose proof (pow2_pos ld) as Pld. pose proof (pow2_pos ln) as Pln.
  pose proof (pow2_pos (ln - ld)) as Pk.
  assert (Ek : 2 ^ (ln - ld) * 2 ^ ld == 2 ^ ln).
  { rewrite <- pow2_plus. now replace (ln - ld + ld)%Z with ln by lia. }
  assert (Hlo : 2 ^ (ln - ld) < 2 * x).
  { apply Qmult_lt_r with (z := inject_Z d); [lra |]. nra. }
  assert (Hhi : x < 2 * 2 ^ (ln - ld)).
  { apply Qmult_lt_r with (z := 2 ^ ld); [lra |]. nra. }
  destruct (Qle_bool (2 ^ (ln - ld)) x) eqn:Hb.
  - apply Qle_bool_iff in Hb. rewrite pow2_succ. split; [exact Hb | exact Hhi].
  - assert (Hlt : x < 2 ^ (ln - ld)).
    { apply Qnot_le_lt. intros H. apply Qle_bool_iff in H. congruence. }
    replace (ln - ld - 1 + 1)%Z with (ln - ld)%Z by lia.
    split; [| exact Hlt].
    assert (E : 2 ^ (ln - ld) == 2 * 2 ^ (ln - ld - 1)).
    { rewrite <- pow2_succ. now replace (ln - ld - 1 + 1)%Z with (ln - ld)%Z by lia. }
    lra.
Qed.

Lemma exponent_mono (x y : Q) : 0 < x -> x <= y -> (exponent x <= exponent y)%Z.
Proof.
  intros Hx Hxy.
  destruct (exponent_spec x Hx) as [H1 _].
  destruct (exponent_spec y) as [_ H2]; [lra |].
  assert (H : 2 ^ exponent x < 2 ^ (exponent y + 1)) by lra.
  apply pow2_lt_inv in H. lia.
Qed.


Lemma round_to_mono (q : Z) (x y : Q) : x <= y -> round_to q x <= round_to q y.
Proof.
  intros Hxy. unfold round_to. pose proof (pow2_pos q) as Hq.
  apply Qmult_le_compat_r; [| lra].
  rewrite <- Zle_Qle. apply rint_mono.
  apply Qmult_le_compat_r; [exact Hxy |].
  apply Qlt_le_weak, Qinv_lt_0_compat, Hq.
Qed.

(** A multiple of [2 ^ q] is not moved. *)
Lemma round_to_multiple (q m : Z) (x : Q) :
  x == inject_Z m * 2 ^ q -> round_to q x == x.
Proof.
  intros E. unfold round_to. pose proof (pow2_pos q) as Hq.
  rewrite (rint_comp (x / 2 ^ q) (inject_Z m)).
  - rewrite rint_Z. now rewrite E.
  - rewrite E. field. lra.
Qed.

Lemma round_to_pow2 (q k : Z) : (q <= k)%Z -> round_to q (2 ^ k) == 2 ^ k.
Proof.
  intros H. apply (round_to_multiple q (2 ^ (k - q))).
  rewrite <- pow2_Z by lia. rewrite <- pow2_plus.
  now replace (k - q + q)%Z with k by lia.
Qed.

Lemma round_to_nonneg (q : Z) (x : Q) : 0 <= x -> 0 <= round_to q x.
Proof.
  intros Hx. apply Qle_trans with (round_to q 0).
  - rewrite (round_to_multiple q 0 0); [apply Qle_refl | ring].
  - now apply round_to_mono.
Qed.

Lemma round_pos_mono (x y : Q) : 0 < x -> x <= y -> round_pos x <= round_pos y.
Proof.
  intros Hx Hxy. assert (Hy : 0 < y) by lra. unfold round_pos.
  pose proof (exponent_mono x y Hx Hxy) as He.
  destruct (exponent_spec x Hx) as [_ Hx2].
  destruct (exponent_spec y Hy) as [Hy1 _].
  set (qx := Z.max (exponent x - 52) (-1074)).
  set (qy := Z.max (exponent y - 52) (-1074)).
  destruct (Z.eq_dec qx qy) as [E | Hne].
  - rewrite E. now apply round_to_mono.
  - assert (Hlt : (qx < qy)%Z) by (unfold qx, qy in *; lia).
    assert (Hqy : qy = (exponent y - 52)%Z) by (unfold qx, qy in *; lia).
    assert (Hex : (exponent x + 1 <= exponent y)%Z) by (unfold qx, qy in *; lia).
    apply Qle_trans with (2 ^ exponent y).
    + rewrite <- (round_to_pow2 qx (exponent y)) by lia.
      apply round_to_mono. pose proof (pow2_le _ _ Hex). lra.
    + rewrite <- (round_to_pow2 qy (exponent y)) at 1 by lia.
      now apply round_to_mono.
Qed.

Lemma round64_comp (x y : Q) : x == y -> round64 x = round64 y.
Proof. intros E. unfold round64. now rewrite (Qred_complete x y E). Qed.

Lemma Qnum_sign (x : Q) :
  match Qnum x with
  | Z0 => x == 0
  | Zpos _ => 0 < x
  | Zneg _ => x < 0
  end.
Proof. destruct x as [[| p | p] d]; unfold Qeq, Qlt; simpl; lia. Qed.

Lemma round64_pos (x : Q) : 0 < x -> round64 x = round_pos (Qred x).
Proof.
  intros Hx. unfold round64. pose proof (Qnum_sign (Qred x)) as Hs.
  pose proof (Qred_correct x) as E.
  destruct (Qnum (Qred x)); [lra | reflexivity | lra].
Qed.

Lemma round64_0 (x : Q) : x == 0 -> round64 x = 0.
Proof. intros E. rewrite (round64_comp x 0 E). reflexivity. Qed.

Lemma round64_nonneg (x : Q) : 0 <= x -> 0 <= round64 x.
Proof.
  intros Hx. destruct (Qlt_le_dec 0 x) as [Hpos | Hle].
  - rewrite (round64_pos x Hpos). apply round_to_nonneg.
    rewrite Qred_correct. lra.
  - rewrite (round64_0 x) by lra. apply Qle_refl.
Qed.

(** Rounding keeps the order. *)
Lemma round64_mono (x y : Q) : 0 <= x -> x <= y -> round64 x <= round64 y.
Proof.
  intros Hx Hxy. destruct (Qlt_le_dec 0 x) as [Hpos | Hle].
  - rewrite (round64_pos x Hpos), (round64_pos y) by lra.
    apply round_pos_mono; rewrite !Qred_correct; assumption.
  - rewrite (round64_0 x) by lra. apply round64_nonneg. lra.
Qed.

Lemma round64_1 : round64 1 == 1.
Proof. reflexivity. Qed.

Lemma round64_half : round64 (1 # 2) == 1 # 2.
Proof. reflexivity. Qed.

Lemma round64_three_halves : round64 (3 # 2) == 3 # 2.
Proof. reflexivity. Qed.

Lemma round64_eps : round64 (2 ^ (-52)) == 2 ^ (-52).
Proof. reflexivity. Qed.

Lemma round64_half_eps : round64 ((1 # 2) + 2 ^ (-52)) == (1 # 2) + 2 ^ (-52).
Proof. reflexivity. Qed.

Lemma round64_below_1 : round64 (1 - 2 ^ (-52)) == 1 - 2 ^ (-52).
Proof. reflexivity. Qed.

Lemma round64_below_three_halves :
  round64 ((3 # 2) - 2 ^ (-52)) == (3 # 2) - 2 ^ (-52).
Proof. reflexivity. Qed.

End Binary64Facts.

(** ** The playback engine: song matching *)

Section SongMatching.
Import PyStr MusicPlayer.

Variable ratio : string -> string -> Q.

Local Abbreviation score := (score ratio).
Local Abbreviation scan := (scan ratio).
Local Abbreviation find_best_match := (find_best_match ratio).

Lemma lower_nonempty (s : string) : s <> "" -> lower s <> "".
Proof. destruct s; [congruence | discriminate]. Qed.

Lemma prefix_length (a b : string) :
  String.prefix a b = true -> (String.length a <= String.length b)%nat.
Proof.
  revert b. induction a as [| c a IH]; intros [| c' b]; simpl; intros H;
    try lia; try discriminate.
  destruct (ascii_dec c c'); [| discriminate].
  apply IH in H. lia.
Qed.

Lemma prefix_same_length (a b : string) :
  String.prefix a b = true -> String.length a = String.length b -> a = b.
Proof.
  revert b. induction a as [| c a IH]; intros [| c' b]; simpl;
    try discriminate; [reflexivity |].
  destruct (ascii_dec c c') as [-> |]; [| discriminate].
  intros H Hl. f_equal. apply IH; [exact H | lia].
Qed.

Lemma contains_nil (needle : string) :
  contains "" needle = String.prefix needle "" || false.
Proof. reflexivity. Qed.

Lemma contains_cons (c : ascii) (hay needle : string) :
  contains (String c hay) needle
  = String.prefix needle (String c hay) || contains hay needle.
Proof. reflexivity. Qed.

Lemma contains_length (hay needle : string) :
  contains hay needle = true ->
  (String.length needle <= String.length hay)%nat.
Proof.
  induction hay as [| c hay IH]; intros H.
  - rewrite contains_nil in H. apply orb_true_iff in H as [H | H].
    + now apply prefix_length in H.
    + discriminate.
  - rewrite contains_cons in H. apply orb_true_iff in H as [H | H].
    + now apply prefix_length in H.
    + apply IH in H. simpl. lia.
Qed.

Lemma contains_same_length (hay needle : string) :
  contains hay needle = true ->
  String.length hay = String.length needle -> hay = needle.
Proof.
  destruct hay as [| c hay]; intros H Hl.
  - rewrite contains_nil in H. apply orb_true_iff in H as [H | H].
    + symmetry. now apply prefix_same_length.
    + discriminate.
  - rewrite contains_cons in H. apply orb_true_iff in H as [H | H].
    + symmetry. now apply prefix_same_length.
    + apply contains_length in H. simpl in Hl. lia.
Qed.

Lemma prefix_refl (s : string) : String.prefix s s = true.
Proof.
  induction s as [| c s IH]; simpl; [reflexivity |].
  now destruct (ascii_dec c c).
Qed.

Lemma contains_refl (s : string) : contains s s = true.
Proof.
  destruct s as [| c s]; [reflexivity |].
  rewrite contains_cons. now rewrite prefix_refl.
Qed.

Lemma len_pos (s : string) : s <> "" -> 0 < len s.
Proof. destruct s; [congruence |]. intros _. unfold len. simpl. lia. Qed.

Lemma Qgtb_true (a b : Q) : Qgtb a b = true <-> (b < a)%Q.
Proof.
  unfold Qgtb. rewrite Qgt_alt.
  destruct (a ?= b)%Q; split; congruence.
Qed.

Lemma Qgtb_false (a b : Q) : Qgtb a b = false <-> (a <= b)%Q.
Proof.
  rewrite <- not_true_iff_false, Qgtb_true. split.
  - apply Qnot_lt_le.
  - apply Qle_not_lt.
Qed.

Lemma finite_small (x : Q) : (0 <= x)%Q -> (x <= 2)%Q -> Binary64.finite x = true.
Proof.
  intros H0 H2. unfold Binary64.finite.
  destruct (Qle_bool (2 ^ 1024) (Qabs x)) eqn:Hb; [| reflexivity].
  apply Qle_bool_iff in Hb. rewrite (Qabs_pos x H0) in Hb.
  assert (Hbig : (2 < 2 ^ 1024)%Q) by reflexivity.
  lra.
Qed.

Lemma len_lower (s : string) : len (lower s) = len s.
Proof.
  unfold len. f_equal. induction s as [| c s IH]; simpl; congruence.
Qed.

(** The quotient of two lengths, the first positive and at most the
    second: a float between 0 and 1, which is 1 for equal lengths.  Below
    [2 ^ 52] the lengths are far enough from each other for the rounded
    quotient to tell them apart. *)
Lemma truediv_lengths (a b : Z) :
  0 < a <= b ->
  exists x, truediv a b = Ok x
            /\ (0 <= x)%Q /\ (x <= 1)%Q
            /\ (a = b -> (x == 1)%Q)
            /\ (b < 2 ^ 52 ->
                (2 ^ (-52) <= x)%Q
                /\ (a < b -> (x <= 1 - 2 ^ (-52))%Q)).
Proof.
  intros [Ha Hab]. unfold truediv.
  destruct (Z.eqb_spec b 0) as [-> | Hb]; [lia |].
  assert (Ha' : (1 <= inject_Z a)%Q) by (rewrite <- (Zle_Qle 1); lia).
  assert (Hb' : (0 < inject_Z b)%Q) by (rewrite <- (Zlt_Qlt 0); lia).
  assert (Hab' : (inject_Z a <= inject_Z b)%Q) by (rewrite <- Zle_Qle; lia).
  set (t := (inject_Z a / inject_Z b)%Q).
  assert (Et : (t * inject_Z b == inject_Z a)%Q) by (unfold t; field; lra).
  assert (Ht0 : (0 < t)%Q).
  { unfold t. apply Qlt_shift_div_l; [exact Hb' | lra]. }
  assert (Ht1 : (t <= 1)%Q).
  { unfold t. apply Qle_shift_div_r; [exact Hb' | lra]. }
  cbv zeta.
  assert (Hx0 : (0 <= Binary64.round64 t)%Q) by (apply round64_nonneg; lra).
  assert (Hx1 : (Binary64.round64 t <= 1)%Q).
  { rewrite <- round64_1. apply round64_mono; lra. }
  rewrite (finite_small _ Hx0) by lra.
  eexists. split; [reflexivity |].
  split; [exact Hx0 |]. split; [exact Hx1 |]. split.
  - intros E. rewrite (round64_comp t 1); [apply round64_1 |].
    unfold t. rewrite E. field. lra.
  - intros Hsmall.
    assert (Hb52 : (inject_Z b <= 4503599627370496 - 1)%Q).
    { change (4503599627370496 - 1)%Q with (inject_Z (2 ^ 52 - 1)).
      rewrite <- Zle_Qle. lia. }
    change (2 ^ (-52))%Q with (1 # 4503599627370496)%Q.
    split.
    + rewrite <- round64_eps. apply round64_mono; [discriminate |].
      change (2 ^ (-52))%Q with (1 # 4503599627370496)%Q.
      apply Qmult_le_r with (z := inject_Z b); [exact Hb' |].
      rewrite Et. lra.
    + intros Hlt.
      assert (Hlt' : (inject_Z a <= inject_Z b - 1)%Q).
      { assert (Hz : a <= b + - (1)) by lia.
        rewrite Zle_Qle, inject_Z_plus in Hz. exact Hz. }
      rewrite <- round64_below_1. apply round64_mono; [lra |].
      change (2 ^ (-52))%Q with (1 # 4503599627370496)%Q.
      apply Qmult_le_r with (z := inject_Z b); [exact Hb' |].
      rewrite Et. lra.
Qed.

(** The score of a song whose name contains the query: a float between
    0.5 and 1.5, which is 1.5 for the query itself.  For a name of fewer
    than [2 ^ 52] characters it is more than 0.5, and 1.5 for the query
    only. *)
Lemma score_substring (query_lower name_lower : string) :
  query_lower <> "" ->
  contains name_lower query_lower = true ->
  exists sc, score query_lower name_lower = Ok sc
             /\ (1 # 2 <= sc)%Q /\ (sc <= 3 # 2)%Q
             /\ (name_lower = query_lower -> (sc == 3 # 2)%Q)
             /\ (len name_lower < 2 ^ 52 ->
                 (1 # 2 < sc)%Q
                 /\ ((3 # 2 <= sc)%Q -> name_lower = query_lower)).
Proof.
  intros Hq Hc. unfold score. rewrite Hc.
  pose proof (len_pos _ Hq) as Hpos.
  pose proof (contains_length _ _ Hc) as Hlen.
  destruct (truediv_lengths (len query_lower) (len name_lower))
    as (x & -> & Hx0 & Hx1 & Hxeq & Hxsmall).
  { unfold len in *. lia. }
  cbn [bind]. eexists. split; [reflexivity |].
  split; [| split; [| split]].
  - rewrite <- round64_half at 1. apply round64_mono; [discriminate | lra].
  - rewrite <- round64_three_halves. apply round64_mono; lra.
  - intros ->. rewrite (round64_comp (x + (1 # 2)) (3 # 2)).
    + apply round64_three_halves.
    + rewrite (Hxeq eq_refl). reflexivity.
  - intros Hsmall. destruct (Hxsmall Hsmall) as [Hlo Hhi]. split.
    + apply Qlt_le_trans with ((1 # 2) + 2 ^ (-52))%Q; [reflexivity |].
      rewrite <- round64_half_eps. apply round64_mono; [discriminate | lra].
    + intros H. apply contains_same_length; [exact Hc |].
      destruct (Z.eq_dec (len query_lower) (len name_lower)) as [E | Hne].
      { unfold len in E. lia. }
      exfalso.
      assert (Hlt : len query_lower < len name_lower) by (unfold len in *; lia).
      specialize (Hhi Hlt).
      assert (Hle : (Binary64.round64 (x + (1 # 2)) <= (3 # 2) - 2 ^ (-52))%Q).
      { rewrite <- round64_below_three_halves. apply round64_mono; lra. }
      assert (Hc52 : ((3 # 2) - 2 ^ (-52) < 3 # 2)%Q) by reflexivity.
      lra.
Qed.

Lemma score_fuzzy (query_lower name_lower : string) :
  contains name_lower query_lower = false ->
  score query_lower name_lower = Ok (ratio query_lower name_lower).
Proof. intros Hc. unfold score. now rewrite Hc. Qed.

(** With a query that is not empty the division never has a zero
    divisor. *)
Lemma score_returns (query_lower name_lower : string) :
  query_lower <> "" -> exists sc, score query_lower name_lower = Ok sc.
Proof.
  intros Hq. destruct (contains name_lower query_lower) eqn:Hc.
  - destruct (score_substring _ _ Hq Hc) as (sc & H & _). eauto.
  - rewrite (score_fuzzy _ _ Hc). eauto.
Qed.

(** The loop returns; its best score is the start value or the score of
    the song it returns, and no song of the index has a higher one. *)
Lemma scan_spec (query_lower : string) (music_files : list song)
      (bm : option song) (bs : Q) :
  query_lower <> "" ->
  exists bm' bs',
    scan query_lower music_files (bm, bs) = Ok (bm', bs')
    /\ (bs <= bs')%Q
    /\ (forall s sc, In s music_files ->
                     score query_lower (lower (name s)) = Ok sc ->
                     (sc <= bs')%Q)
    /\ ((bm', bs') = (bm, bs)
        \/ exists s, In s music_files /\ bm' = Some s
                     /\ score query_lower (lower (name s)) = Ok bs').
Proof.
  intros Hq. revert bm bs.
  induction music_files as [| s rest IH]; intros bm bs.
  - exists bm, bs. simpl. split; [reflexivity |].
    split; [apply Qle_refl |]. split; [intros ? ? [] | now left].
  - destruct (score_returns query_lower (lower (name s)) Hq) as [sc Hsc].
    simpl MusicPlayer.scan. rewrite Hsc. cbn [bind snd].
    destruct (Qgtb sc bs) eqn:Hgt.
    + apply Qgtb_true in Hgt.
      destruct (IH (Some s) sc) as (bm' & bs' & Hrun & Hle & Hall & Hwho).
      exists bm', bs'. split; [exact Hrun |].
      split; [apply Qlt_le_weak; eapply Qlt_le_trans; eassumption |].
      split.
      * intros s' sc' [<- | Hin] Hs'.
        -- rewrite Hsc in Hs'. injection Hs' as <-. exact Hle.
        -- now apply (Hall s').
      * right. destruct Hwho as [E | (s' & Hin & -> & Hs')].
        -- injection E as -> ->. exists s. simpl. auto.
        -- exists s'. simpl. auto.
    + apply Qgtb_false in Hgt.
      destruct (IH bm bs) as (bm' & bs' & Hrun & Hle & Hall & Hwho).
      exists bm', bs'. split; [exact Hrun |].
      split; [exact Hle |]. split.
      * intros s' sc' [<- | Hin] Hs'.
        -- rewrite Hsc in Hs'. injection Hs' as <-.
           eapply Qle_trans; eassumption.
        -- now apply (Hall s').
      * destruct Hwho as [E | (s' & Hin & -> & Hs')]; [now left |].
        right. exists s'. simpl. auto.
Qed.

(** With a query that is not empty, [find_best_match] returns the result of
    the loop when its best score is above 0.3. *)
Lemma find_best_match_scan (query : string) (music_files : list song) :
  query <> "" ->
  exists bm bs,
    scan (lower query) music_files (None, 0%Q) = Ok (bm, bs)
    /\ find_best_match (Some query) music_files
       = Ok (if Qgtb bs (3 # 10) then bm else None).
Proof.
  intros Hq.
  destruct (scan_spec (lower query) music_files None 0%Q (lower_nonempty _ Hq))
    as (bm & bs & Hrun & _).
  exists bm, bs. split; [exact Hrun |].
  unfold MusicPlayer.find_best_match.
  destruct music_files as [| first rest].
  - simpl in Hrun. injection Hrun as <- <-. reflexivity.
  - destruct query as [| c query]; [congruence |].
    rewrite Hrun. cbn [bind fst snd]. now destruct (Qgtb bs (3 # 10)).
Qed.

(** C4. For a query that is not empty.  If the similarity ratio of the
    query to the songs of the index is at most 1, a song whose name
    equals the query up to case scores 1.5, every song whose name does not
    contain the query scores at most 1, which is less, and
    [find_best_match] returns a song whose name contains the query, never
    one matched by similarity only; when that name has fewer than [2 ^ 52]
    characters it equals the query up to case (the quotient of longer
    lengths can round to 1).  If no song of the index scores above 0.3,
    [find_best_match] returns no match. *)
Theorem exact_name_outscores_fuzzy_and_threshold
        (query : string) (music_files : list song) :
  query <> "" ->
  ((forall s, In s music_files ->
              (ratio (lower query) (lower (name s)) <= 1)%Q) ->
   forall s, In s music_files -> lower (name s) = lower query ->
     (exists sc, score (lower query) (lower (name s)) = Ok sc
                 /\ (sc == 3 # 2)%Q)
     /\ (forall s', In s' music_files ->
                    contains (lower (name s')) (lower query) = false ->
                    exists sc', score (lower query) (lower (name s')) = Ok sc'
                                /\ (sc' <= 1)%Q /\ (sc' < 3 # 2)%Q)
     /\ (exists best, find_best_match (Some query) music_files = Ok (Some best)
                      /\ In best music_files
                      /\ contains (lower (name best)) (lower query) = true
                      /\ (len (name best) < 2 ^ 52 ->
                          lower (name best) = lower query)))
  /\ ((forall s sc, In s music_files ->
                    score (lower query) (lower (name s)) = Ok sc ->
                    (sc <= 3 # 10)%Q) ->
      find_best_match (Some query) music_files = Ok None).
Proof.
  intros Hq. pose proof (lower_nonempty _ Hq) as Hql.
  destruct (find_best_match_scan query music_files Hq)
    as (bm & bs & Hrun & Hfind).
  destruct (scan_spec (lower query) music_files None 0%Q Hql)
    as (bm' & bs' & Hrun' & Hle & Hall & Hwho).
  rewrite Hrun in Hrun'. injection Hrun' as <- <-.
  split.
  - intros Hratio s Hin Hname.
    assert (Hc : contains (lower (name s)) (lower query) = true).
    { rewrite Hname. apply contains_refl. }
    destruct (score_substring _ _ Hql Hc) as (sc & Hsc & _ & _ & Heq & _).
    specialize (Heq Hname).
    split; [exists sc; now split |]. split.
    + intros s' Hin' Hc'. rewrite (score_fuzzy _ _ Hc').
      eexists. split; [reflexivity |]. specialize (Hratio s' Hin').
      split; [exact Hratio | lra].
    + pose proof (Hall s sc Hin Hsc) as Hbs.
      assert (Hthr : Qgtb bs (3 # 10) = true) by (apply Qgtb_true; lra).
      rewrite Hthr in Hfind.
      destruct Hwho as [E | (best & Hbin & -> & Hbest)].
      { injection E as _ ->. lra. }
      exists best. split; [exact Hfind |]. split; [exact Hbin |].
      destruct (contains (lower (name best)) (lower query)) eqn:Hcb.
      * split; [reflexivity |]. intros Hsmall.
        destruct (score_substring _ _ Hql Hcb) as (sc' & Hsc' & _ & _ & _ & Hge).
        rewrite Hbest in Hsc'. injection Hsc' as <-.
        rewrite len_lower in Hge. apply (Hge Hsmall). lra.
      * exfalso. rewrite (score_fuzzy _ _ Hcb) in Hbest. injection Hbest as <-.
        specialize (Hratio best Hbin). lra.
  - intros Hlow.
    assert (Hthr : Qgtb bs (3 # 10) = false).
    { apply Qgtb_false.
      destruct Hwho as [E | (best & Hbin & _ & Hbest)].
      - injection E as _ ->. lra.
      - exact (Hlow best bs Hbin Hbest). }
    now rewrite Hthr in Hfind.
Qed.

(** C10. For a query that is not empty: a song of the index whose
    lower-cased name contains the lower-cased query scores at least 0.5,
    and more than 0.5 when its name has fewer than [2 ^ 52] characters (the
    sum of 0.5 and the quotient of longer lengths can round to 0.5); so it
    scores more than the threshold 0.3, and [find_best_match] returns some
    song of the index, never no match.  When it returns no match, no name
    in the index contains the query. *)
Theorem substring_match_is_always_accepted
        (query : string) (music_files : list song) :
  query <> "" ->
  (forall s, In s music_files ->
             contains (lower (name s)) (lower query) = true ->
             (exists sc, score (lower query) (lower (name s)) = Ok sc
                         /\ (1 # 2 <= sc)%Q /\ (3 # 10 < sc)%Q
                         /\ (len (name s) < 2 ^ 52 -> (1 # 2 < sc)%Q))
             /\ (exists best,
                    find_best_match (Some query) music_files = Ok (Some best)
                    /\ In best music_files))
  /\ (find_best_match (Some query) music_files = Ok None ->
      forall s, In s music_files ->
                contains (lower (name s)) (lower query) = false).
Proof.
  intros Hq. pose proof (lower_nonempty _ Hq) as Hql.
  assert (Hmain : forall s, In s music_files ->
             contains (lower (name s)) (lower query) = true ->
             (exists sc, score (lower query) (lower (name s)) = Ok sc
                         /\ (1 # 2 <= sc)%Q /\ (3 # 10 < sc)%Q
                         /\ (len (name s) < 2 ^ 52 -> (1 # 2 < sc)%Q))
             /\ (exists best,
                    find_best_match (Some query) music_files = Ok (Some best)
                    /\ In best music_files)).
  { intros s Hin Hc.
    destruct (score_substring _ _ Hql Hc) as (sc & Hsc & Hhalf & _ & _ & Hsmall).
    rewrite len_lower in Hsmall.
    split.
    { exists sc. split; [exact Hsc |]. split; [exact Hhalf |].
      split; [lra |]. intros Hs. exact (proj1 (Hsmall Hs)). }
    destruct (find_best_match_scan query music_files Hq)
      as (bm & bs & Hrun & Hfind).
    destruct (scan_spec (lower query) music_files None 0%Q Hql)
      as (bm' & bs' & Hrun' & Hle & Hall & Hwho).
    rewrite Hrun in Hrun'. injection Hrun' as <- <-.
    pose proof (Hall s sc Hin Hsc) as Hbs.
    assert (Hthr : Qgtb bs (3 # 10) = true) by (apply Qgtb_true; lra).
    rewrite Hthr in Hfind.
    destruct Hwho as [E | (best & Hbin & -> & _)].
    { injection E as _ ->. lra. }
    exists best. now split. }
  split; [exact Hmain |].
  intros Hnone s Hin.
  destruct (contains (lower (name s)) (lower query)) eqn:Hc; [| reflexivity].
  destruct (Hmain s Hin Hc) as (_ & best & Hbest & _).
  rewrite Hbest in Hnone. discriminate.
Qed.

End SongMatching.

(** * The statements at concrete inputs *)

Section Instances.
Import PyStr.

(** C1 on a kit whose motors are at rest, with the face 80 pixels to the
    right and exactly 50 pixels low. *)
Lemma control_motors_dead_zone_trichotomy_witness :
  MotorControl.MOTOR_AVAILABLE
    (MotorControl.module_init
       (inr ({| MotorControl.throttle := 0 |}, {| MotorControl.throttle := 0 |})))
  = true
  /\ exists s',
      MotorControl.control_motors 80 50
        (MotorControl.module_init
           (inr ({| MotorControl.throttle := 0 |},
                 {| MotorControl.throttle := 0 |})))
      = Ok s'
      /\ MotorControl.horizontal s' = Some MotorControl.reverse
      /\ MotorControl.vertical s' = Some MotorControl.stop.
Proof.
  split; [reflexivity |].
  destruct (control_motors_dead_zone_trichotomy
              (MotorControl.module_init
                 (inr ({| MotorControl.throttle := 0 |},
                       {| MotorControl.throttle := 0 |})))
              {| MotorControl.throttle := 0 |} {| MotorControl.throttle := 0 |}
              80 50 eq_refl eq_refl eq_refl)
    as (s' & Hrun & Hright & _ & _ & _ & _ & Hlevel & _).
  exists s'. split; [exact Hrun |]. split.
  - apply Hright. lia.
  - apply Hlevel. lia.
Defined.

(** C8 on the globals left by a failed [MotorKit()]. *)
Lemma unavailable_is_noop_and_stop_idempotent_witness :
  MotorControl.MOTOR_AVAILABLE (MotorControl.module_init (inl "No I2C device"))
  = false
  /\ MotorControl.control_motors 200 (-200)
       (MotorControl.module_init (inl "No I2C device"))
     = Ok (MotorControl.module_init (inl "No I2C device"))
  /\ MotorControl.stop_motors (MotorControl.module_init (inl "No I2C device"))
     = Ok (MotorControl.module_init (inl "No I2C device")).
Proof.
  split; [reflexivity |].
  destruct (unavailable_is_noop_and_stop_idempotent
              (MotorControl.module_init (inl "No I2C device")))
    as [Hnoop _].
  destruct (Hnoop eq_refl) as [Hcontrol Hstop].
  split; [apply Hcontrol | exact Hstop].
Defined.

(** C5 on a new bus, with the timeouts the program uses. *)
Lemma command_queue_is_fifo_witness :
  SharedState._command_queue SharedState.new = []
  /\ exists s2 s1 s0,
      SharedState.get_command (Some (1 # 10)%Q)
        (SharedState.put_command {[ "type" := PyS "tracking"; "action" := PyS "off" ]}
           (SharedState.put_command {[ "type" := PyS "volume"; "action" := PyS "up" ]}
              (SharedState.put_command
                 {[ "type" := PyS "greeting"; "action" := PyS "hello" ]}
                 SharedState.new)))
      = SharedState.Returns
          (Some {[ "type" := PyS "greeting"; "action" := PyS "hello" ]}, s2)
      /\ SharedState.get_command (Some (1 # 2)%Q) s2
         = SharedState.Returns
             (Some {[ "type" := PyS "volume"; "action" := PyS "up" ]}, s1)
      /\ SharedState.get_command None s1
         = SharedState.Returns
             (Some {[ "type" := PyS "tracking"; "action" := PyS "off" ]}, s0)
      /\ SharedState._command_queue s0 = [].
Proof.
  split; [reflexivity |].
  destruct (command_queue_is_fifo SharedState.new
              {[ "type" := PyS "greeting"; "action" := PyS "hello" ]}
              {[ "type" := PyS "volume"; "action" := PyS "up" ]}
              {[ "type" := PyS "tracking"; "action" := PyS "off" ]}
              (Some (1 # 10)%Q) (Some (1 # 2)%Q) None)
    as (s2 & s1 & s0 & H1 & H2 & H3 & H0 & _).
  - reflexivity.
  - simpl. lra.
  - simpl. lra.
  - exact I.
  - exists s2, s1, s0. repeat split; assumption.
Defined.

(** C6 on a heap that holds one small frame. *)
Lemma frame_round_trip_is_a_copy_witness :
  ({[ 1%positive := {| shape := (2, 3); data := [7; 7; 7; 7; 7; 7] |} ]} : heap)
    !! 1%positive
  = Some {| shape := (2, 3); data := [7; 7; 7; 7; 7; 7] |}
  /\ exists h1 self1 r h2,
      SharedState.set_frame (Some 1%positive)
        {[ 1%positive := {| shape := (2, 3); data := [7; 7; 7; 7; 7; 7] |} ]}
        SharedState.new
      = Ok (h1, self1)
      /\ SharedState.get_frame h1 self1 = Ok (Some r, h2)
      /\ h2 !! r = Some {| shape := (2, 3); data := [7; 7; 7; 7; 7; 7] |}
      /\ r <> 1%positive.
Proof.
  assert (Hlive :
           ({[ 1%positive := {| shape := (2, 3); data := [7; 7; 7; 7; 7; 7] |} ]}
            : heap) !! 1%positive
           = Some {| shape := (2, 3); data := [7; 7; 7; 7; 7; 7] |})
    by reflexivity.
  split; [exact Hlive |].
  destruct (frame_round_trip_is_a_copy _ SharedState.new _ _ Hlive)
    as (h1 & self1 & r & h2 & Hset & Hget & Hr & _ & Hne & _).
  exists h1, self1, r, h2. repeat split; assumption.
Defined.

(** C7 on a thread whose player was created: four steps up, one down. *)
Lemma volume_stays_within_0_100_witness :
  MusicPlayer.current_volume
    (MusicPlayer._init_vlc true (inr {| MusicPlayer.audio_volume := 0 |})
       (MusicPlayer.new [])).2
  = 70
  /\ 0 <= MusicPlayer.current_volume
            (MusicPlayer.process_volumes
               [MusicPlayer.Volume_up; MusicPlayer.Volume_up;
                MusicPlayer.Volume_up; MusicPlayer.Volume_up;
                MusicPlayer.Volume_down]
               (MusicPlayer._init_vlc true
                  (inr {| MusicPlayer.audio_volume := 0 |})
                  (MusicPlayer.new [])).2)
     <= 100.
Proof.
  split; [reflexivity |].
  apply (volume_stays_within_0_100
           (MusicPlayer._init_vlc true (inr {| MusicPlayer.audio_volume := 0 |})
              (MusicPlayer.new [])).2).
  reflexivity.
Defined.

(** C3 on an utterance with capitals and spaces around it. *)
Lemma parse_command_play_and_examples_witness :
  strip (lower "  Play   Blue Train ") = "play" +:+ "   blue train"
  /\ VoiceCommands.parse_command "  Play   Blue Train "
     = Some {[ "type" := PyS "music"; "action" := PyS "play";
               "query" := PyS "blue train" ]}.
Proof.
  split; [reflexivity |].
  destruct parse_command_play_and_examples as (_ & _ & _ & _ & _ & _ & Hplay).
  exact (Hplay "  Play   Blue Train " "   blue train" eq_refl).
Defined.

(** C2 on a frame with no face, and on a frame with faces while tracking
    is off. *)
Lemma no_face_or_tracking_disabled_stops_witness :
  (Samples.detector (Samples.gray_of Samples.blank) = []
   /\ exists w',
       VisionTracker.loop_body Samples.gray_of Samples.detector Samples.draw
         (Some Samples.blank) Samples.world0 = Ok w'
       /\ VisionTracker.calls w' = [VisionTracker.Call_stop_motors])
  /\ (SharedState.tracking_enabled
        (VisionTracker.shared Samples.world_tracking_off) = false
      /\ exists w' a,
          VisionTracker.loop_body Samples.gray_of Samples.detector Samples.draw
            (Some Samples.scene) Samples.world_tracking_off = Ok w'
          /\ VisionTracker.calls w' = [VisionTracker.Call_stop_motors]
          /\ VisionTracker.store w' !! a
             = Some (Samples.draw Samples.scene (100, 100) (120, 120))).
Proof.
  destruct (no_face_or_tracking_disabled_stops
              Samples.gray_of Samples.detector Samples.draw
              Samples.blank Samples.world0) as [Hnone _].
  destruct (no_face_or_tracking_disabled_stops
              Samples.gray_of Samples.detector Samples.draw
              Samples.scene Samples.world_tracking_off) as [_ Hoff].
  split.
  - split; [reflexivity |].
    destruct (Hnone eq_refl) as (w' & m & Hrun & _ & _ & Hcalls).
    exists w'. split; [exact Hrun | exact Hcalls].
  - split; [reflexivity |].
    destruct (Hoff (0, 0, 10, 10)
                [(100, 100, 20, 20); (5, 5, 40, 10); (300, 200, 20, 20)]
                100 100 20 20 eq_refl eq_refl eq_refl)
      as (w' & m & a & Hrun & _ & _ & Hcalls & _ & Hframe).
    exists w', a. split; [exact Hrun |]. split; [exact Hcalls | exact Hframe].
Defined.

(** C9 on a frame in which three of four boxes tie for the largest area. *)
Lemma largest_face_first_wins_and_offset_witness :
  Samples.detector (Samples.gray_of Samples.scene) = Samples.four_faces
  /\ Forall (VisionTracker.inside (shape Samples.scene)) Samples.four_faces
  /\ (shape Samples.scene).1 * (shape Samples.scene).2 < 2 ^ 31
  /\ exists pre post x y bw bh,
      Samples.four_faces = (pre ++ (x, y, bw, bh) :: post)%list
      /\ Forall (fun f => f.1.2 * f.2 < bw * bh) pre
      /\ Forall (fun f => f.1.2 * f.2 <= bw * bh) post
      /\ exists w',
          VisionTracker.loop_body Samples.gray_of Samples.detector Samples.draw
            (Some Samples.scene) Samples.world0 = Ok w'
          /\ VisionTracker.calls w'
             = [VisionTracker.Call_control_motors
                  (x + bw / 2 - 640 / 2) (y + bh / 2 - 480 / 2)].
Proof.
  assert (Hin : Forall (VisionTracker.inside (shape Samples.scene))
                  Samples.four_faces).
  { repeat constructor; simpl; lia. }
  assert (Hsize : (shape Samples.scene).1 * (shape Samples.scene).2 < 2 ^ 31)
    by reflexivity.
  split; [reflexivity |]. split; [exact Hin |]. split; [exact Hsize |].
  destruct (largest_face_first_wins_and_offset
              Samples.gray_of Samples.detector Samples.draw
              Samples.scene Samples.world0 (0, 0, 10, 10)
              [(100, 100, 20, 20); (5, 5, 40, 10); (300, 200, 20, 20)]
              eq_refl Hin Hsize)
    as (pre & post & x & y & bw & bh & Heq & _ & _ & Hpre & Hpost & _
        & w' & a & Hrun & _ & _ & Hon).
  exists pre, post, x, y, bw, bh.
  split; [exact Heq |]. split; [exact Hpre |]. split; [exact Hpost |].
  exists w'. split; [exact Hrun |].
  destruct (Hon eq_refl) as [Hcalls _]. exact Hcalls.
Defined.

(** C4 on an index of two songs: the query "JAZZ" equals the name of the
    second up to case; the query "qq" resembles neither. *)
Lemma exact_name_outscores_fuzzy_and_threshold_witness :
  (forall s, In s [Samples.blue_train; Samples.jazz] ->
             (Samples.ratios (lower "JAZZ") (lower (MusicPlayer.name s)) <= 1)%Q)
  /\ (exists best,
         MusicPlayer.find_best_match Samples.ratios (Some "JAZZ")
           [Samples.blue_train; Samples.jazz] = Ok (Some best)
         /\ lower (MusicPlayer.name best) = "jazz")
  /\ MusicPlayer.find_best_match Samples.ratios (Some "qq")
       [Samples.blue_train; Samples.jazz] = Ok None.
Proof.
  assert (Hratio : forall s, In s [Samples.blue_train; Samples.jazz] ->
             (Samples.ratios (lower "JAZZ") (lower (MusicPlayer.name s)) <= 1)%Q).
  { intros s [<- | [<- | []]]; vm_compute; discriminate. }
  split; [exact Hratio |]. split.
  - destruct (exact_name_outscores_fuzzy_and_threshold Samples.ratios "JAZZ"
                [Samples.blue_train; Samples.jazz] ltac:(discriminate))
      as [Hexact _].
    destruct (Hexact Hratio Samples.jazz ltac:(simpl; auto) eq_refl)
      as (_ & _ & best & Hbest & Hin & _ & Hname).
    exists best. split; [exact Hbest |]. apply Hname.
    destruct Hin as [<- | [<- | []]]; reflexivity.
  - destruct (exact_name_outscores_fuzzy_and_threshold Samples.ratios "qq"
                [Samples.blue_train; Samples.jazz] ltac:(discriminate))
      as [_ Hlow].
    apply Hlow.
    intros s sc [<- | [<- | []]] Hsc; vm_compute in Hsc;
      injection Hsc as <-; vm_compute; discriminate.
Defined.

(** C10 on a query of one character that occurs in one name. *)
Lemma substring_match_is_always_accepted_witness :
  contains (lower (MusicPlayer.name Samples.jazz)) (lower "Z") = true
  /\ exists best,
      MusicPlayer.find_best_match Samples.ratios (Some "Z")
        [Samples.blue_train; Samples.jazz] = Ok (Some best)
      /\ In best [Samples.blue_train; Samples.jazz].
Proof.
  split; [reflexivity |].
  destruct (substring_match_is_always_accepted Samples.ratios "Z"
              [Samples.blue_train; Samples.jazz] ltac:(discriminate))
    as [Haccept _].
  destruct (Haccept Samples.jazz ltac:(simpl; auto) eq_refl)
    as (_ & best & Hbest & Hin).
  exists best. split; [exact Hbest | exact Hin].
Defined.

End Instances.


(** * Further properties *)

(** ** The state bus: queue, flags and frames *)

Section StateBusMore.
Import SharedState.

Lemma with_queue_with_queue (q q' : list command) (self : t) :
  with_queue q (with_queue q' self) = with_queue q self.
Proof. reflexivity. Qed.

Lemma get_commands_prefix (timeout : option Q) (a b : list command) (self : t) :
  valid_timeout timeout ->
  _command_queue self = (a ++ b)%list ->
  get_commands timeout (length a) self
  = Returns (map Some a, with_queue b self).
Proof.
  intros Hv. revert self. induction a as [| c a IH]; intros self Hq.
  - simpl in *. rewrite <- Hq. now destruct self.
  - simpl. rewrite (get_command_head timeout self c (a ++ b)%list Hv Hq).
    now rewrite (IH (with_queue (a ++ b)%list self) eq_refl).
Qed.

(** X1. Commands leave the bus in the order of their arrival, also when the
    consumer reads between two bursts of the producer.  After the commands
    [cs1] are put, [k] calls of [get_command] (with no timeout or a
    non-negative one) return the first [k] commands waiting; when [cs2] is
    put after that, the following calls return the rest of the first
    burst and then [cs2], and empty the queue.  Nothing is lost, doubled or
    reordered. *)
Theorem commands_leave_in_arrival_order
        (t1 t2 : option Q) (self : t) (cs1 cs2 : list command) (k : nat) :
  valid_timeout t1 -> valid_timeout t2 ->
  (k <= length (_command_queue self ++ cs1))%nat ->
  exists first rest s1,
    get_commands t1 k (put_commands cs1 self) = Returns (map Some first, s1)
    /\ get_commands t2 (length rest) (put_commands cs2 s1)
       = Returns (map Some rest, with_queue [] self)
    /\ length first = k
    /\ (first ++ rest)%list = (_command_queue self ++ cs1 ++ cs2)%list.
Proof.
  intros H1 H2 Hk.
  set (q := (_command_queue self ++ cs1)%list) in *.
  exists (firstn k q), (skipn k q ++ cs2)%list, (with_queue (skipn k q) self).
  destruct (put_commands_queue cs1 self) as [Hq Hs].
  split.
  { rewrite Hs. fold q.
    replace k with (length (firstn k q)) at 1
      by (rewrite length_firstn; lia).
    rewrite (get_commands_prefix t1 (firstn k q) (skipn k q)); [reflexivity | exact H1 |].
    simpl. now rewrite firstn_skipn. }
  destruct (put_commands_queue cs2 (with_queue (skipn k q) self)) as [Hq2 Hs2].
  split.
  { simpl in Hq2, Hs2. rewrite (get_commands_all t2 _ _ H2 Hq2). now rewrite Hs2. }
  split; [rewrite length_firstn; lia |].
  rewrite app_assoc, firstn_skipn. unfold q. now rewrite <- app_assoc.
Qed.

(** X2. With a timeout [get_command] always returns, when the timeout has
    passed at the latest.  It returns [None] exactly
    when the timeout is negative or the queue is empty, and then the bus is
    as it was, also when commands are waiting; otherwise it returns the head
    of the queue and removes nothing else. *)
Theorem get_command_with_timeout_returns (secs : Q) (self : t) :
  exists r self',
    get_command (Some secs) self = Returns (r, self')
    /\ (r = None <-> (secs < 0)%Q \/ _command_queue self = [])
    /\ (r = None -> self' = self)
    /\ (forall c, r = Some c ->
                  _command_queue self = c :: _command_queue self'
                  /\ _frame self' = _frame self
                  /\ _running self' = _running self
                  /\ _tracking_enabled self' = _tracking_enabled self).
Proof.
  unfold get_command.
  destruct (secs ?= 0)%Q eqn:Hc.
  - apply Qeq_alt in Hc.
    destruct (_command_queue self) as [| c q] eqn:Hq.
    + exists None, self. split; [reflexivity |].
      split; [split; auto |]. split; [auto | discriminate].
    + exists (Some c), (with_queue q self). split; [reflexivity |].
      split.
      { split; [discriminate |]. intros [Hneg | Hnil]; [| discriminate].
        exfalso. rewrite Hc in Hneg. now apply Qlt_irrefl in Hneg. }
      split; [discriminate |]. intros c' E. injection E as <-. now repeat split.
  - apply Qlt_alt in Hc. exists None, self. split; [reflexivity |].
    split; [split; auto |]. split; [auto | discriminate].
  - apply Qgt_alt in Hc.
    destruct (_command_queue self) as [| c q] eqn:Hq.
    + exists None, self. split; [reflexivity |].
      split; [split; auto |]. split; [auto | discriminate].
    + exists (Some c), (with_queue q self). split; [reflexivity |].
      split.
      { split; [discriminate |]. intros [Hneg | Hnil]; [| discriminate].
        exfalso. apply (Qlt_irrefl 0). eapply Qlt_trans; eassumption. }
      split; [discriminate |]. intros c' E. injection E as <-. now repeat split.
Qed.

(** X3. [has_command] says whether a [get_command] with no timeout returns
    at once: it is true exactly when that call returns a command, false
    exactly when the call waits, and true after every [put_command]. *)
Theorem has_command_iff_get_does_not_wait (self : t) :
  (has_command self = true
   <-> exists c self', get_command None self = Returns (Some c, self'))
  /\ (has_command self = false <-> get_command None self = Blocks)
  /\ (forall c, has_command (put_command c self) = true).
Proof.
  unfold has_command, get_command.
  split; [| split].
  - destruct (_command_queue self) as [| c q]; simpl; split.
    + discriminate.
    + intros (c & self' & H). discriminate.
    + eauto.
    + reflexivity.
  - destruct (_command_queue self) as [| c q]; simpl; split;
      try reflexivity; discriminate.
  - intros c. unfold put_command. simpl.
    now destruct (_command_queue self).
Qed.

(** The frame functions only add objects to the heap. *)
Lemma ndarray_copy_keeps (a : loc) (h h' : heap) (a' : loc) :
  ndarray_copy a h = Ok (a', h') ->
  forall b d, h !! b = Some d -> h' !! b = Some d.
Proof.
  unfold ndarray_copy. destruct (h !! a) as [d0 |] eqn:Ha; [| discriminate].
  intros E b d Hb. injection E as <- <-.
  rewrite lookup_insert_ne; [exact Hb |].
  intros Eb. pose proof (is_fresh (dom h)) as Hf. rewrite Eb in Hf.
  apply Hf. apply elem_of_dom. eauto.
Qed.

(** X4. The bus holds the latest frame only: after [set_frame(F1)] and then
    [set_frame(F2)], [get_frame()] returns a copy of what [F2] held.  The
    queue and the flags are as before, no object that was in the heap has
    changed, and [set_frame(None)] clears the frame: [get_frame()] then
    returns [None]. *)
Theorem latest_frame_wins
        (h : heap) (self : t) (F1 F2 : loc) (d1 d2 : ndarray) :
  h !! F1 = Some d1 ->
  h !! F2 = Some d2 ->
  exists h1 self1 h2 self2 r h3,
    set_frame (Some F1) h self = Ok (h1, self1)
    /\ set_frame (Some F2) h1 self1 = Ok (h2, self2)
    /\ get_frame h2 self2 = Ok (Some r, h3)
    /\ h3 !! r = Some d2
    /\ _command_queue self2 = _command_queue self
    /\ _running self2 = _running self
    /\ _tracking_enabled self2 = _tracking_enabled self
    /\ (forall b d, h !! b = Some d -> h3 !! b = Some d)
    /\ (exists self3,
           set_frame None h2 self2 = Ok (h2, self3)
           /\ get_frame h2 self3 = Ok (None, h2)).
Proof.
  intros H1 H2.
  destruct (ndarray_copy_spec F1 h d1 H1) as (a1 & Hc1 & Ha1 & _).
  assert (H2' : <[a1 := d1]> h !! F2 = Some d2).
  { rewrite lookup_insert_ne; [exact H2 |].
    intros E. apply Ha1. rewrite E. apply elem_of_dom. eauto. }
  destruct (ndarray_copy_spec F2 _ d2 H2') as (a2 & Hc2 & Ha2 & _).
  set (h1 := <[a1 := d1]> h) in *.
  set (h2 := <[a2 := d2]> h1) in *.
  destruct (get_frame_spec h2 (with_frame (Some a2) (with_frame (Some a1) self))
              a2 d2 eq_refl) as (r & Hget & Hr & _).
  { apply lookup_insert_eq. }
  exists h1, (with_frame (Some a1) self), h2,
    (with_frame (Some a2) (with_frame (Some a1) self)), r, (<[r := d2]> h2).
  split. { unfold set_frame. now rewrite Hc1. }
  split. { unfold set_frame. now rewrite Hc2. }
  split; [exact Hget |].
  split; [apply lookup_insert_eq |].
  split; [reflexivity |]. split; [reflexivity |]. split; [reflexivity |].
  split.
  - intros b d Hb.
    assert (Hb1 : h1 !! b = Some d).
    { unfold h1. rewrite lookup_insert_ne; [exact Hb |].
      intros E. apply Ha1. rewrite E. apply elem_of_dom. eauto. }
    assert (Hb2 : h2 !! b = Some d).
    { unfold h2. rewrite lookup_insert_ne; [exact Hb1 |].
      intros E. apply Ha2. rewrite E. apply elem_of_dom. eauto. }
    rewrite lookup_insert_ne; [exact Hb2 |].
    intros E. apply Hr. rewrite E. apply elem_of_dom. eauto.
  - eexists. split; reflexivity.
Qed.

(** X5. Every [get_frame()] hands out an object of its own: two calls in a
    row return two different references, both holding the frame of the bus,
    and writing into the first changes neither the second nor the frame of
    the bus. *)
Theorem readers_get_separate_copies
        (h : heap) (self : t) (a : loc) (d : ndarray) :
  _frame self = Some a ->
  h !! a = Some d ->
  exists r1 h1 r2 h2,
    get_frame h self = Ok (Some r1, h1)
    /\ get_frame h1 self = Ok (Some r2, h2)
    /\ r1 <> r2 /\ r1 <> a /\ r2 <> a
    /\ h2 !! r1 = Some d /\ h2 !! r2 = Some d
    /\ (forall d', <[r1 := d']> h2 !! r2 = Some d
                   /\ <[r1 := d']> h2 !! a = Some d).
Proof.
  intros Hf Ha.
  destruct (get_frame_spec h self a d Hf Ha) as (r1 & Hg1 & Hr1 & Hr1a).
  assert (Ha1 : <[r1 := d]> h !! a = Some d).
  { rewrite lookup_insert_ne; [exact Ha | exact Hr1a]. }
  destruct (get_frame_spec _ self a d Hf Ha1) as (r2 & Hg2 & Hr2 & Hr2a).
  assert (Hne : r1 <> r2).
  { intros E. apply Hr2. rewrite <- E. apply elem_of_dom. exists d.
    apply lookup_insert_eq. }
  exists r1, (<[r1 := d]> h), r2, (<[r2 := d]> (<[r1 := d]> h)).
  split; [exact Hg1 |]. split; [exact Hg2 |].
  split; [exact Hne |]. split; [exact Hr1a |]. split; [exact Hr2a |].
  split. { rewrite lookup_insert_ne by congruence. apply lookup_insert_eq. }
  split; [apply lookup_insert_eq |].
  intros d'. split.
  - rewrite lookup_insert_ne by exact Hne. apply lookup_insert_eq.
  - rewrite lookup_insert_ne by exact Hr1a.
    rewrite lookup_insert_ne by exact Hr2a. exact Ha1.
Qed.

End StateBusMore.

(** ** The actuator controller: sequences of calls *)

Section ActuatorMore.
Import MotorControl MotorCalls.

(** [control_motors] in closed form. *)
Lemma control_motors_available (dx dy : Z) (s : state) :
  MOTOR_AVAILABLE s = true ->
  control_motors dx dy s
  = Ok {| MOTOR_AVAILABLE := true;
          motor1 := driven (motor1 s) (horizontal_throttle dx);
          motor2 := driven (motor2 s) (vertical_throttle dy);
          stdout := stdout s |}.
Proof.
  intros Hav. unfold control_motors, horizontal_throttle, vertical_throttle.
  rewrite Hav. simpl negb. cbv iota.
  destruct (motor1 s), (motor2 s); simpl;
    destruct (dx >? DEAD_ZONE), (dx <? - DEAD_ZONE),
      (dy >? DEAD_ZONE), (dy <? - DEAD_ZONE); reflexivity.
Qed.

Lemma control_motors_unavailable (dx dy : Z) (s : state) :
  MOTOR_AVAILABLE s = false -> control_motors dx dy s = Ok s.
Proof. intros Hav. unfold control_motors. now rewrite Hav. Qed.

Lemma driven_driven (m : option DCMotor) (v v' : Q) :
  driven (driven m v') v = driven m v.
Proof. now destruct m. Qed.

Lemma coherent_driven (s : state) (v1 v2 : Q) (out : list string) :
  MOTOR_AVAILABLE s = true ->
  coherent s = true ->
  coherent {| MOTOR_AVAILABLE := true; motor1 := driven (motor1 s) v1;
              motor2 := driven (motor2 s) v2; stdout := out |} = true.
Proof.
  unfold coherent. intros ->. simpl.
  now destruct (motor1 s), (motor2 s).
Qed.

(** X6. [control_motors] keeps no memory and prints nothing: the motors after
    a call are those the offsets of that call alone determine, whatever call
    came before, so that a call repeated with the same offsets changes
    nothing any more. *)
Theorem control_motors_last_call_wins (s : state) (dx dy dx' dy' : Z) :
  exists s1 s2,
    control_motors dx' dy' s = Ok s1
    /\ control_motors dx dy s = Ok s2
    /\ control_motors dx dy s1 = Ok s2
    /\ control_motors dx dy s2 = Ok s2
    /\ stdout s2 = stdout s.
Proof.
  destruct (MOTOR_AVAILABLE s) eqn:Hav.
  - rewrite !(control_motors_available _ _ s Hav).
    eexists; eexists. split; [reflexivity |]. split; [reflexivity |].
    rewrite !control_motors_available by reflexivity. simpl.
    rewrite !driven_driven. repeat split.
  - rewrite !(control_motors_unavailable _ _ s Hav).
    exists s, s. rewrite !(control_motors_unavailable _ _ s Hav).
    repeat split.
Qed.

Lemma perform_coherent (c : VisionTracker.call) (s : state) :
  coherent s = true ->
  exists s', perform c s = Ok s'
             /\ coherent s' = true
             /\ MOTOR_AVAILABLE s' = MOTOR_AVAILABLE s
             /\ stopped (motor1 s') = stopped (motor1 s)
             /\ stopped (motor2 s') = stopped (motor2 s).
Proof.
  intros Hco. destruct (MOTOR_AVAILABLE s) eqn:Hav.
  - destruct c as [dx dy |]; simpl.
    + rewrite (control_motors_available dx dy s Hav).
      eexists. split; [reflexivity |].
      split; [now apply coherent_driven |]. simpl.
      split; [reflexivity |]. now destruct (motor1 s), (motor2 s).
    + rewrite (stop_motors_available s Hav).
      eexists. split; [reflexivity |]. simpl.
      split.
      * unfold coherent in *. rewrite Hav in Hco. simpl.
        now destruct (motor1 s), (motor2 s).
      * split; [reflexivity |]. now rewrite !stopped_stopped.
  - exists s. destruct c as [dx dy |]; simpl.
    + rewrite (control_motors_unavailable dx dy s Hav). now repeat split.
    + rewrite (stop_motors_unavailable s Hav). now repeat split.
Qed.

Lemma perform_all_coherent (cs : list VisionTracker.call) (s : state) :
  coherent s = true ->
  exists s', perform_all cs s = Ok s'
             /\ coherent s' = true
             /\ MOTOR_AVAILABLE s' = MOTOR_AVAILABLE s
             /\ stopped (motor1 s') = stopped (motor1 s)
             /\ stopped (motor2 s') = stopped (motor2 s).
Proof.
  revert s. induction cs as [| c cs IH]; intros s Hco.
  - exists s. now repeat split.
  - destruct (perform_coherent c s Hco) as (s1 & Hrun & Hco1 & Hav1 & Ha & Hb).
    destruct (IH s1 Hco1) as (s' & Hrun' & Hco' & Hav' & Ha' & Hb').
    exists s'. simpl. rewrite Hrun. simpl.
    split; [exact Hrun' |]. split; [exact Hco' |].
    repeat split; congruence.
Qed.

(** X7. The availability flag and the handles stay in step.  After the
    import-time initialisation, with or without a kit, the flag is set
    exactly when both motors are there; any sequence of [control_motors] and
    [stop_motors] calls from such a state returns, leaves the flag as it
    was, and neither adds nor loses a motor. *)
Theorem availability_matches_handles
        (kit : string + DCMotor * DCMotor) (cs : list VisionTracker.call)
        (s : state) :
  coherent (module_init kit) = true
  /\ (coherent s = true ->
      exists s',
        perform_all cs s = Ok s'
        /\ coherent s' = true
        /\ MOTOR_AVAILABLE s' = MOTOR_AVAILABLE s
        /\ is_not_None (motor1 s') = is_not_None (motor1 s)
        /\ is_not_None (motor2 s') = is_not_None (motor2 s)).
Proof.
  split.
  - destruct kit as [e | [m1 m2]]; reflexivity.
  - intros Hco.
    destruct (perform_all_coherent cs s Hco) as (s' & Hrun & Hco' & Hav & Ha & Hb).
    exists s'. split; [exact Hrun |]. split; [exact Hco' |].
    split; [exact Hav |].
    split; [destruct (motor1 s'), (motor1 s) | destruct (motor2 s'), (motor2 s)];
      simpl in *; congruence.
Qed.

Lemma script_control_motors_available (dx dy : Z) (s : state) :
  MOTOR_AVAILABLE s = true ->
  FaceTracker.control_motors dx dy s
  = Ok {| MOTOR_AVAILABLE := true;
          motor1 := driven (motor1 s)
                      (if dx >? 50 then - FaceTracker.MOTOR_SPEED
                       else if dx <? - (50) then FaceTracker.MOTOR_SPEED else 0);
          motor2 := driven (motor2 s)
                      (if dy >? 50 then FaceTracker.MOTOR_SPEED
                       else if dy <? - (50) then - FaceTracker.MOTOR_SPEED else 0);
          stdout := stdout s |}.
Proof.
  intros Hav. unfold FaceTracker.control_motors, FaceTracker.DEAD_ZONE.
  rewrite Hav. simpl negb. cbv iota.
  destruct (motor1 s), (motor2 s); simpl;
    destruct (dx >? 50), (dx <? - (50)), (dy >? 50), (dy <? - (50)); reflexivity.
Qed.

(** X8. The stand-alone script drives the motors in the same directions as
    the module: for every state and every offset its [control_motors]
    leaves each axis at the same drive value (reverse, stop or forward) as
    the module's, and with the hardware available at 0.7 of the module's
    throttle; its [stop_motors] leaves the same motors as the module's and
    prints nothing. *)
Theorem face_tracker_script_same_directions (s : state) (dx dy : Z) :
  exists s1 s2 s3 s4,
    control_motors dx dy s = Ok s1
    /\ FaceTracker.control_motors dx dy s = Ok s2
    /\ horizontal s2 = horizontal s1
    /\ vertical s2 = vertical s1
    /\ (MOTOR_AVAILABLE s = true ->
        (forall m, motor1 s2 = Some m ->
                   (throttle m == (7 # 10) * horizontal_throttle dx)%Q)
        /\ (forall m, motor2 s2 = Some m ->
                      (throttle m == (7 # 10) * vertical_throttle dy)%Q))
    /\ stop_motors s = Ok s3
    /\ FaceTracker.stop_motors s = Ok s4
    /\ motor1 s4 = motor1 s3 /\ motor2 s4 = motor2 s3
    /\ stdout s4 = stdout s.
Proof.
  destruct (MOTOR_AVAILABLE s) eqn:Hav.
  - rewrite (control_motors_available dx dy s Hav).
    rewrite (script_control_motors_available dx dy s Hav).
    rewrite (stop_motors_available s Hav).
    unfold FaceTracker.stop_motors. rewrite Hav.
    unfold horizontal, vertical, horizontal_throttle, vertical_throttle,
      DEAD_ZONE.
    destruct (motor1 s), (motor2 s); simpl;
      destruct (dx >? 50), (dx <? - (50)), (dy >? 50), (dy <? - (50));
      (do 4 eexists; repeat split; simpl;
       try (intros m E; injection E as <-; reflexivity); try discriminate).
  - rewrite (control_motors_unavailable dx dy s Hav).
    rewrite (stop_motors_unavailable s Hav).
    unfold FaceTracker.control_motors, FaceTracker.stop_motors. rewrite Hav.
    simpl. exists s, s, s, s. repeat split; discriminate.
Qed.

End ActuatorMore.

(** ** The vision loop: whole runs *)

Section VisionMore.
Import VisionTracker VisionRun MotorCalls.

Variable cvtColor : ndarray -> ndarray.
Variable detectMultiScale : ndarray -> list box.
Variable rectangle : ndarray -> Z * Z -> Z * Z -> ndarray.

Local Abbreviation loop_body := (loop_body cvtColor detectMultiScale rectangle).
Local Abbreviation while_running :=
  (while_running cvtColor detectMultiScale rectangle).
Local Abbreviation run_vision_tracker :=
  (run_vision_tracker cvtColor detectMultiScale rectangle).
Local Abbreviation annotate := (annotate cvtColor detectMultiScale rectangle).



(** What one turn does, in terms of the call it makes. *)
Lemma loop_body_turn (read : option ndarray) (w : world) :
  exists w',
    loop_body read w = Ok w'
    /\ SharedState.running (shared w') = SharedState.running (shared w)
    /\ SharedState.tracking_enabled (shared w')
       = SharedState.tracking_enabled (shared w)
    /\ SharedState._command_queue (shared w')
       = SharedState._command_queue (shared w)
    /\ match read with
       | None => w' = w
       | Some img =>
           exists c a,
             calls w' = (calls w ++ [c])%list
             /\ perform c (motors w) = Ok (motors w')
             /\ SharedState._frame (shared w') = Some a
             /\ store w' !! a = Some (annotate img)
             /\ (forall b d, store w !! b = Some d -> store w' !! b = Some d)
       end.
Proof.
  destruct read as [img |]; [| exists w; now repeat split].
  set (frame := fresh (dom (store w))).
  assert (Hold : forall b d, store w !! b = Some d -> b <> frame).
  { intros b d Hb E. pose proof (is_fresh (dom (store w))) as Hf.
    fold frame in Hf. rewrite <- E in Hf. apply Hf. apply elem_of_dom. eauto. }
  assert (Hpublish : forall (h0 : heap) (d2 : ndarray),
             h0 !! frame = Some d2 ->
             (forall b d, store w !! b = Some d -> h0 !! b = Some d) ->
             exists a,
               SharedState.set_frame (Some frame) h0 (shared w)
               = Ok (<[a := d2]> h0, SharedState.with_frame (Some a) (shared w))
               /\ forall b d, store w !! b = Some d ->
                              <[a := d2]> h0 !! b = Some d).
  { intros h0 d2 Hlive Hsub.
    destruct (set_frame_live h0 (shared w) frame d2 Hlive) as (a & Hset & Ha).
    exists a. split; [exact Hset |]. intros b d Hb.
    rewrite lookup_insert_ne; [now apply Hsub |].
    intros E. apply Ha. rewrite E. apply elem_of_dom.
    exists d. now apply Hsub. }
  assert (Hsub0 : forall d0 b d, store w !! b = Some d ->
                                 <[frame := d0]> (store w) !! b = Some d).
  { intros d0 b d Hb. rewrite lookup_insert_ne; [exact Hb |].
    intros E. now apply (Hold b d Hb). }
  unfold VisionRun.annotate, VisionTracker.loop_body. fold frame.
  destruct (detectMultiScale (cvtColor img)) as [| first rest] eqn:Hdet.
  - destruct (stop_motors_returns (motors w)) as [m Hm].
    destruct (Hpublish (<[frame := img]> (store w)) img)
      as (a & Hset & Hkeep); [apply lookup_insert_eq | apply Hsub0 |].
    rewrite Hm. cbn [bind]. rewrite Hset. cbn [bind fst snd].
    eexists. split; [reflexivity |]. simpl. repeat split.
    exists Call_stop_motors, a. simpl.
    split; [reflexivity |]. split; [exact Hm |]. split; [reflexivity |].
    split; [apply lookup_insert_eq | exact Hkeep].
  - destruct (max_from area first rest) as [[[x y] bw] bh] eqn:Hmax.
    destruct (offset (shape img) (x, y, bw, bh)) as [dx dy].
    destruct (Hpublish (<[frame := rectangle img (x, y) (x + bw, y + bh)]>
                          (<[frame := img]> (store w)))
                (rectangle img (x, y) (x + bw, y + bh)))
      as (a & Hset & Hkeep);
      [apply lookup_insert_eq
      | intros b d Hb; rewrite lookup_insert_ne;
        [now apply Hsub0 | intros E; now apply (Hold b d Hb)] |].
    destruct (SharedState.tracking_enabled (shared w)) eqn:Htr.
    + destruct (control_motors_returns dx dy (motors w)) as [m Hm].
      rewrite Hm. cbn [bind]. rewrite Hset. cbn [bind fst snd].
      eexists. split; [reflexivity |]. simpl.
      split; [reflexivity |]. split; [exact Htr |]. split; [reflexivity |].
      exists (Call_control_motors dx dy), a. simpl.
      split; [reflexivity |]. split; [exact Hm |]. split; [reflexivity |].
      split; [apply lookup_insert_eq | exact Hkeep].
    + destruct (stop_motors_returns (motors w)) as [m Hm].
      rewrite Hm. cbn [bind]. rewrite Hset. cbn [bind fst snd].
      eexists. split; [reflexivity |]. simpl.
      split; [reflexivity |]. split; [exact Htr |]. split; [reflexivity |].
      exists Call_stop_motors, a. simpl.
      split; [reflexivity |]. split; [exact Hm |]. split; [reflexivity |].
      split; [apply lookup_insert_eq | exact Hkeep].
Qed.






(** X10. A viewer sees what the loop drew.  After a turn that read a frame,
    [get_frame()] returns a new object that holds the frame as the turn left
    it: with the rectangle of the largest face when faces were found, as
    read when none was; no object that was in the heap before the turn has
    changed. *)
Theorem get_frame_after_turn_is_annotated_frame (img : ndarray) (w : world) :
  exists w' r h2,
    loop_body (Some img) w = Ok w'
    /\ SharedState.get_frame (store w') (shared w') = Ok (Some r, h2)
    /\ h2 !! r = Some (annotate img)
    /\ (detectMultiScale (cvtColor img) = [] -> annotate img = img)
    /\ (forall b d, store w !! b = Some d -> h2 !! b = Some d).
Proof.
  destruct (loop_body_turn (Some img) w)
    as (w' & Hbody & _ & _ & _ & c & a & _ & _ & Hframe & Hlive & Hkeep).
  destruct (get_frame_spec (store w') (shared w') a (annotate img) Hframe Hlive)
    as (r & Hget & Hr & _).
  exists w', r, (<[r := annotate img]> (store w')).
  split; [exact Hbody |]. split; [exact Hget |].
  split; [apply lookup_insert_eq |]. split.
  - intros Hdet. unfold VisionRun.annotate. now rewrite Hdet.
  - intros b d Hb. rewrite lookup_insert_ne; [now apply Hkeep |].
    intros E. apply Hr. rewrite E. apply elem_of_dom. exists d. now apply Hkeep.
Qed.

(** X11. The offset of a box that lies in the frame is at most half the
    frame on each axis: in a frame of width [W] and height [H] it is between
    [-(W / 2)] and [W - W / 2] horizontally and between [-(H / 2)] and
    [H - H / 2] vertically; in the 640 x 480 frames the camera is set to,
    between -320 and 320 and between -240 and 240. *)
Theorem offset_within_half_frame (H W x y bw bh : Z) :
  0 <= x -> 0 <= y -> 0 <= bw -> 0 <= bh ->
  x + bw <= W -> y + bh <= H ->
  - (W / 2) <= (offset (H, W) (x, y, bw, bh)).1 <= W - W / 2
  /\ - (H / 2) <= (offset (H, W) (x, y, bw, bh)).2 <= H - H / 2
  /\ (H = FRAME_HEIGHT -> W = FRAME_WIDTH ->
      - 320 <= (offset (H, W) (x, y, bw, bh)).1 <= 320
      /\ - 240 <= (offset (H, W) (x, y, bw, bh)).2 <= 240).
Proof.
  intros Hx Hy Hbw Hbh HW HH. unfold offset, FRAME_HEIGHT, FRAME_WIDTH. simpl.
  pose proof (Z.div_pos bw 2 Hbw ltac:(lia)) as Hw0.
  pose proof (Z.div_pos bh 2 Hbh ltac:(lia)) as Hh0.
  pose proof (Z.div_le_upper_bound bw 2 bw ltac:(lia) ltac:(lia)) as Hw1.
  pose proof (Z.div_le_upper_bound bh 2 bh ltac:(lia) ltac:(lia)) as Hh1.
  split; [lia |]. split; [lia |].
  intros -> ->. change (640 / 2) with 320. change (480 / 2) with 240. lia.
Qed.

(** X12. With the hardware available and tracking enabled, a turn that finds
    faces leaves each motor at the throttle that the offset of the largest
    face determines, and prints nothing; when the centre of that face is
    within 50 pixels of the centre of the frame on both axes, every motor is
    at throttle 0. *)
Theorem turn_drives_motors_by_offset
        (img : ndarray) (w : world) (first : box) (rest : list box)
        (x y bw bh : Z) :
  detectMultiScale (cvtColor img) = first :: rest ->
  max_from area first rest = (x, y, bw, bh) ->
  SharedState.tracking_enabled (shared w) = true ->
  MotorControl.MOTOR_AVAILABLE (motors w) = true ->
  exists w',
    loop_body (Some img) w = Ok w'
    /\ MotorControl.motor1 (motors w')
       = driven (MotorControl.motor1 (motors w))
           (horizontal_throttle (offset (shape img) (x, y, bw, bh)).1)
    /\ MotorControl.motor2 (motors w')
       = driven (MotorControl.motor2 (motors w))
           (vertical_throttle (offset (shape img) (x, y, bw, bh)).2)
    /\ MotorControl.stdout (motors w') = MotorControl.stdout (motors w)
    /\ (- 50 <= (offset (shape img) (x, y, bw, bh)).1 <= 50 ->
        - 50 <= (offset (shape img) (x, y, bw, bh)).2 <= 50 ->
        MotorControl.motor1 (motors w')
        = MotorControl.stopped (MotorControl.motor1 (motors w))
        /\ MotorControl.motor2 (motors w')
           = MotorControl.stopped (MotorControl.motor2 (motors w))).
Proof.
  intros Hdet Hmax Htr Hav.
  destruct (loop_body_face cvtColor detectMultiScale rectangle
              img w first rest x y bw bh Hdet Hmax) as (m & a & Hm & Hrun).
  rewrite Htr in Hm, Hrun.
  rewrite (control_motors_available _ _ _ Hav) in Hm. injection Hm as <-.
  eexists. split; [exact Hrun |]. simpl.
  split; [reflexivity |]. split; [reflexivity |]. split; [reflexivity |].
  intros Hdx Hdy.
  unfold horizontal_throttle, vertical_throttle, MotorControl.DEAD_ZONE.
  destruct (Z.gtb_spec (offset (shape img) (x, y, bw, bh)).1 50); [lia |].
  destruct (Z.ltb_spec (offset (shape img) (x, y, bw, bh)).1 (- (50))); [lia |].
  destruct (Z.gtb_spec (offset (shape img) (x, y, bw, bh)).2 50); [lia |].
  destruct (Z.ltb_spec (offset (shape img) (x, y, bw, bh)).2 (- (50))); [lia |].
  now destruct (MotorControl.motor1 (motors w)), (MotorControl.motor2 (motors w)).
Qed.

End VisionMore.

(** ** The command parser: normal forms *)

Section ParserMore.
Import PyStr VoiceRules VoiceCommands.

Lemma lower_char_idempotent (c : ascii) : lower_char (lower_char c) = lower_char c.
Proof.
  destruct c as [b0 b1 b2 b3 b4 b5 b6 b7].
  destruct b0, b1, b2, b3, b4, b5, b6, b7; reflexivity.
Qed.

Lemma isspace_lower_char (c : ascii) : isspace (lower_char c) = isspace c.
Proof.
  destruct c as [b0 b1 b2 b3 b4 b5 b6 b7].
  destruct b0, b1, b2, b3, b4, b5, b6, b7; reflexivity.
Qed.

Lemma lower_idempotent (s : string) : lower (lower s) = lower s.
Proof.
  induction s as [| c s IH]; simpl; [reflexivity |].
  now rewrite lower_char_idempotent, IH.
Qed.

Lemma lower_lstrip (s : string) : lower (lstrip s) = lstrip (lower s).
Proof.
  induction s as [| c s IH]; simpl; [reflexivity |].
  rewrite isspace_lower_char. now destruct (isspace c).
Qed.

Lemma lower_rstrip (s : string) : lower (rstrip s) = rstrip (lower s).
Proof.
  induction s as [| c s IH]; simpl; [reflexivity |].
  rewrite <- IH, isspace_lower_char.
  destruct (rstrip s) as [| c' r]; simpl; [| reflexivity].
  now destruct (isspace c).
Qed.

Lemma lower_strip (s : string) : lower (strip s) = strip (lower s).
Proof. unfold strip. now rewrite lower_rstrip, lower_lstrip. Qed.

Lemma rstrip_idempotent (s : string) : rstrip (rstrip s) = rstrip s.
Proof.
  induction s as [| c s IH]; simpl; [reflexivity |].
  destruct (rstrip s) as [| c' r] eqn:Hr.
  - destruct (isspace c) eqn:Hc; simpl; [reflexivity |]. now rewrite Hc.
  - simpl in IH |- *. now rewrite IH.
Qed.

Lemma lstrip_starts_clean (s : string) : starts_clean (lstrip s).
Proof.
  induction s as [| c s IH]; simpl; [exact I |].
  destruct (isspace c) eqn:Hc; [exact IH | exact Hc].
Qed.

Lemma lstrip_clean (s : string) : starts_clean s -> lstrip s = s.
Proof. destruct s as [| c s]; simpl; [reflexivity |]. now intros ->. Qed.

Lemma rstrip_starts_clean (s : string) : starts_clean s -> starts_clean (rstrip s).
Proof.
  destruct s as [| c s]; simpl; [exact id |]. intros Hc.
  destruct (rstrip s); [rewrite Hc |]; exact Hc.
Qed.

Lemma strip_idempotent (s : string) : strip (strip s) = strip s.
Proof.
  unfold strip.
  rewrite (lstrip_clean (rstrip (lstrip s))).
  - apply rstrip_idempotent.
  - apply rstrip_starts_clean, lstrip_starts_clean.
Qed.

(** X13. [parse_command] reads its input in normal form: lower-casing and
    trimming a text that is lower-cased and trimmed changes nothing, and
    parsing the lower-cased text, the trimmed text or both gives the same
    command as parsing the text. *)
Theorem parse_command_of_normal_form (text : string) :
  strip (lower (strip (lower text))) = strip (lower text)
  /\ parse_command (strip (lower text)) = parse_command text
  /\ parse_command (lower text) = parse_command text
  /\ parse_command (strip text) = parse_command text.
Proof.
  assert (H1 : strip (lower (strip (lower text))) = strip (lower text)).
  { now rewrite lower_strip, lower_idempotent, strip_idempotent. }
  assert (H2 : strip (lower (lower text)) = strip (lower text)).
  { now rewrite lower_idempotent. }
  assert (H3 : strip (lower (strip text)) = strip (lower text)).
  { now rewrite lower_strip, strip_idempotent. }
  split; [exact H1 |].
  unfold parse_command. now rewrite H1, H2, H3.
Qed.

Lemma prefix_split (p t : string) :
  String.prefix p t = true -> exists rest, t = p +:+ rest.
Proof.
  revert t. induction p as [| c p IH]; intros t H.
  - exists t. reflexivity.
  - destruct t as [| c' t]; simpl in H; [discriminate |].
    destruct (ascii_dec c c') as [<- |]; [| discriminate].
    destruct (IH t H) as [rest ->]. exists rest. reflexivity.
Qed.

Lemma prefix_nil (s : string) : String.prefix "" s = true.
Proof. now destruct s. Qed.

Lemma in_list_In (t : string) (l : list string) :
  in_list t l = true -> In t l.
Proof.
  unfold in_list. intros H. apply existsb_exists in H as (x & Hin & Hx).
  apply String.eqb_eq in Hx. now subst.
Qed.

Lemma re_match_alt_split (alts : list string) (t : string) :
  re_match_alt alts t = true -> exists p rest, In p alts /\ t = p +:+ rest.
Proof.
  unfold re_match_alt, startswith. intros H.
  apply existsb_exists in H as (p & Hin & Hp).
  destruct (prefix_split p t Hp) as [rest ->]. eauto.
Qed.

Lemma append_nil_r (t : string) : t +:+ "" = t.
Proof.
  induction t as [| c t IH]; [reflexivity |].
  change (String c t +:+ "") with (String c (t +:+ "")). now rewrite IH.
Qed.

(** The texts a rule applies to: a phrase of the rule, followed by anything
    when the rule only tests the beginning of the text. *)
Lemma applies_shape (r : rule) (t : string) :
  applies r t = true ->
  exists p rest,
    In p (phrases r) /\ t = p +:+ rest /\ (whole_text r = true -> rest = "").
Proof.
  intros H.
  destruct r; unfold applies in H; simpl phrases; simpl whole_text.
  1, 3, 4: apply in_list_In in H; exists t, "";
    split; [exact H |]; split; [now rewrite append_nil_r | reflexivity].
  - unfold startswith in H. destruct (prefix_split _ _ H) as [rest ->].
    exists "play", rest. split; [now left |]. split; [reflexivity | discriminate].
  - apply re_match_alt_split in H as (p & rest & Hin & ->).
    exists p, rest. split; [exact Hin |]. split; [reflexivity | discriminate].
  - apply re_match_alt_split in H as (p & rest & Hin & ->).
    exists p, rest. split; [exact Hin |]. split; [reflexivity | discriminate].
  - apply re_match_alt_split in H as (p & rest & Hin & ->).
    exists p, rest. split; [exact Hin |]. split; [reflexivity | discriminate].
  - apply re_match_alt_split in H as (p & rest & Hin & ->).
    exists p, rest. split; [exact Hin |]. split; [reflexivity | discriminate].
Qed.

Ltac phrase_cases Hin :=
  simpl in Hin; repeat (destruct Hin as [<- | Hin]); try contradiction.

(** [parse_command] as the chain of its rules. *)
Lemma parse_command_chain (text : string) :
  parse_command text
  = let t := strip (lower text) in
    if negb (truthy t) then None
    else if applies Greeting t then Some (emits Greeting t)
    else if applies Play t then Some (emits Play t)
    else if applies Pause t then Some (emits Pause t)
    else if applies Stop t then Some (emits Stop t)
    else if applies Volume_up t then Some (emits Volume_up t)
    else if applies Volume_down t then Some (emits Volume_down t)
    else if applies Tracking_on t then Some (emits Tracking_on t)
    else if applies Tracking_off t then Some (emits Tracking_off t)
    else None.
Proof. reflexivity. Qed.

Lemma applies_exclusive (r r' : rule) (t : string) :
  applies r t = true -> applies r' t = true -> r = r'.
Proof.
  intros H H'.
  destruct (applies_shape r t H) as (p & rest & Hin & -> & Hwhole).
  destruct r; simpl in Hwhole; try (rewrite (Hwhole eq_refl) in * );
    phrase_cases Hin;
    cbv beta iota fix delta [String.append] in H';
    destruct r'; try reflexivity; cbn in H'; discriminate.
Qed.

Lemma applies_nonempty (r : rule) (t : string) :
  applies r t = true -> truthy t = true.
Proof.
  intros H. destruct t; [| reflexivity]. destruct r; discriminate.
Qed.

Lemma applies_parse (r : rule) (text : string) :
  applies r (strip (lower text)) = true ->
  parse_command text = Some (emits r (strip (lower text))).
Proof.
  intros H. rewrite parse_command_chain. cbv zeta.
  rewrite (applies_nonempty _ _ H). simpl negb. cbv iota.
  assert (Hother : forall r', r' <> r -> applies r' (strip (lower text)) = false).
  { intros r' Hne. destruct (applies r' (strip (lower text))) eqn:H'; [| reflexivity].
    exfalso. apply Hne. exact (applies_exclusive _ _ _ H' H). }
  destruct r; rewrite ?H;
    repeat (rewrite Hother by discriminate); reflexivity.
Qed.

Lemma parse_some_rule (text : string) (c : command) :
  parse_command text = Some c ->
  exists r, applies r (strip (lower text)) = true
            /\ c = emits r (strip (lower text)).
Proof.
  rewrite parse_command_chain. cbv zeta.
  destruct (negb (truthy (strip (lower text)))); [discriminate |].
  destruct (applies Greeting _) eqn:H1; [intros E; injection E as <-; eauto |].
  destruct (applies Play _) eqn:H2; [intros E; injection E as <-; eauto |].
  destruct (applies Pause _) eqn:H3; [intros E; injection E as <-; eauto |].
  destruct (applies Stop _) eqn:H4; [intros E; injection E as <-; eauto |].
  destruct (applies Volume_up _) eqn:H5; [intros E; injection E as <-; eauto |].
  destruct (applies Volume_down _) eqn:H6; [intros E; injection E as <-; eauto |].
  destruct (applies Tracking_on _) eqn:H7; [intros E; injection E as <-; eauto |].
  destruct (applies Tracking_off _) eqn:H8; [intros E; injection E as <-; eauto |].
  discriminate.
Qed.

(** X14. The rules of [parse_command] do not overlap, so their order does
    not matter: on the lower-cased, trimmed text at most one rule applies;
    [parse_command] returns the dictionary of the rule that applies, and
    [None] exactly when no rule does (the empty text is such a text). *)
Theorem parse_command_follows_the_one_rule (text : string) :
  (forall r r',
      applies r (strip (lower text)) = true ->
      applies r' (strip (lower text)) = true -> r = r')
  /\ (forall r,
         applies r (strip (lower text)) = true ->
         parse_command text = Some (emits r (strip (lower text))))
  /\ (forall c,
         parse_command text = Some c ->
         exists r, applies r (strip (lower text)) = true
                   /\ c = emits r (strip (lower text)))
  /\ (parse_command text = None
      <-> forall r, applies r (strip (lower text)) = false)
  /\ (forall r, applies r "" = false).
Proof.
  split; [intros r r'; apply applies_exclusive |].
  split; [intros r; apply applies_parse |].
  split; [intros c; apply parse_some_rule |].
  split; [| intros r; now destruct r].
  split.
  - intros Hnone r.
    destruct (applies r (strip (lower text))) eqn:H; [| reflexivity].
    rewrite (applies_parse r text H) in Hnone. discriminate.
  - intros Hall. destruct (parse_command text) as [c |] eqn:Hc; [| reflexivity].
    destruct (parse_some_rule text c Hc) as (r & Hr & _).
    rewrite Hall in Hr. discriminate.
Qed.

Lemma emits_well_formed (r : rule) (t : string) :
  well_formed (emits r t) = true /\ emits r t <> ∅.
Proof.
  split.
  - destruct r; try (vm_compute; reflexivity).
    unfold emits, well_formed.
    rewrite lookup_insert_eq.
    rewrite lookup_insert_ne by discriminate. rewrite lookup_insert_eq.
    rewrite !lookup_insert_ne by discriminate. rewrite lookup_singleton_eq.
    assert (Hs : strip (strip (slice_from 4 t)) = strip (slice_from 4 t))
      by apply strip_idempotent.
    remember (strip (slice_from 4 t)) as q eqn:Eq. clear Eq. simpl.
    destruct (truthy q) eqn:Hq; [| reflexivity].
    rewrite Hq, Hs. simpl. apply String.eqb_refl.
  - intros E. apply (f_equal (fun m : command => m !! "type")) in E.
    rewrite lookup_empty in E.
    destruct r; unfold emits in E; rewrite lookup_insert_eq in E; discriminate.
Qed.

(** X15. Every command [parse_command] returns has the shape the router and
    the player rely on: a known pair of type and action; a ['query'] key on
    play commands only, which holds [None] or a string that is not empty and
    has no white space at either end; and it is not the empty dictionary,
    which Python would treat as false. *)
Theorem parse_command_returns_well_formed (text : string) (c : command) :
  parse_command text = Some c ->
  well_formed c = true /\ c <> ∅.
Proof.
  intros H. destruct (parse_some_rule text c H) as (r & _ & ->).
  apply emits_well_formed.
Qed.

End ParserMore.

(** ** The voice thread: microphone and callback *)

Section VoiceThreadMore.
Import PyStr VoiceRules VoiceCommands VoiceThread.

Lemma first_usb_microphone_spec (devices : list device) (i : Z) :
  match first_usb_microphone i devices with
  | Some (j, d) =>
      exists pre post,
        devices = (pre ++ d :: post)%list
        /\ j = i + Z.of_nat (length pre)
        /\ is_usb_microphone d = true
        /\ Forall (fun d' => is_usb_microphone d' = false) pre
  | None => Forall (fun d' => is_usb_microphone d' = false) devices
  end.
Proof.
  revert i. induction devices as [| d rest IH]; intros i; simpl.
  - constructor.
  - destruct (is_usb_microphone d) eqn:Hd.
    + exists [], rest. simpl. repeat split; [lia | exact Hd | constructor].
    + specialize (IH (i + 1)).
      destruct (first_usb_microphone (i + 1) rest) as [[j d'] |].
      * destruct IH as (pre & post & -> & -> & Hd' & Hpre).
        exists (d :: pre), post. simpl length.
        repeat split; [lia | exact Hd' | now constructor].
      * now constructor.
Qed.

(** X16. [find_usb_microphone] returns the index of the first device that
    has input channels and whose lower-cased name contains one of the six
    keywords; when no device is such a device it returns the default input
    device, which may be [None]; without sounddevice it returns [None]. *)
Theorem find_usb_microphone_takes_first
        (devices : list device) (default_input : option Z) :
  (forall pre d post,
      devices = (pre ++ d :: post)%list ->
      is_usb_microphone d = true ->
      Forall (fun d' => is_usb_microphone d' = false) pre ->
      (find_usb_microphone true devices default_input).1
      = Some (Z.of_nat (length pre)))
  /\ (Forall (fun d' => is_usb_microphone d' = false) devices ->
      (find_usb_microphone true devices default_input).1 = default_input)
  /\ (forall i,
         (find_usb_microphone true devices default_input).1 = Some i ->
         default_input = Some i
         \/ exists d, devices !! Z.to_nat i = Some d
                      /\ 0 <= i
                      /\ max_input_channels d > 0
                      /\ exists k, In k keywords
                                   /\ contains (lower (device_name d)) k = true)
  /\ find_usb_microphone false devices default_input = (None, []).
Proof.
  unfold find_usb_microphone. simpl negb. cbv iota.
  pose proof (first_usb_microphone_spec devices 0) as Hspec.
  split; [| split; [| split; [| reflexivity]]].
  - intros pre d post -> Hd Hpre.
    destruct (first_usb_microphone 0 (pre ++ d :: post)) as [[j d'] |].
    + destruct Hspec as (pre' & post' & Heq & -> & Hd' & Hpre'). simpl.
      f_equal.
      assert (Hlen : forall (l1 l2 : list device) x1 x2 r1 r2,
                 (l1 ++ x1 :: r1 = l2 ++ x2 :: r2)%list ->
                 is_usb_microphone x1 = true -> is_usb_microphone x2 = true ->
                 Forall (fun d' => is_usb_microphone d' = false) l1 ->
                 Forall (fun d' => is_usb_microphone d' = false) l2 ->
                 length l1 = length l2).
      { induction l1 as [| a l1 IHl]; intros [| b l2] x1 x2 r1 r2 E H1 H2 F1 F2;
          simpl in E; injection E as E1 E2; try reflexivity.
        - subst. inversion F2; congruence.
        - subst. inversion F1; congruence.
        - simpl. f_equal. inversion F1; inversion F2; subst.
          eapply IHl; eauto. }
      rewrite (Hlen pre pre' d d' post post' Heq Hd Hd' Hpre Hpre'). lia.
    + exfalso. apply Forall_app in Hspec as [_ Hspec].
      inversion Hspec; congruence.
  - intros Hnone.
    destruct (first_usb_microphone 0 devices) as [[j d'] |].
    + exfalso. destruct Hspec as (pre & post & -> & _ & Hd & _).
      apply Forall_app in Hnone as [_ Hnone]. inversion Hnone; congruence.
    + now destruct default_input.
  - intros i Hi.
    destruct (first_usb_microphone 0 devices) as [[j d'] |].
    + destruct Hspec as (pre & post & -> & -> & Hd & _).
      simpl in Hi. injection Hi as <-. right. exists d'.
      split.
      { replace (Z.to_nat (0 + Z.of_nat (length pre))) with (length pre) by lia.
        apply list_lookup_middle. reflexivity. }
      split; [lia |].
      unfold is_usb_microphone in Hd. apply andb_true_iff in Hd as [Hc Hk].
      split; [now apply Z.gtb_lt in Hc; lia |].
      apply existsb_exists in Hk as (k & Hin & Hk). eauto.
    + left. destruct default_input; simpl in Hi; congruence.
Qed.

Section WithRepr.

Variable repr : command -> string.

Lemma audio_callback_bus (status accepted : option string)
      (bus : SharedState.t) (out : list string) :
  (_audio_callback repr status accepted (bus, out)).1
  = match accepted ≫= parse_command with
    | Some c => SharedState.put_command c bus
    | None => bus
    end.
Proof.
  unfold _audio_callback. destruct accepted as [text |]; [| reflexivity].
  simpl. destruct text as [| a text]; [reflexivity |]. simpl truthy. cbv iota.
  destruct (parse_command (String a text)) as [c |] eqn:Hc; [| reflexivity].
  destruct (parse_some_rule _ _ Hc) as (r & _ & ->).
  destruct (emits_well_formed r (strip (lower (String a text)))) as [_ Hne].
  now rewrite bool_decide_eq_false_2.
Qed.

(** X17. The callback puts on the bus exactly the commands that
    [parse_command] finds in the final results of the recogniser, in the
    order of the audio blocks: blocks with no final result, with an empty
    text or with a text that is no command add nothing.  From a bus whose
    queue was empty, as many [get_command] calls then return these commands
    in that order. *)
Theorem hear_enqueues_parsed_commands
        (blocks : list (option string * option string))
        (bus : SharedState.t) (out : list string) :
  (hear repr blocks (bus, out)).1
  = SharedState.put_commands (omap (fun b => b.2 ≫= parse_command) blocks) bus
  /\ (forall timeout,
         SharedState.valid_timeout timeout ->
         SharedState._command_queue bus = [] ->
         SharedState.get_commands timeout
           (length (omap (fun b => b.2 ≫= parse_command) blocks))
           (hear repr blocks (bus, out)).1
         = SharedState.Returns
             (map Some (omap (fun b => b.2 ≫= parse_command) blocks), bus)).
Proof.
  assert (Hst : forall blocks st,
             (hear repr blocks st).1
             = SharedState.put_commands
                 (omap (fun b => b.2 ≫= parse_command) blocks) st.1).
  { clear.
    induction blocks as [| [status accepted] blocks IH]; intros [bus out].
    - reflexivity.
    - change (hear repr ((status, accepted) :: blocks) (bus, out))
        with (hear repr blocks (_audio_callback repr status accepted (bus, out))).
      rewrite IH, audio_callback_bus. simpl omap.
      now destruct (accepted ≫= parse_command). }
  assert (Hbus : (hear repr blocks (bus, out)).1
                 = SharedState.put_commands
                     (omap (fun b => b.2 ≫= parse_command) blocks) bus)
    by apply (Hst blocks (bus, out)).
  split; [exact Hbus |].
  intros timeout Hv Hq. rewrite Hbus.
  pose proof (put_then_get_commands timeout
                (omap (fun b => b.2 ≫= parse_command) blocks) bus Hv) as H.
  rewrite Hq in H. simpl in H. rewrite H. f_equal. f_equal.
  destruct bus; simpl in *; now subst.
Qed.

End WithRepr.

End VoiceThreadMore.

(** ** The router *)

Section RouterMore.
Import PyStr VoiceRules VoiceCommands Router.

(** X18. Every command of the parser reaches its handler.  For a command
    that [parse_command] returns, [dispatch] starts a greeting, sets or
    clears the tracking flag, or hands the player's queue one message: the
    action with its query for play, pause and stop, [volume_up] or
    [volume_down] for the volume commands.  The message carries an action
    the player knows; without a player queue nothing is forwarded; the
    command queue of the bus and the running flag are not touched. *)
Theorem parsed_commands_reach_their_handler
        (text : string) (c : command) (s : Router.t) :
  VoiceCommands.parse_command text = Some c ->
  exists r,
    applies r (strip (lower text)) = true
    /\ dispatch c s
       = match r with
         | Greeting =>
             {| shared := shared s; music_cmd_queue := music_cmd_queue s;
                greetings := S (greetings s); stdout := stdout s |}
         | Play =>
             forward {[ "action" := PyS "play"; "query" := get c "query" ]} s
         | Pause => forward {[ "action" := PyS "pause"; "query" := PyNone ]} s
         | Stop => forward {[ "action" := PyS "stop"; "query" := PyNone ]} s
         | Volume_up => forward {[ "action" := PyS "volume_up" ]} s
         | Volume_down => forward {[ "action" := PyS "volume_down" ]} s
         | Tracking_on => set_tracking true ">>> Tracking enabled" s
         | Tracking_off => set_tracking false ">>> Tracking disabled" s
         end
    /\ (forall q,
           music_cmd_queue s = Some q ->
           music_cmd_queue (dispatch c s) = Some q
           \/ exists m, music_cmd_queue (dispatch c s) = Some (q ++ [m])%list
                        /\ Playback.known_action m = true)
    /\ (music_cmd_queue s = None -> music_cmd_queue (dispatch c s) = None)
    /\ SharedState._command_queue (shared (dispatch c s))
       = SharedState._command_queue (shared s)
    /\ SharedState.running (shared (dispatch c s))
       = SharedState.running (shared s).
Proof.
  intros H. destruct (parse_some_rule text c H) as (r & Hr & ->).
  exists r. split; [exact Hr |].
  remember (strip (lower text)) as t eqn:Et. clear Et Hr H.
  assert (Hd : dispatch (emits r t) s
               = match r with
                 | Greeting =>
                     {| shared := shared s; music_cmd_queue := music_cmd_queue s;
                        greetings := S (greetings s); stdout := stdout s |}
                 | Play =>
                     forward {[ "action" := PyS "play";
                                "query" := get (emits r t) "query" ]} s
                 | Pause => forward {[ "action" := PyS "pause"; "query" := PyNone ]} s
                 | Stop => forward {[ "action" := PyS "stop"; "query" := PyNone ]} s
                 | Volume_up => forward {[ "action" := PyS "volume_up" ]} s
                 | Volume_down => forward {[ "action" := PyS "volume_down" ]} s
                 | Tracking_on => set_tracking true ">>> Tracking enabled" s
                 | Tracking_off => set_tracking false ">>> Tracking disabled" s
                 end).
  { destruct r; reflexivity. }
  split; [exact Hd |]. rewrite Hd.
  split; [| split; [| split]].
  - intros q Hq.
    destruct r; unfold forward, set_tracking; rewrite ?Hq; simpl;
      try (left; exact Hq); try (left; reflexivity);
      right; eexists; (split; [reflexivity |]);
      unfold Playback.known_action, get;
      rewrite ?lookup_insert_eq, ?lookup_singleton_eq; reflexivity.
  - intros Hq. destruct r; unfold forward, set_tracking; rewrite ?Hq; simpl;
      try exact Hq; reflexivity.
  - destruct r; unfold forward, set_tracking;
      try destruct (music_cmd_queue s); reflexivity.
  - destruct r; unfold forward, set_tracking;
      try destruct (music_cmd_queue s); reflexivity.
Qed.

End RouterMore.

(** ** The playback engine: search and commands *)

Section PlaybackMore.
Import PyStr MusicPlayer Playback.

Variable ratio : string -> string -> Q.
Variable VLC_AVAILABLE : bool.

Local Abbreviation score := (score ratio).
Local Abbreviation find_best_match := (find_best_match ratio).
Local Abbreviation play := (play ratio VLC_AVAILABLE).
Local Abbreviation _process_command := (_process_command ratio VLC_AVAILABLE).
Local Abbreviation serve := (serve ratio VLC_AVAILABLE).

(** The loop, with the place of the song it returns: the songs before it
    score strictly less, the songs after it no more. *)
Lemma scan_first_best (query_lower : string) (music_files : list song)
      (bm : option song) (bs : Q) :
  query_lower <> "" ->
  exists bm' bs',
    MusicPlayer.scan ratio query_lower music_files (bm, bs) = Ok (bm', bs')
    /\ ((bm' = bm /\ bs' = bs
         /\ forall s sc, In s music_files ->
                         score query_lower (lower (name s)) = Ok sc ->
                         (sc <= bs)%Q)
        \/ exists pre s post,
            music_files = (pre ++ s :: post)%list
            /\ bm' = Some s
            /\ score query_lower (lower (name s)) = Ok bs'
            /\ (bs < bs')%Q
            /\ (forall s' sc, In s' pre ->
                              score query_lower (lower (name s')) = Ok sc ->
                              (sc < bs')%Q)
            /\ (forall s' sc, In s' post ->
                              score query_lower (lower (name s')) = Ok sc ->
                              (sc <= bs')%Q)).
Proof.
  intros Hq. revert bm bs.
  induction music_files as [| s0 rest IH]; intros bm bs.
  - exists bm, bs. split; [reflexivity |]. left.
    repeat split. intros ? ? [].
  - destruct (score_returns ratio query_lower (lower (name s0)) Hq) as [sc0 Hsc0].
    simpl MusicPlayer.scan. rewrite Hsc0. cbn [bind snd].
    destruct (Qgtb sc0 bs) eqn:Hgt.
    + apply Qgtb_true in Hgt.
      destruct (IH (Some s0) sc0) as (bm' & bs' & Hrun & Hcase).
      exists bm', bs'. split; [exact Hrun |]. right.
      destruct Hcase as [(-> & -> & Hall)
                        | (pre & s & post & -> & -> & Hs & Hlt & Hpre & Hpost)].
      * exists [], s0, rest. repeat split; try assumption.
        intros ? ? [].
      * exists (s0 :: pre), s, post. repeat split; try assumption.
        -- eapply Qlt_trans; eassumption.
        -- intros s' sc [<- | Hin] Hs'.
           ++ rewrite Hsc0 in Hs'. injection Hs' as <-. exact Hlt.
           ++ now apply (Hpre s').
    + apply Qgtb_false in Hgt.
      destruct (IH bm bs) as (bm' & bs' & Hrun & Hcase).
      exists bm', bs'. split; [exact Hrun |].
      destruct Hcase as [(-> & -> & Hall)
                        | (pre & s & post & -> & -> & Hs & Hlt & Hpre & Hpost)].
      * left. repeat split. intros s' sc [<- | Hin] Hs'.
        -- rewrite Hsc0 in Hs'. injection Hs' as <-. exact Hgt.
        -- now apply (Hall s').
      * right. exists (s0 :: pre), s, post. repeat split; try assumption.
        intros s' sc [<- | Hin] Hs'.
        -- rewrite Hsc0 in Hs'. injection Hs' as <-.
           eapply Qle_lt_trans; eassumption.
        -- now apply (Hpre s').
Qed.

(** X19. [find_best_match] always returns, for every query and every index:
    the division in the substring score never has a zero divisor, nor a
    quotient too large for a float.  What it
    returns is [None] or a song of the index: [None] for an empty index, the
    first song when the query is [None] or empty. *)
Theorem find_best_match_returns_song_of_index
        (query : option string) (music_files : list song) :
  exists found,
    find_best_match query music_files = Ok found
    /\ (forall s, found = Some s -> In s music_files)
    /\ (music_files = [] -> found = None)
    /\ (has_query query = false -> found = head music_files).
Proof.
  destruct music_files as [| first rest].
  - exists None. split; [now destruct query as [[|] |] |].
    split; [discriminate |]. split; reflexivity.
  - destruct query as [[| c q] |].
    + exists (Some first). split; [reflexivity |].
      split; [intros s E; injection E as <-; now left |].
      split; [discriminate | reflexivity].
    + destruct (find_best_match_scan ratio (String c q) (first :: rest))
        as (bm & bs & Hrun & Hfind); [discriminate |].
      destruct (scan_spec ratio (lower (String c q)) (first :: rest) None 0%Q)
        as (bm' & bs' & Hrun' & _ & _ & Hwho); [discriminate |].
      rewrite Hrun in Hrun'. injection Hrun' as <- <-.
      eexists. split; [exact Hfind |].
      split; [| split; discriminate].
      intros s E. destruct (Qgtb bs (3 # 10)); [| discriminate]. subst bm.
      destruct Hwho as [E | (s' & Hin & E & _)]; [discriminate |].
      injection E as <-. exact Hin.
    + exists (Some first). split; [reflexivity |].
      split; [intros s E; injection E as <-; now left |].
      split; [discriminate | reflexivity].
Qed.

(** X20. With a query that is not empty [find_best_match] returns the first
    of the best: the song it returns scores more than 0.3, every song
    before it in the index scores strictly less than it and no song after it
    scores more; it returns [None] exactly when no song scores more than
    0.3. *)
Theorem find_best_match_picks_first_best
        (query : string) (music_files : list song) :
  query <> "" ->
  (forall s,
      find_best_match (Some query) music_files = Ok (Some s) ->
      exists pre post sc,
        music_files = (pre ++ s :: post)%list
        /\ score (lower query) (lower (name s)) = Ok sc
        /\ (3 # 10 < sc)%Q
        /\ (forall s' sc', In s' pre ->
                           score (lower query) (lower (name s')) = Ok sc' ->
                           (sc' < sc)%Q)
        /\ (forall s' sc', In s' post ->
                           score (lower query) (lower (name s')) = Ok sc' ->
                           (sc' <= sc)%Q))
  /\ (find_best_match (Some query) music_files = Ok None
      <-> forall s sc, In s music_files ->
                       score (lower query) (lower (name s)) = Ok sc ->
                       (sc <= 3 # 10)%Q).
Proof.
  intros Hq.
  destruct (find_best_match_scan ratio query music_files Hq)
    as (bm & bs & Hrun & Hfind).
  destruct (scan_first_best (lower query) music_files None 0%Q
              (lower_nonempty _ Hq)) as (bm' & bs' & Hrun' & Hcase).
  rewrite Hrun in Hrun'. injection Hrun' as <- <-.
  rewrite Hfind. split.
  - intros s E. injection E as E.
    destruct (Qgtb bs (3 # 10)) eqn:Hthr; [| discriminate].
    apply Qgtb_true in Hthr. subst bm.
    destruct Hcase as [(E & _) | (pre & s' & post & Hfiles & E & Hs & _ & Hpre & Hpost)];
      [discriminate |].
    injection E as <-. exists pre, post, bs. now repeat split.
  - split.
    + intros E. injection E as E. intros s sc Hin Hsc.
      destruct Hcase as [(_ & -> & Hall)
                        | (pre & s' & post & Hfiles & -> & Hs & Hlt & Hpre & Hpost)].
      * pose proof (Hall s sc Hin Hsc). lra.
      * destruct (Qgtb bs (3 # 10)) eqn:Hthr; [discriminate |].
        apply Qgtb_false in Hthr.
        rewrite Hfiles in Hin. apply in_app_or in Hin as [Hin | [<- | Hin]].
        -- pose proof (Hpre s sc Hin Hsc). lra.
        -- rewrite Hs in Hsc. injection Hsc as <-. exact Hthr.
        -- pose proof (Hpost s sc Hin Hsc). lra.
    + intros Hlow.
      destruct Hcase as [(_ & -> & _)
                        | (pre & s' & post & Hfiles & -> & Hs & Hlt & Hpre & Hpost)].
      * now replace (Qgtb 0 (3 # 10)) with false by reflexivity.
      * assert (Hin : In s' music_files).
        { rewrite Hfiles. apply in_or_app. right. now left. }
        pose proof (Hlow s' bs Hin Hs) as Hle.
        apply Qgtb_false in Hle. now rewrite Hle.
Qed.

Lemma extends_refl (s : session) : extends s s.
Proof.
  unfold extends. repeat split; try (exists []; now rewrite app_nil_r).
  now left.
Qed.

Lemma extends_print (line : string) (s s' : session) :
  extends s s' -> extends s (print line s').
Proof.
  unfold extends, print. simpl.
  intros (Hv & Hp & Hf & Hq & Hr & Hc & (lines & Hl) & Hs).
  repeat split; try assumption.
  exists (lines ++ [line])%list. now rewrite Hl, app_assoc.
Qed.

Lemma extends_call (c : vlc_call) (s s' : session) :
  extends s s' -> extends s (call c s').
Proof.
  unfold extends, call. simpl.
  intros (Hv & Hp & Hf & Hq & Hr & (calls & Hc) & Hl & Hs).
  repeat split; try assumption.
  exists (calls ++ [c])%list. now rewrite Hc, app_assoc.
Qed.

Lemma extends_set_current_song (song : option song) (s s' : session) :
  match song with
  | Some x => In x (music_files (thread s))
  | None => True
  end ->
  extends s s' -> extends s (set_current_song song s').
Proof.
  unfold extends, set_current_song. simpl.
  intros Hin (Hv & Hp & Hf & Hq & Hr & Hc & Hl & Hs).
  repeat split; try assumption.
  destruct song as [x |]; [right; right; eauto | right; now left].
Qed.

Lemma start_extends (answers : vlc_answers) (x : song) (s : session) :
  In x (music_files (thread s)) -> extends s (start answers x s).
Proof.
  intros Hin. unfold start.
  destruct (failure answers) as [[[| |] e] |];
    repeat first [apply extends_print | apply extends_call
                 | apply extends_set_current_song; [exact Hin |]];
    apply extends_refl.
Qed.

Lemma play_extends (answers : vlc_answers) (query : option string) (s : session) :
  exists s', play answers query s = Ok s' /\ extends s s'.
Proof.
  unfold Playback.play.
  destruct (negb VLC_AVAILABLE
            || negb (MotorControl.is_not_None (player (thread s)))).
  { eexists. split; [reflexivity |]. apply extends_print, extends_refl. }
  assert (Hfirst : exists s',
             match music_files (thread s) with
             | first :: _ => Ok (start answers first s)
             | [] => Ok (print "[Music] No songs available" s)
             end = Ok s' /\ extends s s').
  { destruct (music_files (thread s)) as [| first rest] eqn:Hf.
    - eexists. split; [reflexivity |]. apply extends_print, extends_refl.
    - eexists. split; [reflexivity |]. apply start_extends.
      rewrite Hf. now left. }
  destruct (has_query query) eqn:Hq; simpl negb; cbv iota.
  - destruct (find_best_match_scan ratio
                match query with Some q => q | None => "" end
                (music_files (thread s))) as (bm & bs & Hrun & Hfind).
    { destruct query as [[|] |]; discriminate. }
    destruct query as [q |]; [| discriminate].
    rewrite Hfind. cbn [bind].
    destruct (scan_spec ratio (lower q) (music_files (thread s)) None 0%Q)
      as (bm' & bs' & Hrun' & _ & _ & Hwho).
    { destruct q; [discriminate | discriminate]. }
    rewrite Hrun in Hrun'. injection Hrun' as <- <-.
    destruct (Qgtb bs (3 # 10)).
    + destruct Hwho as [E | (x & Hin & -> & _)].
      * injection E as -> _. eexists. split; [reflexivity |].
        apply extends_print, extends_refl.
      * eexists. split; [reflexivity |]. now apply start_extends.
    + eexists. split; [reflexivity |]. apply extends_print, extends_refl.
  - destruct (current_song (thread s)) as [current |]; [| exact Hfirst].
    destruct (paused answers); [| exact Hfirst].
    eexists. split; [reflexivity |].
    apply extends_print, extends_call, extends_refl.
Qed.

(** What one command keeps. *)
Lemma process_command_keeps (answers : vlc_answers) (c : command) (s : session) :
  exists s',
    _process_command answers c s = Ok s'
    /\ music_files (thread s') = music_files (thread s)
    /\ MotorControl.is_not_None (player (thread s'))
       = MotorControl.is_not_None (player (thread s))
    /\ (0 <= current_volume (thread s) <= 100 ->
        0 <= current_volume (thread s') <= 100)
    /\ ((forall p, player (thread s) = Some p ->
                   audio_volume p = current_volume (thread s)) ->
        forall p, player (thread s') = Some p ->
                  audio_volume p = current_volume (thread s'))
    /\ (song_in_library s -> song_in_library s')
    /\ (exists calls, vlc s' = (vlc s ++ calls)%list).
Proof.
  assert (Hext : forall s', extends s s' ->
             music_files (thread s') = music_files (thread s)
             /\ MotorControl.is_not_None (player (thread s'))
                = MotorControl.is_not_None (player (thread s))
             /\ (0 <= current_volume (thread s) <= 100 ->
                 0 <= current_volume (thread s') <= 100)
             /\ ((forall p, player (thread s) = Some p ->
                            audio_volume p = current_volume (thread s)) ->
                 forall p, player (thread s') = Some p ->
                           audio_volume p = current_volume (thread s'))
             /\ (song_in_library s -> song_in_library s')
             /\ (exists calls, vlc s' = (vlc s ++ calls)%list)).
  { intros s' (Hv & Hp & Hf & _ & _ & Hc & _ & Hs).
    split; [exact Hf |]. split; [now rewrite Hp |].
    split; [now rewrite Hv |]. split; [now rewrite Hv, Hp |].
    split; [| exact Hc].
    unfold song_in_library. rewrite Hf.
    destruct Hs as [-> | [-> | (x & Hin & ->)]]; auto. }
  assert (Hvol : forall f,
             (f = volume_up 10 \/ f = volume_down 10) ->
             music_files (f (thread s)) = music_files (thread s)
             /\ MotorControl.is_not_None (player (f (thread s)))
                = MotorControl.is_not_None (player (thread s))
             /\ (0 <= current_volume (thread s) <= 100 ->
                 0 <= current_volume (f (thread s)) <= 100)
             /\ ((forall p, player (thread s) = Some p ->
                            audio_volume p = current_volume (thread s)) ->
                 forall p, player (f (thread s)) = Some p ->
                           audio_volume p = current_volume (f (thread s)))
             /\ (song_in_library s -> song_in_library (on_thread f s))
             /\ (exists calls, vlc (on_thread f s) = (vlc s ++ calls)%list)).
  { intros f [-> | ->]; unfold volume_up, volume_down, song_in_library, on_thread;
      destruct (player (thread s)) as [p |] eqn:Hp; simpl;
      (repeat split; try lia; try (exists []; now rewrite app_nil_r); auto;
       try (intros _ p' E; injection E as <-; reflexivity);
       try (intros _ p' E; rewrite Hp in E; discriminate);
       try (rewrite Hp; reflexivity)). }
  unfold Playback._process_command.
  destruct (Router.is_str (Router.get c "action") "play").
  { destruct (play_extends answers (query_of c) s) as (s' & Hrun & He).
    exists s'. split; [exact Hrun |]. now apply Hext. }
  destruct (Router.is_str (Router.get c "action") "pause").
  { eexists. split; [reflexivity |]. apply Hext. unfold pause.
    destruct (MotorControl.is_not_None (player (thread s)));
      [apply extends_print, extends_call |]; apply extends_refl. }
  destruct (Router.is_str (Router.get c "action") "stop").
  { eexists. split; [reflexivity |]. apply Hext. unfold stop.
    destruct (MotorControl.is_not_None (player (thread s)));
      [apply extends_print, extends_set_current_song; [exact I |];
       apply extends_call |]; apply extends_refl. }
  destruct (Router.is_str (Router.get c "action") "volume_up").
  { eexists. split; [reflexivity |]. apply Hvol. now left. }
  destruct (Router.is_str (Router.get c "action") "volume_down").
  { eexists. split; [reflexivity |]. apply Hvol. now right. }
  eexists. split; [reflexivity |]. apply Hext, extends_print, extends_refl.
Qed.

Lemma serve_keeps (inputs : list (vlc_answers * command)) (s : session) :
  music_files (thread (serve inputs s)) = music_files (thread s)
  /\ MotorControl.is_not_None (player (thread (serve inputs s)))
     = MotorControl.is_not_None (player (thread s))
  /\ (0 <= current_volume (thread s) <= 100 ->
      0 <= current_volume (thread (serve inputs s)) <= 100)
  /\ ((forall p, player (thread s) = Some p ->
                 audio_volume p = current_volume (thread s)) ->
      forall p, player (thread (serve inputs s)) = Some p ->
                audio_volume p = current_volume (thread (serve inputs s)))
  /\ (song_in_library s -> song_in_library (serve inputs s))
  /\ (exists calls, vlc (serve inputs s) = (vlc s ++ calls)%list).
Proof.
  revert s. induction inputs as [| [answers c] inputs IH]; intros s.
  - simpl. split; [reflexivity |]. split; [reflexivity |].
    split; [auto |]. split; [auto |]. split; [auto |].
    exists []. now rewrite app_nil_r.
  - destruct (process_command_keeps answers c s)
      as (s1 & Hrun & Hf & Hp & Hv & Ha & Hs & (c1 & Hc)).
    simpl Playback.serve. rewrite Hrun.
    destruct (IH s1) as (Hf' & Hp' & Hv' & Ha' & Hs' & (c2 & Hc')).
    split; [congruence |]. split; [congruence |].
    split; [auto |]. split; [auto |]. split; [auto |].
    exists (c1 ++ c2)%list. now rewrite Hc', Hc, app_assoc.
Qed.

(** X21. The volume stays within 0..100 under every sequence of commands,
    whatever the commands are and whatever VLC answers: from a thread whose
    volume is in that range, as a new thread's is, the loop of [run] leaves
    it there, and the player's own volume equal to it when it was so
    before. *)
Theorem serve_keeps_volume_in_range
        (inputs : list (vlc_answers * command)) (s : session) :
  0 <= current_volume (thread s) <= 100 ->
  0 <= current_volume (thread (serve inputs s)) <= 100
  /\ ((forall p, player (thread s) = Some p ->
                 audio_volume p = current_volume (thread s)) ->
      forall p, player (thread (serve inputs s)) = Some p ->
                audio_volume p = current_volume (thread (serve inputs s))).
Proof.
  intros Hr. destruct (serve_keeps inputs s) as (_ & _ & Hv & Ha & _).
  split; [now apply Hv | exact Ha].
Qed.

(** X22. No command raises out of [_process_command], and the engine never
    plays what is not in its library: the library itself never changes, and
    when the current song is [None] or a song of the library before a
    sequence of commands, it is so after it; the calls into VLC only grow. *)
Theorem serve_keeps_current_song_in_library
        (inputs : list (vlc_answers * command)) (s : session) :
  song_in_library s ->
  song_in_library (serve inputs s)
  /\ music_files (thread (serve inputs s)) = music_files (thread s)
  /\ (exists calls, vlc (serve inputs s) = (vlc s ++ calls)%list)
  /\ (forall answers c s0, exists s1, _process_command answers c s0 = Ok s1).
Proof.
  intros Hs. destruct (serve_keeps inputs s) as (Hf & _ & _ & _ & Hs' & Hc).
  split; [now apply Hs' |]. split; [exact Hf |]. split; [exact Hc |].
  intros answers c s0.
  destruct (process_command_keeps answers c s0) as (s1 & Hrun & _). eauto.
Qed.

(** X23. With no query, [play] resumes only a paused song.  After [stop],
    [play()] starts the first song of the library afresh, whatever state
    VLC reports; after [pause], with a current song and VLC reporting the
    paused state, it makes the one call [player.play()] and keeps the
    current song; with no current song and an empty library it only
    prints that no songs are available. *)
Theorem play_without_query_resumes_or_starts_first
        (answers : vlc_answers) (s : session) (p : MediaPlayer) :
  VLC_AVAILABLE = true ->
  player (thread s) = Some p ->
  (forall first rest,
      music_files (thread s) = first :: rest ->
      failure answers = None ->
      exists s',
        play answers None (stop s) = Ok s'
        /\ current_song (thread s') = Some first
        /\ vlc s' = (vlc s ++ [Player_stop; Instance_media_new (path first);
                               Player_set_media (path first); Player_play])%list)
  /\ (forall current,
         current_song (thread s) = Some current ->
         paused answers = true ->
         exists s',
           play answers None (pause s) = Ok s'
           /\ current_song (thread s') = Some current
           /\ vlc s' = (vlc s ++ [Player_pause; Player_play])%list)
  /\ (music_files (thread s) = [] ->
      current_song (thread s) = None ->
      play answers None s = Ok (print "[Music] No songs available" s)).
Proof.
  intros Hav Hp. split; [| split].
  - intros first rest Hf Hok.
    unfold Playback.play, stop, start. rewrite Hav, Hp. simpl.
    rewrite Hp, Hf, Hok. simpl.
    eexists. split; [reflexivity |]. split; [reflexivity |].
    simpl. now rewrite <- !app_assoc.
  - intros current Hc Hpaused.
    unfold Playback.play, pause. rewrite Hav, Hp. simpl.
    rewrite Hp, Hc, Hpaused. simpl.
    eexists. split; [reflexivity |]. split; [exact Hc |].
    simpl. now rewrite <- !app_assoc.
  - intros Hf Hc. unfold Playback.play. rewrite Hav, Hp. simpl.
    now rewrite Hc, Hf.
Qed.

(** X24. With a query that is not empty, [play] always searches, also when a
    song is paused.  When the search finds nothing it prints so and changes
    nothing else.  When it finds a song, that song is in the library; if
    VLC accepts it the song becomes the current song after exactly the
    calls [media_new], [set_media] and [play] on its path, and if VLC
    raises the current song stays what it was. *)
Theorem play_with_query_searches
        (answers : vlc_answers) (q : string) (s : session) (p : MediaPlayer) :
  VLC_AVAILABLE = true ->
  player (thread s) = Some p ->
  q <> "" ->
  exists found,
    find_best_match (Some q) (music_files (thread s)) = Ok found
    /\ match found with
       | Some x =>
           In x (music_files (thread s))
           /\ play answers (Some q) s = Ok (start answers x s)
           /\ (failure answers = None ->
               current_song (thread (start answers x s)) = Some x
               /\ vlc (start answers x s)
                  = (vlc s ++ [Instance_media_new (path x);
                               Player_set_media (path x); Player_play])%list)
           /\ (forall f, failure answers = Some f ->
                         current_song (thread (start answers x s))
                         = current_song (thread s))
       | None =>
           play answers (Some q) s
           = Ok (print ("[Music] No match found for: " +:+ q) s)
       end.
Proof.
  intros Hav Hp Hq.
  destruct (find_best_match_scan ratio q (music_files (thread s)) Hq)
    as (bm & bs & Hrun & Hfind).
  destruct (scan_spec ratio (lower q) (music_files (thread s)) None 0%Q
              (lower_nonempty _ Hq)) as (bm' & bs' & Hrun' & _ & _ & Hwho).
  rewrite Hrun in Hrun'. injection Hrun' as <- <-.
  eexists. split; [exact Hfind |].
  assert (Hplay : play answers (Some q) s
                  = match (if Qgtb bs (3 # 10) then bm else None) with
                    | Some x => Ok (start answers x s)
                    | None => Ok (print ("[Music] No match found for: " +:+ q) s)
                    end).
  { unfold Playback.play. rewrite Hav, Hp. simpl.
    destruct q as [| c q]; [congruence |]. simpl has_query. cbv iota.
    rewrite Hfind. reflexivity. }
  destruct (Qgtb bs (3 # 10)); [| exact Hplay].
  destruct Hwho as [E | (x & Hin & -> & _)].
  - injection E as -> _. exact Hplay.
  - split; [exact Hin |]. split; [exact Hplay |]. split.
    + intros Hok. unfold start. rewrite Hok. simpl.
      split; [reflexivity |]. now rewrite <- !app_assoc.
    + intros [[| |] e] Hf; unfold start; rewrite Hf; reflexivity.
Qed.

(** X25. A command whose action is none of the five that the player knows,
    or that has no ['action'] key at all, changes nothing but the output:
    the one line [[Music] Unknown action: ...] is printed, with [None] for
    a missing key. *)
Theorem unknown_action_only_prints
        (answers : vlc_answers) (c : command) (s : session) :
  known_action c = false ->
  _process_command answers c s
  = Ok (print ("[Music] Unknown action: " +:+ str_of (Router.get c "action")) s)
  /\ (c !! "action" = None -> str_of (Router.get c "action") = "None")
  /\ vlc (print ("[Music] Unknown action: " +:+ str_of (Router.get c "action")) s)
     = vlc s
  /\ current_song
       (thread (print ("[Music] Unknown action: "
                         +:+ str_of (Router.get c "action")) s))
     = current_song (thread s)
  /\ current_volume
       (thread (print ("[Music] Unknown action: "
                         +:+ str_of (Router.get c "action")) s))
     = current_volume (thread s).
Proof.
  intros Hk. unfold known_action in Hk. simpl in Hk.
  repeat (apply orb_false_iff in Hk as [? Hk]).
  split.
  - unfold Playback._process_command.
    repeat match goal with H : Router.is_str _ _ = false |- _ => rewrite H; clear H end.
    reflexivity.
  - split; [| repeat split].
    intros Hnone. unfold Router.get. now rewrite Hnone.
Qed.

End PlaybackMore.

(** ** The index of the music folder *)

Section MusicIndexMore.
Import PyStr OsPath MusicIndex MusicPlayer.

Lemma append_cons (a : ascii) (s t : string) :
  String a s +:+ t = String a (s +:+ t).
Proof. reflexivity. Qed.

Lemma append_length (s t : string) :
  String.length (s +:+ t) = (String.length s + String.length t)%nat.
Proof.
  induction s as [| a s IH]; [reflexivity |].
  rewrite append_cons. simpl. now rewrite IH.
Qed.

Lemma take_slice_from (n : nat) (s : string) : take n s +:+ slice_from n s = s.
Proof.
  revert s. induction n as [| n IH]; intros s; [reflexivity |].
  destruct s as [| a s]; [reflexivity |].
  simpl take. simpl slice_from. rewrite append_cons. now rewrite IH.
Qed.

Lemma take_app (s t : string) : take (String.length s) (s +:+ t) = s.
Proof.
  induction s as [| a s IH]; [now destruct t |].
  rewrite append_cons. simpl. now rewrite IH.
Qed.

Lemma slice_from_app (s t : string) : slice_from (String.length s) (s +:+ t) = t.
Proof.
  induction s as [| a s IH]; [reflexivity |].
  rewrite append_cons. simpl. exact IH.
Qed.

Lemma take_prefix (n : nat) (s : string) : String.prefix (take n s) s = true.
Proof.
  revert s. induction n as [| n IH]; intros s; [now destruct s |].
  destruct s as [| a s]; [reflexivity |].
  simpl. rewrite IH. now destruct (ascii_dec a a).
Qed.

Lemma has_char_app (c : ascii) (s t : string) :
  has_char c (s +:+ t) = has_char c s || has_char c t.
Proof.
  induction s as [| a s IH]; [reflexivity |].
  rewrite append_cons. simpl. rewrite IH. now rewrite orb_assoc.
Qed.

Lemma rfind_ge (c : ascii) (s : string) : -1 <= rfind c s.
Proof.
  induction s as [| a s IH]; simpl; [lia |].
  destruct (Z.geb_spec (rfind c s) 0); [lia |].
  destruct (Ascii.eqb a c); lia.
Qed.

Lemma rfind_has_char (c : ascii) (s : string) :
  has_char c s = (rfind c s >=? 0).
Proof.
  induction s as [| a s IH]; [reflexivity |]. simpl. rewrite IH.
  destruct (Z.geb_spec (rfind c s) 0) as [H | H].
  - rewrite orb_true_r. symmetry. apply Z.geb_le. lia.
  - rewrite orb_false_r. now destruct (Ascii.eqb a c).
Qed.

(** The last occurrence splits the string: nothing after it is [c]. *)
Lemma rfind_split (c : ascii) (s : string) :
  0 <= rfind c s ->
  exists pre post,
    s = pre +:+ String c post
    /\ rfind c s = Z.of_nat (String.length pre)
    /\ has_char c post = false.
Proof.
  induction s as [| a s IH]; simpl; [lia |].
  destruct (Z.geb_spec (rfind c s) 0) as [H | H]; intros Hr.
  - destruct (IH H) as (pre & post & -> & Hlen & Hpost).
    exists (String a pre), post. rewrite append_cons. simpl String.length.
    repeat split; [lia | exact Hpost].
  - destruct (Ascii.eqb_spec a c) as [-> | _]; [| lia].
    exists "", s. repeat split.
    rewrite rfind_has_char. destruct (Z.geb_spec (rfind c s) 0); [lia | reflexivity].
Qed.

Lemma rfind_app_absent (c : ascii) (s t : string) :
  has_char c t = false -> rfind c (s +:+ t) = rfind c s.
Proof.
  intros Ht. induction s as [| a s IH].
  - change ("" +:+ t) with t. simpl (rfind c ""). rewrite rfind_has_char in Ht.
    pose proof (rfind_ge c t). destruct (Z.geb_spec (rfind c t) 0); [discriminate | lia].
  - rewrite append_cons. simpl. now rewrite IH.
Qed.

Lemma rfind_app_dot (c : ascii) (s t : string) :
  has_char c t = false ->
  rfind c (s +:+ String c t) = Z.of_nat (String.length s).
Proof.
  intros Ht. induction s as [| a s IH].
  - change ("" +:+ String c t) with (String c t). simpl.
    rewrite rfind_has_char in Ht.
    destruct (Z.geb_spec (rfind c t) 0); [discriminate |].
    now rewrite Ascii.eqb_refl.
  - rewrite append_cons. simpl rfind. rewrite IH. simpl String.length.
    destruct (Z.geb_spec (Z.of_nat (String.length s)) 0); lia.
Qed.

Lemma has_non_dot_take (n m : nat) (s : string) :
  has_non_dot (take n (slice_from m s)) = true ->
  has_non_dot (take (m + n) s) = true.
Proof.
  revert s. induction m as [| m IH]; intros s H; [exact H |].
  destruct s as [| a s]; [now destruct n |].
  simpl in H |- *. rewrite (IH s H). apply orb_true_r.
Qed.

Lemma has_non_dot_nonempty (s : string) : has_non_dot s = true -> s <> "".
Proof. now destruct s. Qed.

(** The two ways [splitext] returns. *)
Lemma splitext_cases (p : string) :
  splitext p = (p, "")
  \/ exists pre post,
       p = pre +:+ String "." post
       /\ splitext p = (pre, String "." post)
       /\ has_char "." post = false
       /\ has_char "/" post = false
       /\ has_non_dot pre = true.
Proof.
  unfold splitext.
  destruct (Z.gtb_spec (rfind "." p) (rfind "/" p)) as [Hgt | Hle]; [| now left].
  destruct (has_non_dot (slice (rfind "/" p + 1) (rfind "." p) p)) eqn:Hnd;
    [| now left].
  right. pose proof (rfind_ge "/" p) as Hsep.
  destruct (rfind_split "." p ltac:(lia)) as (pre & post & Hp & Hlen & Hpost).
  exists pre, post. split; [exact Hp |].
  assert (Hroot : take (Z.to_nat (rfind "." p)) p = pre).
  { rewrite Hlen, Nat2Z.id. rewrite Hp. apply take_app. }
  split.
  { rewrite Hroot. f_equal. rewrite Hlen, Nat2Z.id. rewrite Hp.
    apply slice_from_app. }
  split; [exact Hpost |]. split.
  - destruct (has_char "/" post) eqn:Hs; [| reflexivity]. exfalso.
    assert (Hin : has_char "/" (String "." post) = true) by (simpl; exact Hs).
    rewrite rfind_has_char in Hin. apply Z.geb_le in Hin.
    destruct (rfind_split "/" (String "." post) Hin) as (a & b & Hab & Hla & Hb).
    assert (Hr : rfind "/" p = Z.of_nat (String.length (pre +:+ a))).
    { rewrite Hp, Hab.
      replace (pre +:+ (a +:+ String "/" b)) with ((pre +:+ a) +:+ String "/" b).
      - now apply rfind_app_dot.
      - clear. induction pre as [| c pre IH]; [reflexivity |].
        rewrite !append_cons. now rewrite IH. }
    rewrite append_length in Hr.
    destruct a as [| c a]; [discriminate |]. simpl in Hr. lia.
  - unfold slice in Hnd.
    apply has_non_dot_take in Hnd.
    replace (Z.to_nat (rfind "/" p + 1) + Z.to_nat (rfind "." p - (rfind "/" p + 1)))%nat
      with (Z.to_nat (rfind "." p)) in Hnd by lia.
    now rewrite Hroot in Hnd.
Qed.

(** [splitext] cuts its argument in two parts that give it back when
    they are joined.  The extension is empty or begins with a dot and has
    no other dot and no slash; when it is not empty, the part before it has
    a character that is not a dot. *)
Lemma splitext_parts (p : string) :
  (splitext p).1 +:+ (splitext p).2 = p
  /\ ((splitext p).2 = ""
      \/ exists e, (splitext p).2 = String "." e
                   /\ has_char "." e = false
                   /\ has_char "/" e = false
                   /\ has_non_dot (splitext p).1 = true).
Proof.
  destruct (splitext_cases p) as [E | (pre & post & Hp & E & Hdot & Hsep & Hnd)];
    rewrite E; simpl fst; simpl snd.
  - split; [apply append_nil_r | now left].
  - split; [now symmetry |]. right. now exists post.
Qed.

Lemma lower_char_is (c d : ascii) :
  d = "."%char \/ d = "/"%char ->
  Ascii.eqb (lower_char c) d = Ascii.eqb c d.
Proof.
  intros [-> | ->]; destruct c as [b0 b1 b2 b3 b4 b5 b6 b7];
    destruct b0, b1, b2, b3, b4, b5, b6, b7; reflexivity.
Qed.

Lemma has_char_lower (d : ascii) (s : string) :
  d = "."%char \/ d = "/"%char -> has_char d (lower s) = has_char d s.
Proof.
  intros Hd. induction s as [| c s IH]; [reflexivity |].
  simpl. now rewrite lower_char_is, IH.
Qed.

Lemma lower_app (s t : string) : lower (s +:+ t) = lower s +:+ lower t.
Proof.
  induction s as [| c s IH]; [reflexivity |].
  rewrite append_cons. simpl. rewrite IH. now rewrite append_cons.
Qed.

Lemma endswith_app (s t : string) : endswith (s +:+ t) t = true.
Proof.
  unfold endswith. rewrite append_length.
  replace (String.length s + String.length t - String.length t)%nat
    with (String.length s) by lia.
  rewrite slice_from_app, String.eqb_refl, andb_true_r.
  apply Nat.leb_le. lia.
Qed.

(** An extension of the list, in any case of letters, is a dot followed by
    characters that are neither a dot nor a slash. *)
Lemma audio_extension_shape (e : string) :
  In (lower e) AUDIO_EXTENSIONS ->
  exists e', e = String "." e'
             /\ has_char "." e' = false /\ has_char "/" e' = false.
Proof.
  intros Hin. destruct e as [| c e']; [simpl in Hin; intuition discriminate |].
  exists e'.
  assert (Hc : Ascii.eqb (lower_char c) "." = true
               /\ has_char "." (lower e') = false
               /\ has_char "/" (lower e') = false).
  { simpl in Hin.
    repeat (destruct Hin as [Hin | Hin];
            [injection Hin as <- <-; now vm_compute |]).
    destruct Hin. }
  destruct Hc as (Hc & Hdot & Hsep).
  rewrite lower_char_is in Hc by now left.
  apply Ascii.eqb_eq in Hc. subst c.
  rewrite has_char_lower in Hdot by now left.
  rewrite has_char_lower in Hsep by now right.
  now repeat split.
Qed.

Lemma is_audio_ext (stem e : string) :
  In (lower e) AUDIO_EXTENSIONS -> is_audio (stem +:+ e) = true.
Proof.
  intros Hin. unfold is_audio. apply existsb_exists.
  exists (lower e). split; [exact Hin |].
  rewrite lower_app. apply endswith_app.
Qed.

Lemma is_audio_nonempty (file : string) : is_audio file = true -> file <> "".
Proof. intros H ->. discriminate H. Qed.

Lemma index_files_filenames (root : string) (files : list string) :
  map filename (index_files root files) = List.filter is_audio files.
Proof.
  induction files as [| f files IH]; [reflexivity |].
  simpl. destruct (is_audio f); simpl; now rewrite IH.
Qed.

Lemma index_files_In (root : string) (files : list string) (s : song) :
  In s (index_files root files) ->
  In (filename s) files
  /\ is_audio (filename s) = true
  /\ s = {| name := (splitext (filename s)).1; filename := filename s;
            path := join root (filename s) |}.
Proof.
  induction files as [| f files IH]; [intros [] |].
  simpl. destruct (is_audio f) eqn:Ha.
  - intros [<- | Hin].
    + simpl. now repeat split; [left | ..].
    + destruct (IH Hin) as (H1 & H2 & H3). now repeat split; [right | ..].
  - intros Hin. destruct (IH Hin) as (H1 & H2 & H3). now repeat split; [right | ..].
Qed.

Lemma splitext_root_nonempty (file : string) :
  file <> "" ->
  (splitext file).1 <> "" /\ String.prefix (splitext file).1 file = true.
Proof.
  intros Hne.
  destruct (splitext_cases file) as [E | (pre & post & Hp & E & _ & _ & Hnd)];
    rewrite E; simpl fst.
  - split; [exact Hne | apply prefix_refl].
  - split; [now apply has_non_dot_nonempty |].
    rewrite Hp. rewrite <- (take_app pre (String "." post)) at 1.
    apply take_prefix.
Qed.

(** X26. Without the folder the index is empty and two lines are printed.
    With it, the file names of the index are the files of the walk whose
    lower-cased name ends with an audio extension, in the order of the
    walk; every song of the index comes from a directory of the walk, has
    the path of its file in that directory, and a name that is not empty
    and starts its file name. *)
Theorem index_music_folder_lists_audio_files
        (folder : string) (walk : list (string * list string)) :
  index_music_folder folder false walk
  = ([], ["Music folder not found: " +:+ folder;
          "Create it with: mkdir -p " +:+ folder])
  /\ (index_music_folder folder true walk).2 = []
  /\ map filename (index_music_folder folder true walk).1
     = List.filter is_audio (concat (map snd walk))
  /\ forall s, In s (index_music_folder folder true walk).1 ->
       (exists root files,
           In (root, files) walk /\ In (filename s) files
           /\ path s = join root (filename s))
       /\ is_audio (filename s) = true
       /\ name s <> ""
       /\ String.prefix (name s) (filename s) = true.
Proof.
  split; [reflexivity |]. split; [reflexivity |]. split.
  - unfold index_music_folder. simpl negb. cbv iota. simpl fst.
    induction walk as [| [root files] walk IH]; [reflexivity |].
    simpl. rewrite map_app, List.filter_app, index_files_filenames.
    f_equal. exact IH.
  - intros s Hin. unfold index_music_folder in Hin. simpl in Hin.
    apply in_flat_map in Hin. destruct Hin as ([root files] & Hd & Hin).
    simpl in Hin. apply index_files_In in Hin.
    destruct Hin as (Hfile & Haudio & Hs).
    split. { exists root, files. repeat split; try assumption. now rewrite Hs. }
    split; [exact Haudio |].
    pose proof (splitext_root_nonempty (filename s) (is_audio_nonempty _ Haudio))
      as [Hne Hpre].
    assert (Hname : name s = (splitext (filename s)).1) by now rewrite Hs.
    rewrite Hname. now split.
Qed.

(** X27. A file named [stem ++ e], where [stem] has no slash and [e] is an
    audio extension in any case of letters, is indexed; its song name is
    [stem], unless [stem] is empty or made of dots only: then the name is
    the whole file name. *)
Theorem index_files_strips_extension (root stem e : string) :
  In (lower e) AUDIO_EXTENSIONS ->
  has_char "/" stem = false ->
  index_files root [stem +:+ e]
  = [{| name := if has_non_dot stem then stem else stem +:+ e;
        filename := stem +:+ e;
        path := join root (stem +:+ e) |}].
Proof.
  intros Hin Hstem. simpl. rewrite (is_audio_ext stem e Hin).
  do 2 f_equal.
  destruct (audio_extension_shape e Hin) as (e' & -> & Hdot & Hsep).
  unfold splitext.
  rewrite (rfind_app_dot "." stem e' Hdot).
  assert (Hsl : rfind "/" (stem +:+ String "." e') = -1).
  { rewrite rfind_app_absent by (simpl; exact Hsep).
    rewrite rfind_has_char in Hstem. pose proof (rfind_ge "/" stem).
    destruct (Z.geb_spec (rfind "/" stem) 0); [discriminate | lia]. }
  rewrite Hsl.
  destruct (Z.gtb_spec (Z.of_nat (String.length stem)) (-1)) as [_ | H]; [| lia].
  unfold slice.
  change (slice_from (Z.to_nat (-1 + 1)) (stem +:+ String "." e'))
    with (stem +:+ String "." e').
  replace (Z.to_nat (Z.of_nat (String.length stem) - (-1 + 1)))
    with (String.length stem) by lia.
  rewrite take_app, Nat2Z.id, take_app.
  now destruct (has_non_dot stem).
Qed.

End MusicIndexMore.

(** ** Instances of the further properties *)

Section MoreInstances.
Import PyStr MoreSamples.

(** X1 on a new bus: three commands arrive, two are read, a fourth
    arrives. *)
Lemma commands_leave_in_arrival_order_witness :
  SharedState.valid_timeout (Some (1 # 10)%Q)
  /\ SharedState.valid_timeout None
  /\ (2 <= length (SharedState._command_queue SharedState.new
                   ++ [hello; louder; look_away]))%nat
  /\ exists first rest s1,
      SharedState.get_commands (Some (1 # 10)%Q) 2
        (SharedState.put_commands [hello; louder; look_away] SharedState.new)
      = SharedState.Returns (map Some first, s1)
      /\ SharedState.get_commands None (length rest)
           (SharedState.put_commands [quiet_please] s1)
         = SharedState.Returns (map Some rest, SharedState.with_queue [] SharedState.new)
      /\ length first = 2%nat
      /\ (first ++ rest)%list
         = (SharedState._command_queue SharedState.new
            ++ [hello; louder; look_away] ++ [quiet_please])%list.
Proof.
  assert (H1 : SharedState.valid_timeout (Some (1 # 10)%Q)) by (simpl; lra).
  assert (Hk : (2 <= length (SharedState._command_queue SharedState.new
                             ++ [hello; louder; look_away]))%nat) by (simpl; lia).
  split; [exact H1 |]. split; [exact I |]. split; [exact Hk |].
  exact (commands_leave_in_arrival_order (Some (1 # 10)%Q) None SharedState.new
           [hello; louder; look_away] [quiet_please] 2 H1 I Hk).
Defined.

(** X4 on a heap with two frames. *)
Lemma latest_frame_wins_witness :
  two_frames !! 1%positive = Some Samples.scene
  /\ two_frames !! 2%positive = Some Samples.blank
  /\ exists h1 self1 h2 self2 r h3,
      SharedState.set_frame (Some 1%positive) two_frames SharedState.new
      = Ok (h1, self1)
      /\ SharedState.set_frame (Some 2%positive) h1 self1 = Ok (h2, self2)
      /\ SharedState.get_frame h2 self2 = Ok (Some r, h3)
      /\ h3 !! r = Some Samples.blank.
Proof.
  assert (H1 : two_frames !! 1%positive = Some Samples.scene) by reflexivity.
  assert (H2 : two_frames !! 2%positive = Some Samples.blank) by reflexivity.
  split; [exact H1 |]. split; [exact H2 |].
  destruct (latest_frame_wins two_frames SharedState.new 1%positive 2%positive
              Samples.scene Samples.blank H1 H2)
    as (h1 & self1 & h2 & self2 & r & h3 & Ha & Hb & Hc & Hd & _).
  exists h1, self1, h2, self2, r, h3. repeat split; assumption.
Defined.

(** X5 on a bus that holds the first of the two frames. *)
Lemma readers_get_separate_copies_witness :
  SharedState._frame (SharedState.with_frame (Some 1%positive) SharedState.new)
  = Some 1%positive
  /\ two_frames !! 1%positive = Some Samples.scene
  /\ exists r1 h1 r2 h2,
      SharedState.get_frame two_frames
        (SharedState.with_frame (Some 1%positive) SharedState.new)
      = Ok (Some r1, h1)
      /\ SharedState.get_frame h1
           (SharedState.with_frame (Some 1%positive) SharedState.new)
         = Ok (Some r2, h2)
      /\ r1 <> r2
      /\ h2 !! r1 = Some Samples.scene /\ h2 !! r2 = Some Samples.scene.
Proof.
  assert (H1 : two_frames !! 1%positive = Some Samples.scene) by reflexivity.
  split; [reflexivity |]. split; [exact H1 |].
  destruct (readers_get_separate_copies two_frames
              (SharedState.with_frame (Some 1%positive) SharedState.new)
              1%positive Samples.scene eq_refl H1)
    as (r1 & h1 & r2 & h2 & Ha & Hb & Hc & _ & _ & Hd & He & _).
  exists r1, h1, r2, h2. repeat split; assumption.
Defined.

(** X11 on a box in the lower right corner of a 640 x 480 frame. *)
Lemma offset_within_half_frame_witness :
  (0 <= 620 /\ 0 <= 460 /\ 0 <= 20 /\ 0 <= 20 /\ 620 + 20 <= 640 /\ 460 + 20 <= 480)
  /\ - 320 <= (VisionTracker.offset (480, 640) (620, 460, 20, 20)).1 <= 320
  /\ - 240 <= (VisionTracker.offset (480, 640) (620, 460, 20, 20)).2 <= 240.
Proof.
  split; [lia |].
  destruct (offset_within_half_frame 480 640 620 460 20 20
              ltac:(lia) ltac:(lia) ltac:(lia) ltac:(lia) ltac:(lia) ltac:(lia))
    as (_ & _ & H).
  exact (H eq_refl eq_refl).
Defined.

(** X12 on the frame with four faces: the face is left of and above the
    centre by more than the dead zone. *)
Lemma turn_drives_motors_by_offset_witness :
  Samples.detector (Samples.gray_of Samples.scene)
  = (0, 0, 10, 10) :: [(100, 100, 20, 20); (5, 5, 40, 10); (300, 200, 20, 20)]
  /\ VisionTracker.max_from VisionTracker.area (0, 0, 10, 10)
       [(100, 100, 20, 20); (5, 5, 40, 10); (300, 200, 20, 20)]
     = (100, 100, 20, 20)
  /\ SharedState.tracking_enabled (VisionTracker.shared Samples.world0) = true
  /\ MotorControl.MOTOR_AVAILABLE (VisionTracker.motors Samples.world0) = true
  /\ exists w',
      VisionTracker.loop_body Samples.gray_of Samples.detector Samples.draw
        (Some Samples.scene) Samples.world0 = Ok w'
      /\ MotorControl.motor1 (VisionTracker.motors w')
         = MotorCalls.driven (MotorControl.motor1 (VisionTracker.motors Samples.world0))
             (MotorCalls.horizontal_throttle
                (VisionTracker.offset (shape Samples.scene) (100, 100, 20, 20)).1)
      /\ MotorControl.motor2 (VisionTracker.motors w')
         = MotorCalls.driven (MotorControl.motor2 (VisionTracker.motors Samples.world0))
             (MotorCalls.vertical_throttle
                (VisionTracker.offset (shape Samples.scene) (100, 100, 20, 20)).2).
Proof.
  split; [reflexivity |]. split; [reflexivity |].
  split; [reflexivity |]. split; [reflexivity |].
  destruct (turn_drives_motors_by_offset
              Samples.gray_of Samples.detector Samples.draw
              Samples.scene Samples.world0 (0, 0, 10, 10)
              [(100, 100, 20, 20); (5, 5, 40, 10); (300, 200, 20, 20)]
              100 100 20 20 eq_refl eq_refl eq_refl eq_refl)
    as (w' & Hrun & H1 & H2 & _).
  exists w'. repeat split; assumption.
Defined.

(** X15 on an utterance that asks for a song. *)
Lemma parse_command_returns_well_formed_witness :
  VoiceCommands.parse_command "  Play   Blue Train "
  = Some {[ "type" := PyS "music"; "action" := PyS "play";
            "query" := PyS "blue train" ]}
  /\ VoiceRules.well_formed
       {[ "type" := PyS "music"; "action" := PyS "play";
          "query" := PyS "blue train" ]} = true.
Proof.
  assert (H : VoiceCommands.parse_command "  Play   Blue Train "
              = Some {[ "type" := PyS "music"; "action" := PyS "play";
                        "query" := PyS "blue train" ]}) by reflexivity.
  split; [exact H |].
  exact (proj1 (parse_command_returns_well_formed _ _ H)).
Defined.

(** X18 on the command of "louder", sent through a router with a music
    queue. *)
Lemma parsed_commands_reach_their_handler_witness :
  VoiceCommands.parse_command "Louder" = Some louder
  /\ exists r,
      VoiceRules.applies r (strip (lower "Louder")) = true
      /\ SharedState._command_queue (Router.shared (Router.dispatch louder router0))
         = SharedState._command_queue (Router.shared router0)
      /\ SharedState.running (Router.shared (Router.dispatch louder router0))
         = SharedState.running (Router.shared router0).
Proof.
  assert (H : VoiceCommands.parse_command "Louder" = Some louder) by reflexivity.
  split; [exact H |].
  destruct (parsed_commands_reach_their_handler "Louder" louder router0 H)
    as (r & Hr & _ & _ & _ & Hq & Hrun).
  exists r. repeat split; assumption.
Defined.

(** X20 on two songs whose scores differ in the last digit only: the
    second is returned, and the first scores strictly less. *)
Lemma find_best_match_picks_first_best_witness :
  "mellow" <> ""
  /\ MusicPlayer.find_best_match mellow_ratios (Some "mellow")
       [mellow_yellow_song; mellon]
     = Ok (Some mellon)
  /\ exists pre post sc,
      [mellow_yellow_song; mellon] = (pre ++ mellon :: post)%list
      /\ MusicPlayer.score mellow_ratios (lower "mellow")
           (lower (MusicPlayer.name mellon)) = Ok sc
      /\ (3 # 10 < sc)%Q
      /\ (forall s' sc', In s' pre ->
                         MusicPlayer.score mellow_ratios (lower "mellow")
                           (lower (MusicPlayer.name s')) = Ok sc' ->
                         (sc' < sc)%Q).
Proof.
  assert (Hq : "mellow" <> "") by discriminate.
  assert (Hfound : MusicPlayer.find_best_match mellow_ratios (Some "mellow")
                     [mellow_yellow_song; mellon]
                   = Ok (Some mellon)) by (vm_compute; reflexivity).
  split; [exact Hq |]. split; [exact Hfound |].
  destruct (find_best_match_picks_first_best mellow_ratios "mellow"
              [mellow_yellow_song; mellon] Hq)
    as [Hfirst _].
  destruct (Hfirst mellon Hfound) as (pre & post & sc & H1 & H2 & H3 & H4 & _).
  exists pre, post, sc. repeat split; assumption.
Defined.

(** X21 on the playing thread: four steps up, a song, a stop. *)
Lemma serve_keeps_volume_in_range_witness :
  0 <= MusicPlayer.current_volume (Playback.thread playing) <= 100
  /\ 0 <= MusicPlayer.current_volume
            (Playback.thread
               (Playback.serve Samples.ratios true
                  [(no_trouble, volume_up_cmd); (no_trouble, volume_up_cmd);
                   (no_trouble, volume_up_cmd); (no_trouble, volume_up_cmd);
                   (no_trouble, play_jazz_cmd); (no_trouble, stop_cmd)]
                  playing))
     <= 100.
Proof.
  assert (H : 0 <= MusicPlayer.current_volume (Playback.thread playing) <= 100)
    by (simpl; lia).
  split; [exact H |].
  exact (proj1 (serve_keeps_volume_in_range Samples.ratios true
                  [(no_trouble, volume_up_cmd); (no_trouble, volume_up_cmd);
                   (no_trouble, volume_up_cmd); (no_trouble, volume_up_cmd);
                   (no_trouble, play_jazz_cmd); (no_trouble, stop_cmd)]
                  playing H)).
Defined.

(** X22 on the playing thread, with a command the player does not know
    among the others. *)
Lemma serve_keeps_current_song_in_library_witness :
  Playback.song_in_library playing
  /\ Playback.song_in_library
       (Playback.serve Samples.ratios true
          [(no_trouble, shuffle_cmd); (no_trouble, play_jazz_cmd);
           (no_trouble, volume_up_cmd)]
          playing).
Proof.
  assert (H : Playback.song_in_library playing) by (simpl; right; left; reflexivity).
  split; [exact H |].
  exact (proj1 (serve_keeps_current_song_in_library Samples.ratios true
                  [(no_trouble, shuffle_cmd); (no_trouble, play_jazz_cmd);
                   (no_trouble, volume_up_cmd)]
                  playing H)).
Defined.

(** X23 on the playing thread: after a stop, "play" starts the first song
    of the library and not the one that was current. *)
Lemma play_without_query_resumes_or_starts_first_witness :
  MusicPlayer.player (Playback.thread playing) = Some vlc_player
  /\ MusicPlayer.music_files (Playback.thread playing)
     = Samples.blue_train :: [Samples.jazz]
  /\ Playback.failure no_trouble = None
  /\ exists s',
      Playback.play Samples.ratios true no_trouble None (Playback.stop playing)
      = Ok s'
      /\ MusicPlayer.current_song (Playback.thread s') = Some Samples.blue_train.
Proof.
  split; [reflexivity |]. split; [reflexivity |]. split; [reflexivity |].
  destruct (play_without_query_resumes_or_starts_first Samples.ratios true
              no_trouble playing vlc_player eq_refl eq_refl)
    as [Hstart _].
  destruct (Hstart Samples.blue_train [Samples.jazz] eq_refl eq_refl)
    as (s' & Hplay & Hsong & _).
  exists s'. split; assumption.
Defined.

(** X24 on the playing thread and the query "jazz". *)
Lemma play_with_query_searches_witness :
  MusicPlayer.player (Playback.thread playing) = Some vlc_player
  /\ "jazz" <> ""
  /\ exists found,
      MusicPlayer.find_best_match Samples.ratios (Some "jazz")
        (MusicPlayer.music_files (Playback.thread playing)) = Ok found.
Proof.
  assert (Hq : "jazz" <> "") by discriminate.
  split; [reflexivity |]. split; [exact Hq |].
  destruct (play_with_query_searches Samples.ratios true no_trouble "jazz"
              playing vlc_player eq_refl eq_refl Hq)
    as (found & Hfound & _).
  exists found. exact Hfound.
Defined.

(** X25 on a command with the action "shuffle". *)
Lemma unknown_action_only_prints_witness :
  Playback.known_action shuffle_cmd = false
  /\ Playback._process_command Samples.ratios true no_trouble shuffle_cmd playing
     = Ok (Playback.print "[Music] Unknown action: shuffle" playing).
Proof.
  assert (H : Playback.known_action shuffle_cmd = false) by reflexivity.
  split; [exact H |].
  exact (proj1 (unknown_action_only_prints Samples.ratios true no_trouble
                  shuffle_cmd playing H)).
Defined.

(** X27 on a file whose extension is in capitals, and on a hidden file
    that has nothing but the extension. *)
Lemma index_files_strips_extension_witness :
  (In (lower ".MP3") MusicIndex.AUDIO_EXTENSIONS
   /\ OsPath.has_char "/" "Blue Train" = false
   /\ MusicIndex.index_files "./music" ["Blue Train.MP3"]
      = [{| MusicPlayer.name := "Blue Train";
            MusicPlayer.filename := "Blue Train.MP3";
            MusicPlayer.path := "./music/Blue Train.MP3" |}])
  /\ (In (lower ".mp3") MusicIndex.AUDIO_EXTENSIONS
      /\ OsPath.has_char "/" "" = false
      /\ MusicIndex.index_files "./music" [".mp3"]
         = [{| MusicPlayer.name := ".mp3";
               MusicPlayer.filename := ".mp3";
               MusicPlayer.path := "./music/.mp3" |}]).
Proof.
  assert (H1 : In (lower ".MP3") MusicIndex.AUDIO_EXTENSIONS) by (left; reflexivity).
  assert (H2 : In (lower ".mp3") MusicIndex.AUDIO_EXTENSIONS) by (left; reflexivity).
  split.
  - split; [exact H1 |]. split; [reflexivity |].
    exact (index_files_strips_extension "./music" "Blue Train" ".MP3" H1 eq_refl).
  - split; [exact H2 |]. split; [reflexivity |].
    exact (index_files_strips_extension "./music" "" ".mp3" H2 eq_refl).
Defined.

End MoreInstances.
